(** * AstroVoice: session orchestration layer of [script.js]

  A shallow embedding of the classes of [src/script.js] that carry the
  proximity voice chat logic: [DistanceCalculator], [Participant],
  [ParticipantsManager], [MinecraftIntegration.updateParticipantVolumes],
  [AudioEffectsManager.applyEffect], [WebRTCManager] and
  [VoiceChatApp.handleSignaling].

  Conventions of the embedding.
  - JavaScript numbers that carry distances and volumes are real numbers
    ([R]), the exact values that the doubles of the code round; NaN and
    infinities are not represented. Where the rounding decides a property,
    [DistanceCalculator64] has the function on binary64 numbers.
    [Date.now()] and the retry counter are integers.
  - A JavaScript [Map] keyed by gamertag is a [gmap string _]; the order in
    which [Map.prototype.forEach] visits the entries is not represented.
  - Objects owned by the browser (audio elements, Web Audio nodes, media
    streams, tracks) are opaque handles; what the browser does with them is
    not represented, only which handle is stored where.
  - An [async] method is run to completion as one step: every [await] is a
    sequencing point of the monad [M], and what the method does to the
    outside (console, WebSocket, timers, RTCPeerConnection calls) is
    recorded in order in a trace of [Event]s. *)

From Stdlib Require Import Reals Lra Psatz ZArith Ascii String.
From Stdlib Require PrimFloat.
From stdpp Require Import gmap strings list fin_maps.

(** ** DistanceCalculator (script.js 949-965) *)

Module DistanceCalculator.

Open Scope R_scope.

(** [{x, y, z}] of a player's [location]. *)
Record Location := { x : R; y : R; z : R }.

Record t := { maxDistance : R }.

(** [constructor(maxDistance = 20)] *)
Definition new (maxDistance : R) : t := {| maxDistance := maxDistance |}.
Definition default : t := new 20.

Definition calculate (pos1 pos2 : Location) : R :=
  let dx := x pos1 - x pos2 in
  let dy := y pos1 - y pos2 in
  let dz := z pos1 - z pos2 in
  sqrt (dx * dx + dy * dy + dz * dz).

(** [if (distance > this.maxDistance) return 0;
     return Math.pow(1 - distance / this.maxDistance, 2);] *)
Definition volumeFromDistance (this : t) (distance : R) : R :=
  if Rgt_dec distance (maxDistance this) then 0
  else (1 - distance / maxDistance this) ^ 2.

Close Scope R_scope.

End DistanceCalculator.

(** ** DistanceCalculator on the numbers of the code

    A JavaScript number is an IEEE 754 binary64 value, and [-], [/] and [>]
    are the operations of that format, which Rocq's primitive floats compute
    bit for bit. [Math.pow(b, 2)] is the square [b * b]; ECMAScript leaves
    the last bit of [Math.pow] to the engine, and at [b = 1], which is what
    the property below evaluates it at, every engine answers 1. *)
Module DistanceCalculator64.

Import PrimFloat.
Local Open Scope float_scope.

(** [if (distance > this.maxDistance) return 0;
     return Math.pow(1 - distance / this.maxDistance, 2);] *)
Definition volumeFromDistance (maxDistance distance : float) : float :=
  if maxDistance <? distance then 0
  else
    let base := 1 - distance / maxDistance in
    base * base.

End DistanceCalculator64.

(** [volumeFromDistance] with a rounding after each operation: [rnd] rounds
    the quotient and the difference, [pow2] is [Math.pow(_, 2)] with the
    rounding of the engine. With no rounding it is
    [DistanceCalculator.volumeFromDistance]. *)
Definition volumeFromDistanceRounded (rnd pow2 : R → R) (maxDistance distance : R) : R :=
  if Rgt_dec distance maxDistance then 0%R
  else pow2 (rnd (1 - rnd (distance / maxDistance)))%R.

(** ** Strings and browser objects *)

(** [String.prototype.trim] and [String.prototype.toLowerCase] on the ASCII
    range (the white space characters TAB, LF, VT, FF, CR and SPACE; the
    letters A to Z). On a string of ASCII characters ([isAsciiString]) they
    are the browser's functions. Bytes above 127 are left as they are: the
    browser's tables for the white space and the letters beyond ASCII are
    not represented. *)
Definition isWhiteSpace (c : ascii) : bool :=
  let n := nat_of_ascii c in
  (Nat.leb 9 n && Nat.leb n 13) || Nat.eqb n 32.

Fixpoint trimStart (s : string) : string :=
  match s with
  | EmptyString => EmptyString
  | String c s' => if isWhiteSpace c then trimStart s' else s
  end.

Fixpoint trimEnd (s : string) : string :=
  match s with
  | EmptyString => EmptyString
  | String c s' =>
      match trimEnd s' with
      | EmptyString => if isWhiteSpace c then EmptyString else String c EmptyString
      | rest => String c rest
      end
  end.

Definition trim (s : string) : string := trimEnd (trimStart s).

Definition lowerChar (c : ascii) : ascii :=
  let n := nat_of_ascii c in
  if Nat.leb 65 n && Nat.leb n 90 then ascii_of_nat (n + 32) else c.

Fixpoint toLowerCase (s : string) : string :=
  match s with
  | EmptyString => EmptyString
  | String c s' => String (lowerChar c) (toLowerCase s')
  end.

(** The strings on which [trim] and [toLowerCase] are the browser's: every
    character is an ASCII character. *)
Definition isAsciiChar (c : ascii) : bool := Nat.ltb (nat_of_ascii c) 128.

Fixpoint isAsciiString (s : string) : bool :=
  match s with
  | EmptyString => true
  | String c s' => isAsciiChar c && isAsciiString s'
  end.

(** Identity of an object owned by the browser (an audio element, a Web Audio
    node, a media stream). *)
Definition Handle := nat.

(** ** Participant (script.js 496-571) *)

Module Participant.

Record t := {
  gamertag : string;
  isSelf : bool;
  distance : R;
  volume : R;
  gainNode : option Handle;
  audioElement : option Handle;
  source : option Handle;
  customVolume : R
}.

(** [constructor(gamertag, isSelf = false)]; [skinUrl], a display string
    computed from the gamertag, is left out. *)
Definition new (gamertag : string) (isSelf : bool) : t :=
  {| gamertag := gamertag; isSelf := isSelf; distance := 0%R; volume := 1%R;
     gainNode := None; audioElement := None; source := None;
     customVolume := 1%R |}.

Definition setAudioNodes (this : t) (gainNode audioElement source : option Handle) : t :=
  {| gamertag := gamertag this; isSelf := isSelf this;
     distance := distance this; volume := volume this;
     gainNode := gainNode; audioElement := audioElement; source := source;
     customVolume := customVolume this |}.

Definition setCustomVolume (this : t) (volume' : R) : t :=
  {| gamertag := gamertag this; isSelf := isSelf this;
     distance := distance this; volume := volume this;
     gainNode := gainNode this; audioElement := audioElement this;
     source := source this; customVolume := volume' |}.

(** [const finalVolume = newVolume * this.customVolume;
     this.volume = finalVolume;] followed by the write of [finalVolume] to the
    gain node or, failing that, to the audio element. *)
Definition updateVolume (this : t) (newVolume : R) : t :=
  let finalVolume := (newVolume * customVolume this)%R in
  {| gamertag := gamertag this; isSelf := isSelf this;
     distance := distance this; volume := finalVolume;
     gainNode := gainNode this; audioElement := audioElement this;
     source := source this; customVolume := customVolume this |}.

Definition updateDistance (this : t) (distance' : R) : t :=
  {| gamertag := gamertag this; isSelf := isSelf this;
     distance := distance'; volume := volume this;
     gainNode := gainNode this; audioElement := audioElement this;
     source := source this; customVolume := customVolume this |}.

(** [cleanup()] disconnects [source] and [gainNode] and removes
    [audioElement]: these are the handles it releases, in that order. *)
Definition cleanup (this : t) : list Handle :=
  option_list (source this) ++ option_list (gainNode this)
    ++ option_list (audioElement this).

End Participant.

(** ** ParticipantsManager (script.js 577-639) *)

Module ParticipantsManager.

(** The object literal [{ gainNode, audioElement, source }] handed to
    [addPendingNode]. *)
Record NodeData := {
  gainNode : option Handle;
  audioElement : option Handle;
  source : option Handle
}.

Record t := {
  participants : gmap string Participant.t;
  pendingNodes : gmap string NodeData
}.

Definition new : t := {| participants := ∅; pendingNodes := ∅ |}.

Definition has (this : t) (gamertag : string) : bool :=
  bool_decide (is_Some (participants this !! gamertag)).

Definition get (this : t) (gamertag : string) : option Participant.t :=
  participants this !! gamertag.

(** The write [pendingData.gainNode.gain.value = 1] goes to a browser object
    and changes no field of the manager or of the participant. *)
Definition add (this : t) (gamertag : string) (isSelf : bool) : t :=
  if has this gamertag then this
  else
    let participant := Participant.new gamertag isSelf in
    match pendingNodes this !! gamertag with
    | Some pendingData =>
        let participant :=
          Participant.setAudioNodes participant
            (gainNode pendingData) (audioElement pendingData) (source pendingData) in
        {| participants := <[gamertag := participant]> (participants this);
           pendingNodes := delete gamertag (pendingNodes this) |}
    | None =>
        {| participants := <[gamertag := participant]> (participants this);
           pendingNodes := pendingNodes this |}
    end.

(** What [remove(gamertag)] (lines 606-612) does to the two maps. Its call
    of [participant.cleanup()] (line 609) acts on the participant's browser
    objects and on no field of the manager; the method with that call is
    [participantsManagerRemove]. *)
Definition remove (this : t) (gamertag : string) : t :=
  match participants this !! gamertag with
  | Some participant =>
      {| participants := delete gamertag (participants this);
         pendingNodes := pendingNodes this |}
  | None => this
  end.

(** What [clear()] (lines 626-630) does to the two maps; its calls of
    [cleanup()] (line 627) act on the participants' browser objects, and the
    caller, [exitCall], records them. *)
Definition clear (this : t) : t := {| participants := ∅; pendingNodes := ∅ |}.

Definition addPendingNode (this : t) (gamertag : string) (nodeData : NodeData) : t :=
  {| participants := participants this;
     pendingNodes := <[gamertag := nodeData]> (pendingNodes this) |}.

(** [forEach(callback)] with a callback that updates the participant it is
    given. *)
Definition forEach (this : t) (callback : Participant.t → string → Participant.t) : t :=
  {| participants := map_imap (λ gamertag participant, Some (callback participant gamertag))
                       (participants this);
     pendingNodes := pendingNodes this |}.

(** The methods that write to the manager, as data. *)
Inductive Op :=
| OpAdd (gamertag : string) (isSelf : bool)
| OpRemove (gamertag : string)
| OpClear
| OpAddPendingNode (gamertag : string) (nodeData : NodeData)
| OpForEach (callback : Participant.t → string → Participant.t).

Definition run (this : t) (op : Op) : t :=
  match op with
  | OpAdd gamertag isSelf => add this gamertag isSelf
  | OpRemove gamertag => remove this gamertag
  | OpClear => clear this
  | OpAddPendingNode gamertag nodeData => addPendingNode this gamertag nodeData
  | OpForEach callback => forEach this callback
  end.

End ParticipantsManager.

(** ** MinecraftIntegration: the volume update (script.js 1167-1201) *)

Module MinecraftIntegration.

(** [player.data] of a world snapshot, the fields that script.js reads. *)
Record PlayerData := {
  isMuted : bool;
  isDeafened : bool;
  micVolume : option R;
  isUnderWater : bool;
  isInCave : bool;
  isInMountain : bool;
  isBuried : bool;
  customVolumes : option (gmap string R)
}.

Record Player := {
  name : string;
  location : DistanceCalculator.Location;
  data : PlayerData
}.

(** The fields of [MinecraftIntegration] that the volume update reads or
    writes: the two shared objects and the deafen flag. *)
Record t := {
  participantsManager : ParticipantsManager.t;
  distanceCalculator : DistanceCalculator.t;
  currentGamertag : string;
  remoteMuted : bool;
  remoteDeafened : bool
}.

Definition setParticipantsManager (this : t) (pm : ParticipantsManager.t) : t :=
  {| participantsManager := pm;
     distanceCalculator := distanceCalculator this;
     currentGamertag := currentGamertag this;
     remoteMuted := remoteMuted this;
     remoteDeafened := remoteDeafened this |}.

(** [pl.name.trim().toLowerCase() === gamertag.trim().toLowerCase()] *)
Definition sameName (gamertag : string) (pl : Player) : bool :=
  String.eqb (toLowerCase (trim (name pl))) (toLowerCase (trim gamertag)).

(** [playersList.find(...)]: the first player of the snapshot that matches. *)
Definition findPlayer (playersList : list Player) (gamertag : string) : option Player :=
  List.find (sameName gamertag) playersList.

(** The callback that [updateParticipantVolumes] hands to
    [participantsManager.forEach]. *)
Definition updateParticipantVolume (this : t) (myPlayer : Player)
    (playersList : list Player) (participant : Participant.t) (gamertag : string)
    : Participant.t :=
  if Participant.isSelf participant then participant
  else
    match findPlayer playersList gamertag with
    | Some otherPlayer =>
        if isMuted (data otherPlayer) then
          Participant.updateVolume (Participant.updateDistance participant 0%R) 0%R
        else if remoteDeafened this then
          Participant.updateVolume participant 0%R
        else
          let distance :=
            DistanceCalculator.calculate (location myPlayer) (location otherPlayer) in
          let volume :=
            DistanceCalculator.volumeFromDistance (distanceCalculator this) distance in
          Participant.updateVolume (Participant.updateDistance participant distance) volume
    | None => Participant.updateVolume participant 0%R
    end.

Definition updateParticipantVolumes (this : t) (myPlayer : Player)
    (playersList : list Player) : t :=
  setParticipantsManager this
    (ParticipantsManager.forEach (participantsManager this)
       (updateParticipantVolume this myPlayer playersList)).

End MinecraftIntegration.

(** ** Browser objects of the peer connection layer *)

(** Values of [RTCPeerConnection.signalingState]. *)
Inductive SignalingState :=
| Stable | HaveLocalOffer | HaveRemoteOffer
| HaveLocalPranswer | HaveRemotePranswer | SignalingClosed.

(** Values of [RTCPeerConnection.connectionState]. *)
Inductive ConnectionState :=
| New | Connecting | Connected | Disconnected | Failed | Closed.

(** Values of [RTCPeerConnection.iceConnectionState]. *)
Inductive IceConnectionState :=
| IceNew | IceChecking | IceConnected | IceCompleted
| IceFailed | IceDisconnected | IceClosed.

#[global] Instance SignalingState_eq_dec : EqDecision SignalingState.
Proof. solve_decision. Defined.
#[global] Instance ConnectionState_eq_dec : EqDecision ConnectionState.
Proof. solve_decision. Defined.
#[global] Instance IceConnectionState_eq_dec : EqDecision IceConnectionState.
Proof. solve_decision. Defined.

Inductive SdpType := SdpOffer | SdpAnswer.

(** An offer or an answer as [createOffer] and [createAnswer] produce it and
    as it travels in a signaling message. *)
Record SessionDescription := { sdpType : SdpType; sdp : string }.

(** An ICE candidate, opaque. *)
Definition Candidate := string.

Inductive TrackKind := Audio | Video.

Record Track := { kind : TrackKind; ofStream : Handle }.

Record RTCRtpSender := { track : option Track }.

(** [stream.getTracks()] and [stream.getAudioTracks()] of the stream of a
    [MediaStreamAudioDestinationNode]: its one audio track. *)
Definition getTracks (stream : Handle) : list Track :=
  [ {| kind := Audio; ofStream := stream |} ].

(** An [RTCPeerConnection] with the two properties that
    [createPeerConnection] adds to it. *)
Record RTCPeerConnection := {
  signalingState : SignalingState;
  connectionState : ConnectionState;
  iceConnectionState : IceConnectionState;
  senders : list RTCRtpSender;
  _isInitialConnection : bool;
  _reconnectAttempts : Z
}.

Definition setSignalingState (pc : RTCPeerConnection) (st : SignalingState) :=
  {| signalingState := st; connectionState := connectionState pc;
     iceConnectionState := iceConnectionState pc; senders := senders pc;
     _isInitialConnection := _isInitialConnection pc;
     _reconnectAttempts := _reconnectAttempts pc |}.

Definition setConnectionState (pc : RTCPeerConnection) (st : ConnectionState) :=
  {| signalingState := signalingState pc; connectionState := st;
     iceConnectionState := iceConnectionState pc; senders := senders pc;
     _isInitialConnection := _isInitialConnection pc;
     _reconnectAttempts := _reconnectAttempts pc |}.

Definition setIceConnectionState (pc : RTCPeerConnection) (st : IceConnectionState) :=
  {| signalingState := signalingState pc; connectionState := connectionState pc;
     iceConnectionState := st; senders := senders pc;
     _isInitialConnection := _isInitialConnection pc;
     _reconnectAttempts := _reconnectAttempts pc |}.

Definition setSenders (pc : RTCPeerConnection) (ss : list RTCRtpSender) :=
  {| signalingState := signalingState pc; connectionState := connectionState pc;
     iceConnectionState := iceConnectionState pc; senders := ss;
     _isInitialConnection := _isInitialConnection pc;
     _reconnectAttempts := _reconnectAttempts pc |}.

Definition setIsInitialConnection (pc : RTCPeerConnection) (b : bool) :=
  {| signalingState := signalingState pc; connectionState := connectionState pc;
     iceConnectionState := iceConnectionState pc; senders := senders pc;
     _isInitialConnection := b;
     _reconnectAttempts := _reconnectAttempts pc |}.

Definition setReconnectAttempts (pc : RTCPeerConnection) (n : Z) :=
  {| signalingState := signalingState pc; connectionState := connectionState pc;
     iceConnectionState := iceConnectionState pc; senders := senders pc;
     _isInitialConnection := _isInitialConnection pc;
     _reconnectAttempts := n |}.

(** [new RTCPeerConnection(...)] as the browser hands it out. *)
Definition newRTCPeerConnection : RTCPeerConnection :=
  {| signalingState := Stable; connectionState := New;
     iceConnectionState := IceNew; senders := [];
     _isInitialConnection := false; _reconnectAttempts := 0 |}.

(** A [WebSocket]: 0 CONNECTING, 1 OPEN, 2 CLOSING, 3 CLOSED. *)
Record WebSocket := { readyState : nat }.

(** [this.ws && this.ws.readyState === 1] *)
Definition wsIsOpen (ws : option WebSocket) : bool :=
  match ws with
  | Some w => Nat.eqb (readyState w) 1
  | None => false
  end.

(** ** Signaling messages

    The JSON objects that script.js sends ([JSON.stringify] at lines 680,
    718, 865, 902, 1453, 1725, 1727, 1754, 1844, 1880, 1937) and the
    [participants-list] and [minecraft-update] objects that it reads. *)
Inductive Message :=
| Join (gamertag : string)
| Leave (gamertag : string)
| Offer (offer : SessionDescription) (from to : string)
| Answer (answer : SessionDescription) (from to : string)
| IceCandidateMsg (candidate : option Candidate) (from to : string)
| RequestParticipants
| ParticipantsList (list : list string)
| Heartbeat (gamertag : string)
| MinecraftUpdate
| PttStatus (gamertag : string) (isTalking isMuted : bool).

(** [data.to], for the messages that have the field. *)
Definition msgTo (data : Message) : option string :=
  match data with
  | Offer _ _ to | Answer _ _ to | IceCandidateMsg _ _ to => Some to
  | _ => None
  end.

(** ** What a method does to the outside *)

Inductive Exn := TransportError | TypeError | InvalidStateError.

(** The calls of [console.log] and [console.error], by place in script.js. *)
Inductive LogMsg :=
| ErrNoInputNode                                          (* 38 *)
| LogChangingEffect (old new : string)                    (* 54 *)
| ErrNoAudioTrack                                         (* 161 *)
| LogTrackReplaced (gamertag effect : string)             (* 178 *)
| ErrReplacingTrack (gamertag : string)                   (* 181 *)
| LogEffectApplied (peers : nat)                          (* 188 *)
| LogAudioNodesAssigned (gamertag : string)               (* 600 *)
| LogAlreadyExists (remote : string)                      (* 666 *)
| LogSkippingRenegotiation (remote : string)              (* 699 *)
| LogRenegotiationNeeded (remote : string)                (* 705 *)
| LogSignalingNotStable (st : SignalingState)             (* 708 *)
| LogRenegotiationOfferSent (remote : string)             (* 726 *)
| ErrRenegotiationFailed (remote : string) (e : Exn)      (* 729 *)
| LogTrackConnected (remote : string)                     (* 735 *)
| LogConnectionState (remote : string) (st : ConnectionState)       (* 775 *)
| LogDisconnected (remote : string)                       (* 780 *)
| LogConnectionFailed (remote : string)                   (* 784 *)
| LogConnectionEstablished (remote : string)              (* 791 *)
| LogIceState (remote : string) (st : IceConnectionState) (* 805 *)
| LogIceEstablished (remote : string)                     (* 811 *)
| LogIceFailed (remote : string)                          (* 822 *)
| LogConnecting (remote : string)                         (* 836 *)
| LogMaxReconnectionAttempts (remote : string)            (* 846 *)
| LogReconnectionAttempt (remote : string) (attempts : Z) (* 852 *)
| ErrReconnectionFailed (remote : string) (e : Exn)       (* 875 *)
| LogReconnectingAllPeers                                 (* 880 *)
| LogNoPeersToReconnect                                   (* 885 *)
| LogPeersToReconnect (gamertags : list string)           (* 889 *)
| LogReconnectingWith (gamertag : string)                 (* 896 *)
| ErrFailedToReconnect (gamertag : string) (e : Exn)      (* 914 *)
| LogReconnectionComplete                                 (* 918 *)
| LogConnectionClosed (gamertag : string)                 (* 926 *)
| LogJoined (gamertag : string)                           (* 1836 *)
| LogLeft (gamertag : string)                             (* 1855 *)
| LogTriggeringFullReconnection                           (* 1860 *)
| LogReceivedOffer (from : string)                        (* 1867 *)
| LogSentAnswer (to : string)                             (* 1888 *)
| LogReceivedAnswer (from : string)                       (* 1892 *)
| LogAnswerApplied (from : string)                        (* 1897 *)
| LogParticipantsList (list : list string)                (* 1908 *)
| ErrSignaling (e : Exn).                                 (* 1917 *)

Inductive Event :=
| ConsoleLog (m : LogMsg)
| ConsoleError (m : LogMsg)
| WsSend (msg : Message)
  (** [await new Promise((resolve) => setTimeout(resolve, ms))] *)
| Wait (ms : Z)
  (** [setTimeout(() => { if (minecraft.isInGame()) minecraft.processUpdate() }, ms)] *)
| ScheduleProcessUpdate (ms : Z)
| NewRTCPeerConnection (remote : string)
| PcAddTrack (remote : string) (t : Track)
| PcCreateOffer (remote : string)
| PcCreateAnswer (remote : string)
| PcSetLocalDescription (remote : string) (d : SessionDescription)
| PcSetRemoteDescription (remote : string) (d : SessionDescription)
| PcAddIceCandidate (remote : string) (c : Candidate)
| PcRestartIce (remote : string)
| PcClose (remote : string)
| SenderReplaceTrack (remote : string) (t : Track)
| CreateMediaStreamDestination (stream : Handle)
  (** the [switch (effect)] that chains the Tone.js nodes into [dest] *)
| ChainEffectNodes (effect : string) (dest : Handle)
| CreateAudioElement (remote : string) (element : Handle)
| ParticipantCleanup (released : list Handle)
| UpdateUI.

(** ** AudioEffectsManager: its fields (script.js 6-15)

    The Tone.js nodes ([reverb], [filter], [chorus], [dynamicNodes]) belong to
    the effect chain and are left out. *)

Module AudioEffectsManager.

Record t := {
  currentEffect : string;
  inputNode : option Handle;
  processedStream : option Handle;
  lastEffectChange : Z
}.

Definition new : t :=
  {| currentEffect := "none"; inputNode := None;
     processedStream := None; lastEffectChange := 0 |}.

Definition createInputNode (this : t) (node : Handle) : t :=
  {| currentEffect := currentEffect this; inputNode := Some node;
     processedStream := processedStream this;
     lastEffectChange := lastEffectChange this |}.

Definition setLastEffectChange (this : t) (now : Z) : t :=
  {| currentEffect := currentEffect this; inputNode := inputNode this;
     processedStream := processedStream this; lastEffectChange := now |}.

(** [this.processedStream = dest.stream; this.currentEffect = effect;] *)
Definition setProcessed (this : t) (stream : Handle) (effect : string) : t :=
  {| currentEffect := effect; inputNode := inputNode this;
     processedStream := Some stream;
     lastEffectChange := lastEffectChange this |}.

End AudioEffectsManager.

(** ** WebRTCManager: its fields (script.js 646-654) *)

Module WebRTCManager.

Record t := {
  peerConnections : gmap string RTCPeerConnection;
  ws : option WebSocket;
  currentGamertag : string
}.

Definition new : t := {| peerConnections := ∅; ws := None; currentGamertag := "" |}.

Definition setPeerConnections (this : t) (pcs : gmap string RTCPeerConnection) : t :=
  {| peerConnections := pcs; ws := ws this; currentGamertag := currentGamertag this |}.

Definition setWebSocket (this : t) (ws' : option WebSocket) : t :=
  {| peerConnections := peerConnections this; ws := ws';
     currentGamertag := currentGamertag this |}.

Definition setGamertag (this : t) (gamertag : string) : t :=
  {| peerConnections := peerConnections this; ws := ws this;
     currentGamertag := gamertag |}.

End WebRTCManager.

(** ** The application state and the monad of its methods *)

(** The objects that [VoiceChatApp] creates once and shares between its
    managers, with its own [ws] and [currentGamertag]. *)
Record App := {
  currentGamertag : string;
  ws : option WebSocket;
  participantsManager : ParticipantsManager.t;
  audioEffects : AudioEffectsManager.t;
  webrtc : WebRTCManager.t;
  (** the next unused handle of a browser object *)
  nextHandle : Handle
}.

Definition setParticipantsManager (s : App) (pm : ParticipantsManager.t) : App :=
  {| currentGamertag := currentGamertag s; ws := ws s;
     participantsManager := pm; audioEffects := audioEffects s;
     webrtc := webrtc s; nextHandle := nextHandle s |}.

Definition setAudioEffects (s : App) (ae : AudioEffectsManager.t) : App :=
  {| currentGamertag := currentGamertag s; ws := ws s;
     participantsManager := participantsManager s; audioEffects := ae;
     webrtc := webrtc s; nextHandle := nextHandle s |}.

Definition setWebrtc (s : App) (w : WebRTCManager.t) : App :=
  {| currentGamertag := currentGamertag s; ws := ws s;
     participantsManager := participantsManager s;
     audioEffects := audioEffects s;
     webrtc := w; nextHandle := nextHandle s |}.

Definition setNextHandle (s : App) (h : Handle) : App :=
  {| currentGamertag := currentGamertag s; ws := ws s;
     participantsManager := participantsManager s;
     audioEffects := audioEffects s;
     webrtc := webrtc s; nextHandle := h |}.

Definition peers (s : App) : gmap string RTCPeerConnection :=
  WebRTCManager.peerConnections (webrtc s).

Definition setPeers (s : App) (pcs : gmap string RTCPeerConnection) : App :=
  setWebrtc s (WebRTCManager.setPeerConnections (webrtc s) pcs).

(** How a method ends: it returns, or an exception leaves it. *)
Inductive Outcome (A : Type) :=
| Return (a : A)
| Throw (e : Exn).
Arguments Return {A} a.
Arguments Throw {A} e.

(** A method: from the state before, the outcome, the state after and the
    trace of what it did to the outside, oldest event first. *)
Definition M (A : Type) : Type := App → Outcome A * App * list Event.

Definition outcome {A} (r : Outcome A * App * list Event) : Outcome A := r.1.1.
Definition final {A} (r : Outcome A * App * list Event) : App := r.1.2.
Definition trace {A} (r : Outcome A * App * list Event) : list Event := r.2.

#[global] Instance M_ret : MRet M := λ A a s, (Return a, s, []).

#[global] Instance M_bind : MBind M := λ A B k m s,
  match m s with
  | (Return a, s', t) =>
      match k a s' with
      | (r, s'', t') => (r, s'', t ++ t')
      end
  | (Throw e, s', t) => (Throw e, s', t)
  end.

Definition get : M App := λ s, (Return s, s, []).
Definition put (s' : App) : M unit := λ _, (Return tt, s', []).
Definition modify (f : App → App) : M unit := λ s, (Return tt, f s, []).
Definition emit (e : Event) : M unit := λ s, (Return tt, s, [e]).
Definition throw {A} (e : Exn) : M A := λ s, (Throw e, s, []).
Definition skip : M unit := mret tt.

(** [try { body } catch (e) { handler(e) }] *)
Definition tryCatch (body : M unit) (handler : Exn → M unit) : M unit := λ s,
  match body s with
  | (Return a, s', t) => (Return a, s', t)
  | (Throw e, s', t) =>
      match handler e s' with
      | (r, s'', t') => (r, s'', t ++ t')
      end
  end.

(** [for (const x of xs) { body(x) }] and [forEach] *)
Fixpoint forEach {A} (xs : list A) (body : A → M unit) : M unit :=
  match xs with
  | [] => skip
  | x :: xs' => body x ;; forEach xs' body
  end.

(** A fresh browser object. *)
Definition fresh : M Handle := λ s,
  (Return (nextHandle s), setNextHandle s (S (nextHandle s)), []).

(** [ws.send(msg)] without a guard: a [TypeError] on [null], an
    [InvalidStateError] while CONNECTING, the message on the wire when OPEN,
    nothing when CLOSING or CLOSED. *)
Definition wsSend (ws : option WebSocket) (msg : Message) : M unit :=
  match ws with
  | None => throw TypeError
  | Some w =>
      match readyState w with
      | 0 => throw InvalidStateError
      | 1 => emit (WsSend msg)
      | _ => skip
      end
  end.

(** ** The browser's negotiation primitives

    What [createOffer], [createAnswer], [setLocalDescription],
    [setRemoteDescription], [addIceCandidate] and [replaceTrack] answer is
    the browser's business: [None] and [false] stand for a rejected promise,
    and a description that is accepted gives the connection its next
    signaling state. *)
Class Platform := {
  createOffer : RTCPeerConnection → option SessionDescription;
  createAnswer : RTCPeerConnection → option SessionDescription;
  setLocalDescription : RTCPeerConnection → SessionDescription → option SignalingState;
  setRemoteDescription : RTCPeerConnection → SessionDescription → option SignalingState;
  addIceCandidate : RTCPeerConnection → Candidate → bool;
  replaceTrack : string → RTCRtpSender → Track → bool
}.

(** The [peerConnections] argument of [applyEffect]: [null], or the one map of
    the program, [webrtcManager.peerConnections]. *)
Inductive PeerConnectionsArg := NullPeerConnections | ThePeerConnections.

Definition isAudioSender (s : RTCRtpSender) : bool :=
  match track s with
  | Some t => match kind t with Audio => true | Video => false end
  | None => false
  end.

Section Methods.

Context `{Platform}.

(** *** Calls on the connection registered for a gamertag *)

(** The connection object a method holds is the one registered under the
    gamertag; a call on a connection that is no longer there is a call on a
    closed connection. *)
Definition thePc (remote : string) : M RTCPeerConnection :=
  s ← get;
  match peers s !! remote with
  | Some pc => mret pc
  | None => throw InvalidStateError
  end.

Definition storePc (remote : string) (pc : RTCPeerConnection) : M unit :=
  modify (λ s, setPeers s (<[remote := pc]> (peers s))).

Definition pcCreateOffer (remote : string) : M SessionDescription :=
  emit (PcCreateOffer remote) ;;
  pc ← thePc remote;
  match createOffer pc with
  | Some d => mret d
  | None => throw TransportError
  end.

Definition pcCreateAnswer (remote : string) : M SessionDescription :=
  emit (PcCreateAnswer remote) ;;
  pc ← thePc remote;
  match createAnswer pc with
  | Some d => mret d
  | None => throw TransportError
  end.

Definition pcSetLocalDescription (remote : string) (d : SessionDescription) : M unit :=
  emit (PcSetLocalDescription remote d) ;;
  pc ← thePc remote;
  match setLocalDescription pc d with
  | Some st => storePc remote (setSignalingState pc st)
  | None => throw TransportError
  end.

Definition pcSetRemoteDescription (remote : string) (d : SessionDescription) : M unit :=
  emit (PcSetRemoteDescription remote d) ;;
  pc ← thePc remote;
  match setRemoteDescription pc d with
  | Some st => storePc remote (setSignalingState pc st)
  | None => throw TransportError
  end.

Definition pcAddIceCandidate (remote : string) (c : Candidate) : M unit :=
  emit (PcAddIceCandidate remote c) ;;
  pc ← thePc remote;
  if addIceCandidate pc c then skip else throw TransportError.

(** *** ParticipantsManager, with its console output *)

Definition participantsManagerAdd (gamertag : string) (isSelf : bool) : M unit :=
  s ← get;
  let pm := participantsManager s in
  (if negb (ParticipantsManager.has pm gamertag)
      && bool_decide (is_Some (ParticipantsManager.pendingNodes pm !! gamertag))
   then emit (ConsoleLog (LogAudioNodesAssigned gamertag)) else skip) ;;
  put (setParticipantsManager s (ParticipantsManager.add pm gamertag isSelf)).

(** [remove(gamertag)] (lines 606-612): [participant.cleanup()] on the
    participant that is there, releasing its browser objects, then the entry
    deleted. *)
Definition participantsManagerRemove (gamertag : string) : M unit :=
  s ← get;
  let pm := participantsManager s in
  match ParticipantsManager.get pm gamertag with
  | Some participant => emit (ParticipantCleanup (Participant.cleanup participant))
  | None => skip
  end ;;
  put (setParticipantsManager s (ParticipantsManager.remove pm gamertag)).

(** *** WebRTCManager (script.js 664-943) *)

Definition getPeerConnection (gamertag : string) : M (option RTCPeerConnection) :=
  s ← get; mret (peers s !! gamertag).

(** [processedStream.getTracks()] when [audioEffects.getProcessedStream()] is
    not [null]. *)
Definition localTracks (s : App) : list Track :=
  match AudioEffectsManager.processedStream (audioEffects s) with
  | Some processedStream => getTracks processedStream
  | None => []
  end.

(** The connection that lines 670-833 build: the browser's new connection,
    [_isInitialConnection = true], [_reconnectAttempts = 0], and one sender
    for each local track. *)
Definition initialPeerConnection (s : App) : RTCPeerConnection :=
  let pc := newRTCPeerConnection in
  let pc := setIsInitialConnection pc true in
  let pc := setReconnectAttempts pc 0 in
  setSenders pc ((λ t, {| track := Some t |}) <$> localTracks s).

Definition createPeerConnection (remoteGamertag : string) : M RTCPeerConnection :=
  s ← get;
  match peers s !! remoteGamertag with
  | Some pc =>
      emit (ConsoleLog (LogAlreadyExists remoteGamertag)) ;;
      mret pc
  | None =>
      emit (NewRTCPeerConnection remoteGamertag) ;;
      forEach (localTracks s) (λ t, emit (PcAddTrack remoteGamertag t)) ;;
      let pc := initialPeerConnection s in
      storePc remoteGamertag pc ;;
      emit (ConsoleLog (LogConnecting remoteGamertag)) ;;
      mret pc
  end.

Definition closePeerConnection (gamertag : string) : M unit :=
  s ← get;
  match peers s !! gamertag with
  | Some pc =>
      emit (PcClose gamertag) ;;
      put (setPeers s (delete gamertag (peers s))) ;;
      emit (ConsoleLog (LogConnectionClosed gamertag))
  | None => skip
  end.

Definition closeAllConnections : M unit :=
  s ← get;
  forEach (map_to_list (peers s)).*1 closePeerConnection.

(** [if (this.ws && this.ws.readyState === 1) this.ws.send(offer message)] *)
Definition sendOfferIfOpen (offer : SessionDescription) (remote : string) : M bool :=
  s ← get;
  if wsIsOpen (WebRTCManager.ws (webrtc s)) then
    emit (WsSend (Offer offer (WebRTCManager.currentGamertag (webrtc s)) remote)) ;;
    mret true
  else mret false.

Definition attemptReconnect (remoteGamertag : string) : M unit :=
  s ← get;
  let oldPc := peers s !! remoteGamertag in
  let attempts :=
    (match oldPc with Some pc => _reconnectAttempts pc | None => 0 end + 1)%Z in
  if (attempts >? 3)%Z then
    emit (ConsoleLog (LogMaxReconnectionAttempts remoteGamertag))
  else
    emit (ConsoleLog (LogReconnectionAttempt remoteGamertag attempts)) ;;
    closePeerConnection remoteGamertag ;;
    emit (Wait 1000) ;;
    tryCatch
      (pc ← createPeerConnection remoteGamertag;
       storePc remoteGamertag (setReconnectAttempts pc attempts) ;;
       offer ← pcCreateOffer remoteGamertag;
       pcSetLocalDescription remoteGamertag offer ;;
       _ ← sendOfferIfOpen offer remoteGamertag;
       skip)
      (λ e, emit (ConsoleError (ErrReconnectionFailed remoteGamertag e))).

Definition reconnectAllPeers : M unit :=
  emit (ConsoleLog LogReconnectingAllPeers) ;;
  s ← get;
  let gamertags := (map_to_list (peers s)).*1 in
  if Nat.eqb (length gamertags) 0 then
    emit (ConsoleLog LogNoPeersToReconnect)
  else
    emit (ConsoleLog (LogPeersToReconnect gamertags)) ;;
    closeAllConnections ;;
    emit (Wait 500) ;;
    forEach gamertags (λ gamertag,
      tryCatch
        (emit (ConsoleLog (LogReconnectingWith gamertag)) ;;
         pc ← createPeerConnection gamertag;
         offer ← pcCreateOffer gamertag;
         pcSetLocalDescription gamertag offer ;;
         _ ← sendOfferIfOpen offer gamertag;
         emit (Wait 300))
        (λ e, emit (ConsoleError (ErrFailedToReconnect gamertag e)))) ;;
    emit (ConsoleLog LogReconnectionComplete).

(** *** The handlers that [createPeerConnection] installs

    An event of the connection of [remoteGamertag] goes to the connection
    registered under that gamertag; a closed connection fires none. *)

Definition onnegotiationneeded (remoteGamertag : string) : M unit :=
  s ← get;
  match peers s !! remoteGamertag with
  | None => skip
  | Some pc =>
      if _isInitialConnection pc then
        emit (ConsoleLog (LogSkippingRenegotiation remoteGamertag))
      else
        emit (ConsoleLog (LogRenegotiationNeeded remoteGamertag)) ;;
        tryCatch
          (if bool_decide (signalingState pc ≠ Stable) then
             emit (ConsoleLog (LogSignalingNotStable (signalingState pc)))
           else
             offer ← pcCreateOffer remoteGamertag;
             pcSetLocalDescription remoteGamertag offer ;;
             sent ← sendOfferIfOpen offer remoteGamertag;
             if sent : bool then
               emit (ConsoleLog (LogRenegotiationOfferSent remoteGamertag))
             else skip)
          (λ e, emit (ConsoleError (ErrRenegotiationFailed remoteGamertag e)))
  end.

(** The browser has moved the connection to [st] and fires the event. *)
Definition onconnectionstatechange (remoteGamertag : string) (st : ConnectionState) : M unit :=
  s ← get;
  match peers s !! remoteGamertag with
  | None => skip
  | Some pc0 =>
      let pc := setConnectionState pc0 st in
      storePc remoteGamertag pc ;;
      emit (ConsoleLog (LogConnectionState remoteGamertag st)) ;;
      (if bool_decide (st = Disconnected) then
         emit (ConsoleLog (LogDisconnected remoteGamertag))
       else skip) ;;
      (if bool_decide (st = Failed) then
         emit (ConsoleLog (LogConnectionFailed remoteGamertag)) ;;
         attemptReconnect remoteGamertag
       else skip) ;;
      (if bool_decide (st = Connected) then
         emit (ConsoleLog (LogConnectionEstablished remoteGamertag)) ;;
         storePc remoteGamertag
           (setReconnectAttempts (setIsInitialConnection pc false) 0) ;;
         emit (ScheduleProcessUpdate 500)
       else skip)
  end.

Definition oniceconnectionstatechange (remoteGamertag : string) (st : IceConnectionState) : M unit :=
  s ← get;
  match peers s !! remoteGamertag with
  | None => skip
  | Some pc0 =>
      storePc remoteGamertag (setIceConnectionState pc0 st) ;;
      emit (ConsoleLog (LogIceState remoteGamertag st)) ;;
      (if bool_decide (st = IceConnected) || bool_decide (st = IceCompleted) then
         emit (ConsoleLog (LogIceEstablished remoteGamertag)) ;;
         emit (ScheduleProcessUpdate 500)
       else skip) ;;
      (if bool_decide (st = IceFailed) then
         emit (ConsoleLog (LogIceFailed remoteGamertag)) ;;
         emit (PcRestartIce remoteGamertag)
       else skip)
  end.

Definition onicecandidate (remoteGamertag : string) (candidate : option Candidate) : M unit :=
  s ← get;
  match candidate with
  | Some c =>
      if wsIsOpen (WebRTCManager.ws (webrtc s)) then
        emit (WsSend (IceCandidateMsg (Some c)
                (WebRTCManager.currentGamertag (webrtc s)) remoteGamertag))
      else skip
  | None => skip
  end.

Definition ontrack (remoteGamertag : string) : M unit :=
  emit (ConsoleLog (LogTrackConnected remoteGamertag)) ;;
  audioElement ← fresh;
  emit (CreateAudioElement remoteGamertag audioElement) ;;
  s ← get;
  let pm := participantsManager s in
  match ParticipantsManager.get pm remoteGamertag with
  | Some participant =>
      let participant :=
        Participant.setAudioNodes participant None (Some audioElement) None in
      let participant := Participant.updateVolume participant 0%R in
      put (setParticipantsManager s
             {| ParticipantsManager.participants :=
                  <[remoteGamertag := participant]> (ParticipantsManager.participants pm);
                ParticipantsManager.pendingNodes := ParticipantsManager.pendingNodes pm |}) ;;
      emit (ScheduleProcessUpdate 500)
  | None =>
      put (setParticipantsManager s
             (ParticipantsManager.addPendingNode pm remoteGamertag
                {| ParticipantsManager.gainNode := None;
                   ParticipantsManager.audioElement := Some audioElement;
                   ParticipantsManager.source := None |}))
  end.

(** *** AudioEffectsManager.applyEffect (script.js 36-190)

    [now] is what [Date.now()] answers. *)

(** The body of [peerConnections.forEach] at lines 167-185, for one
    connection: the first sender with an audio track gets [newTrack].
    A connection has no [pc] property, so [peerData.pc || peerData] is the
    connection itself. *)
Definition replaceAudioTrack (gamertag effect : string) (newTrack : Track)
    (pc : RTCPeerConnection) : RTCPeerConnection * list Event :=
  match list_find (λ s, Is_true (isAudioSender s)) (senders pc) with
  | Some (i, audioSender) =>
      if replaceTrack gamertag audioSender newTrack then
        (setSenders pc (<[i := {| track := Some newTrack |}]> (senders pc)),
         [SenderReplaceTrack gamertag newTrack;
          ConsoleLog (LogTrackReplaced gamertag effect)])
      else
        (pc, [SenderReplaceTrack gamertag newTrack;
              ConsoleError (ErrReplacingTrack gamertag)])
  | None => (pc, [])
  end.

Definition hasAudioSender (pc : RTCPeerConnection) : bool :=
  bool_decide (is_Some (list_find (λ s, Is_true (isAudioSender s)) (senders pc))).

(** Lines 165-188: every connection gets [newTrack] on its audio sender,
    the promises are awaited together and the count is logged. *)
Definition replaceTracks (effect : string) (newTrack : Track) : M unit :=
  s ← get;
  let results :=
    map_imap (λ gamertag pc, Some (replaceAudioTrack gamertag effect newTrack pc))
             (peers s) in
  put (setPeers s (fst <$> results)) ;;
  forEach (map_to_list results) (λ r, forEach r.2.2 emit) ;;
  emit (ConsoleLog (LogEffectApplied
          (length (filter (λ r, Is_true (hasAudioSender r.2))
                          (map_to_list (peers s)))))).

Definition applyEffect (effect : string) (now : Z) (peerConnections : PeerConnectionsArg)
    : M unit :=
  s ← get;
  let this := audioEffects s in
  match AudioEffectsManager.inputNode this with
  | None => emit (ConsoleError ErrNoInputNode)
  | Some _ =>
      if bool_decide (AudioEffectsManager.currentEffect this = effect)
         && bool_decide (is_Some (AudioEffectsManager.processedStream this))
      then skip
      else if bool_decide (is_Some (AudioEffectsManager.processedStream this))
              && (now - AudioEffectsManager.lastEffectChange this <? 1000)%Z
      then skip
      else
        put (setAudioEffects s (AudioEffectsManager.setLastEffectChange this now)) ;;
        emit (ConsoleLog (LogChangingEffect (AudioEffectsManager.currentEffect this) effect)) ;;
        dest ← fresh;
        emit (CreateMediaStreamDestination dest) ;;
        emit (ChainEffectNodes effect dest) ;;
        modify (λ s, setAudioEffects s
                       (AudioEffectsManager.setProcessed (audioEffects s) dest effect)) ;;
        s' ← get;
        match peerConnections with
        | NullPeerConnections => skip
        | ThePeerConnections =>
            if Nat.ltb 0 (size (peers s')) then
              match head (getTracks dest) with
              | None => emit (ConsoleError ErrNoAudioTrack)
              | Some newTrack => replaceTracks effect newTrack
              end
            else skip
        end
  end.

(** *** VoiceChatApp.handleSignaling (script.js 1833-1919) *)

Definition handleSignaling (data : Message) : M unit :=
  tryCatch
    (s ← get;
     match data with
     | Join gamertag =>
         if bool_decide (gamertag ≠ currentGamertag s) then
           emit (ConsoleLog (LogJoined gamertag)) ;;
           participantsManagerAdd gamertag false ;;
           existing ← getPeerConnection gamertag;
           match existing with
           | None =>
               pc ← createPeerConnection gamertag;
               offer ← pcCreateOffer gamertag;
               pcSetLocalDescription gamertag offer ;;
               wsSend (ws s) (Offer offer (currentGamertag s) gamertag)
           | Some _ => skip
           end ;;
           emit UpdateUI
         else skip
     | Leave gamertag =>
         emit (ConsoleLog (LogLeft gamertag)) ;;
         participantsManagerRemove gamertag ;;
         closePeerConnection gamertag ;;
         emit (ConsoleLog LogTriggeringFullReconnection) ;;
         reconnectAllPeers ;;
         emit UpdateUI
     | Offer offer from to =>
         if bool_decide (to = currentGamertag s) then
           emit (ConsoleLog (LogReceivedOffer from)) ;;
           participantsManagerAdd from false ;;
           pc ← createPeerConnection from;
           (if bool_decide (signalingState pc = Stable)
               || bool_decide (signalingState pc = HaveLocalOffer)
            then
              pcSetRemoteDescription from offer ;;
              answer ← pcCreateAnswer from;
              pcSetLocalDescription from answer ;;
              wsSend (ws s) (Answer answer (currentGamertag s) from) ;;
              emit (ConsoleLog (LogSentAnswer from))
            else skip) ;;
           emit UpdateUI
         else skip
     | Answer answer from to =>
         if bool_decide (to = currentGamertag s) then
           emit (ConsoleLog (LogReceivedAnswer from)) ;;
           existing ← getPeerConnection from;
           match existing with
           | Some pc =>
               if bool_decide (signalingState pc = HaveLocalOffer) then
                 pcSetRemoteDescription from answer ;;
                 emit (ConsoleLog (LogAnswerApplied from))
               else skip
           | None => skip
           end
         else skip
     | IceCandidateMsg candidate from to =>
         if bool_decide (to = currentGamertag s) then
           existing ← getPeerConnection from;
           match existing, candidate with
           | Some pc, Some c => pcAddIceCandidate from c
           | _, _ => skip
           end
         else skip
     | ParticipantsList list =>
         emit (ConsoleLog (LogParticipantsList list)) ;;
         forEach list (λ gt,
           if bool_decide (gt ≠ currentGamertag s) then
             participantsManagerAdd gt false
           else skip) ;;
         emit UpdateUI
     | RequestParticipants | Heartbeat _ | MinecraftUpdate | PttStatus _ _ _ => skip
     end)
    (λ e, emit (ConsoleError (ErrSignaling e))).

End Methods.

(** A browser that follows the signaling state machine of the WebRTC
    specification and rejects nothing else, to run the methods on concrete
    states. *)
Definition w3cBrowser : Platform :=
  {| createOffer := λ pc, Some {| sdpType := SdpOffer; sdp := "v=0 offer" |};
     createAnswer := λ pc,
       match signalingState pc with
       | HaveRemoteOffer | HaveLocalPranswer =>
           Some {| sdpType := SdpAnswer; sdp := "v=0 answer" |}
       | _ => None
       end;
     setLocalDescription := λ pc d,
       match sdpType d, signalingState pc with
       | SdpOffer, (Stable | HaveLocalOffer) => Some HaveLocalOffer
       | SdpAnswer, (HaveRemoteOffer | HaveLocalPranswer) => Some Stable
       | _, _ => None
       end;
     setRemoteDescription := λ pc d,
       match sdpType d, signalingState pc with
       | SdpOffer, (Stable | HaveLocalOffer | HaveRemoteOffer) => Some HaveRemoteOffer
       | SdpAnswer, (HaveLocalOffer | HaveRemotePranswer) => Some Stable
       | _, _ => None
       end;
     addIceCandidate := λ pc c, true;
     replaceTrack := λ gamertag sender t, true |}.

(** ** States to run the methods on *)

Module Examples.

(** Alex, the local player, and Steve, whose snapshot name needs trimming and
    lower-casing to match. *)
Definition alexPlayer : MinecraftIntegration.Player :=
  {| MinecraftIntegration.name := "Alex";
     MinecraftIntegration.location := {| DistanceCalculator.x := 0; DistanceCalculator.y := 64; DistanceCalculator.z := 0 |};
     MinecraftIntegration.data :=
       {| MinecraftIntegration.isMuted := false; MinecraftIntegration.isDeafened := false;
          MinecraftIntegration.micVolume := None;
          MinecraftIntegration.isUnderWater := false; MinecraftIntegration.isInCave := false;
          MinecraftIntegration.isInMountain := false; MinecraftIntegration.isBuried := false;
          MinecraftIntegration.customVolumes := None |} |}.

Definition stevePlayer : MinecraftIntegration.Player :=
  {| MinecraftIntegration.name := " STEVE ";
     MinecraftIntegration.location := {| DistanceCalculator.x := 3; DistanceCalculator.y := 64; DistanceCalculator.z := 4 |};
     MinecraftIntegration.data := MinecraftIntegration.data alexPlayer |}.

Definition steve : Participant.t :=
  Participant.setCustomVolume (Participant.new "Steve" false) (1 / 2).

Definition minecraft : MinecraftIntegration.t :=
  {| MinecraftIntegration.participantsManager :=
       {| ParticipantsManager.participants := {[ "Steve" := steve ]};
          ParticipantsManager.pendingNodes := ∅ |};
     MinecraftIntegration.distanceCalculator := DistanceCalculator.default;
     MinecraftIntegration.currentGamertag := "Alex";
     MinecraftIntegration.remoteMuted := false;
     MinecraftIntegration.remoteDeafened := false |}.

(** The audio element that [ontrack] stores for a gamertag not yet known. *)
Definition steveNodes : ParticipantsManager.NodeData :=
  {| ParticipantsManager.gainNode := None;
     ParticipantsManager.audioElement := Some 7;
     ParticipantsManager.source := None |}.

(** A session of Alex with an open socket, nobody else known yet. *)
Definition openSocket : option WebSocket := Some {| readyState := 1 |}.

Definition app : App :=
  {| currentGamertag := "Alex";
     ws := openSocket;
     participantsManager := ParticipantsManager.new;
     audioEffects := AudioEffectsManager.new;
     webrtc := {| WebRTCManager.peerConnections := ∅;
                  WebRTCManager.ws := openSocket;
                  WebRTCManager.currentGamertag := "Alex" |};
     nextHandle := 0 |}.

(** A link as [createPeerConnection] leaves it, then brought to the given
    flag, retry count and signaling state. *)
Definition link (initial : bool) (attempts : Z) (st : SignalingState) : RTCPeerConnection :=
  setSignalingState
    (setReconnectAttempts (setIsInitialConnection newRTCPeerConnection initial) attempts)
    st.

(** The session with one link, to Steve. *)
Definition appWith (pc : RTCPeerConnection) : App :=
  setPeers app {[ "Steve" := pc ]}.

(** The session once the microphone is set up and a first effect is in
    place: input node 0, output stream 1, effect changed at 5000 ms. *)
Definition audioReady : AudioEffectsManager.t :=
  {| AudioEffectsManager.currentEffect := "none";
     AudioEffectsManager.inputNode := Some 0;
     AudioEffectsManager.processedStream := Some 1;
     AudioEffectsManager.lastEffectChange := 5000 |}.

Definition linkWithAudio : RTCPeerConnection :=
  setSenders (link false 0 Stable)
    [ {| track := Some {| kind := Audio; ofStream := 1 |} |} ].

Definition appWithAudio : App :=
  setNextHandle (setAudioEffects (appWith linkWithAudio) audioReady) 2.

Definition anOffer : SessionDescription := {| sdpType := SdpOffer; sdp := "v=0 remote offer" |}.
Definition anAnswer : SessionDescription := {| sdpType := SdpAnswer; sdp := "v=0 remote answer" |}.

End Examples.

(** ** The entry points of the connection layer

    What reaches the session from outside once it runs: a message on the
    signaling socket, an event of a peer connection, a call of
    [applyEffect], [reconnectAllPeers] or [closeAllConnections]. *)
Inductive Entry :=
| SignalingMessage (data : Message)
| NegotiationNeeded (remoteGamertag : string)
| ConnectionStateChange (remoteGamertag : string) (st : ConnectionState)
| IceConnectionStateChange (remoteGamertag : string) (st : IceConnectionState)
| IceCandidateFound (remoteGamertag : string) (candidate : option Candidate)
| TrackReceived (remoteGamertag : string)
| EffectRequest (effect : string) (now : Z) (peerConnections : PeerConnectionsArg)
| ReconnectAll
| CloseAll.

Definition dispatch `{Platform} (e : Entry) : M unit :=
  match e with
  | SignalingMessage data => handleSignaling data
  | NegotiationNeeded remoteGamertag => onnegotiationneeded remoteGamertag
  | ConnectionStateChange remoteGamertag st => onconnectionstatechange remoteGamertag st
  | IceConnectionStateChange remoteGamertag st =>
      oniceconnectionstatechange remoteGamertag st
  | IceCandidateFound remoteGamertag candidate => onicecandidate remoteGamertag candidate
  | TrackReceived remoteGamertag => ontrack remoteGamertag
  | EffectRequest effect now peerConnections => applyEffect effect now peerConnections
  | ReconnectAll => reconnectAllPeers
  | CloseAll => closeAllConnections
  end.

(** ** Specifications of methods *)

(** From a state that satisfies [P], the method ends with an outcome and a
    state that satisfy [Q]. *)
Definition hoare {A} (P : App → Prop) (m : M A) (Q : Outcome A → App → Prop) : Prop :=
  ∀ s, P s → Q (outcome (m s)) (final (m s)).

(** The method keeps [I], however it ends. *)
Definition keeps {A} (I : App → Prop) (m : M A) : Prop :=
  hoare I m (λ _ s, I s).

(** No exception leaves the method. *)
Definition returns {A} (m : M A) : Prop :=
  ∀ s, ∃ a, outcome (m s) = Return a.

(** The retry count of a link is one of 0, 1, 2, 3. *)
Definition retryCountInRange (pc : RTCPeerConnection) : Prop :=
  (0 ≤ _reconnectAttempts pc ≤ 3)%Z.

Definition retryCountsInRange (s : App) : Prop :=
  map_Forall (λ _ pc, retryCountInRange pc) (peers s).

(** No gamertag has a participant and a pending audio resource at once. *)
Definition pendingOnlyForUnknown (s : App) : Prop :=
  ∀ gamertag,
    is_Some (ParticipantsManager.participants (participantsManager s) !! gamertag) →
    ParticipantsManager.pendingNodes (participantsManager s) !! gamertag = None.

(** ** Parts of methods, named *)

(** The roster after the loop of a [participants-list] message
    (script.js 1909-1913). *)
Definition addListed (cur : string) (pm : ParticipantsManager.t) (list : list string)
    : ParticipantsManager.t :=
  foldl (λ pm gt, if bool_decide (gt ≠ cur) then ParticipantsManager.add pm gt false else pm)
        pm list.

Section Parts.

Context `{Platform}.

(** One round of the loop of [reconnectAllPeers] (script.js 895-915). *)
Definition reconnectOne (gamertag : string) : M unit :=
  tryCatch
    (emit (ConsoleLog (LogReconnectingWith gamertag)) ;;
     pc ← createPeerConnection gamertag;
     offer ← pcCreateOffer gamertag;
     pcSetLocalDescription gamertag offer ;;
     _ ← sendOfferIfOpen offer gamertag;
     emit (Wait 300))
    (λ e, emit (ConsoleError (ErrFailedToReconnect gamertag e))).

(** The links of [σ] are those of [D], each one the link that
    [createPeerConnection] builds in [s], up to its signaling state; the rest
    of [σ] is [s]. *)
Definition renewed (s : App) (D : gset string) (σ : App) : Prop :=
  ∃ pcs, σ = setPeers s pcs ∧ dom pcs = D ∧
         map_Forall (λ _ pc, ∃ st, pc = setSignalingState (initialPeerConnection s) st) pcs.

(** What [attemptReconnect] does up to and including the call of
    [createOffer], whatever follows (script.js 852-861). *)
Definition reconnectPrefix (s : App) (remote : string) (attempts : Z) : list Event :=
  [ConsoleLog (LogReconnectionAttempt remote attempts)]
  ++ (if bool_decide (is_Some (peers s !! remote))
      then [PcClose remote; ConsoleLog (LogConnectionClosed remote)] else [])
  ++ [Wait 1000; NewRTCPeerConnection remote]
  ++ (PcAddTrack remote <$> localTracks s)
  ++ [ConsoleLog (LogConnecting remote); PcCreateOffer remote].

(** What follows [createOffer] in [attemptReconnect] (script.js 861-876):
    the signaling state the new link [pc'] ends in and the events, for the
    three ways without a send and the one with. *)
Definition reconnectTail (s : App) (remote : string) (pc' : RTCPeerConnection)
    : SignalingState * list Event :=
  match createOffer pc' with
  | None =>
      (signalingState pc',
       [ConsoleError (ErrReconnectionFailed remote TransportError)])
  | Some offer =>
      match setLocalDescription pc' offer with
      | None =>
          (signalingState pc',
           [PcSetLocalDescription remote offer;
            ConsoleError (ErrReconnectionFailed remote TransportError)])
      | Some st =>
          (st,
           PcSetLocalDescription remote offer
           :: (if wsIsOpen (WebRTCManager.ws (webrtc s))
               then [WsSend (Offer offer (WebRTCManager.currentGamertag (webrtc s)) remote)]
               else []))
      end
  end.

End Parts.

(** A browser that rejects every request, to run the methods on their
    failure paths. *)
Definition refusingBrowser : Platform :=
  {| createOffer := λ pc, None;
     createAnswer := λ pc, None;
     setLocalDescription := λ pc d, None;
     setRemoteDescription := λ pc d, None;
     addIceCandidate := λ pc c, false;
     replaceTrack := λ gamertag sender t, false |}.

(** * The session around the connection layer

    Push-to-talk, the microphone, the Minecraft update and the end of a
    call: the managers that share the peer connections, the roster and the
    socket with the connection layer. *)

#[global] Instance TrackKind_eq_dec : EqDecision TrackKind.
Proof. solve_decision. Defined.
#[global] Instance Track_eq_dec : EqDecision Track.
Proof. solve_decision. Defined.

(** ** PushToTalkManager: its fields (script.js 223-232)

    [micManager] and [webrtcManager] are the managers of the application
    (line 1420), so the guard of lines 261 and 285 never fires. *)
Module PushToTalkManager.

Record t := {
  enabled : bool;
  key : string;
  keyDisplay : string;
  isKeyPressed : bool;
  isTalking : bool
}.

Definition new : t :=
  {| enabled := false; key := "KeyV"; keyDisplay := "V";
     isKeyPressed := false; isTalking := false |}.

End PushToTalkManager.

(** ** MicrophoneManager: its fields (script.js 387-392) *)
Module MicrophoneManager.

Record t := {
  mediaStream : option Handle;
  mediaStreamSource : option Handle;
  isMuted : bool
}.

Definition new : t :=
  {| mediaStream := None; mediaStreamSource := None; isMuted := false |}.

End MicrophoneManager.

(** ** The data of a [minecraft-update] message

    [data.config.maxDistance] where there is a [config], and the list of
    players, which is [data] itself when that is an array. *)
Record MinecraftConfig := { configMaxDistance : option R }.

Inductive MinecraftData :=
| PlayersArray (players : list MinecraftIntegration.Player)
| World (players : list MinecraftIntegration.Player) (config : option MinecraftConfig).

(** ** The fields of MinecraftIntegration besides the shared managers
    (script.js 978-995) *)
Module Minecraft.

Record t := {
  distanceCalculator : DistanceCalculator.t;
  minecraftData : option MinecraftData;
  currentGamertag : string;
  isPlayerInGame : bool;
  remoteMuted : bool;
  remoteDeafened : bool;
  lastMicVolume : option R;
  lastEffectChange : Z
}.

Definition new : t :=
  {| distanceCalculator := DistanceCalculator.new 20;
     minecraftData := None; currentGamertag := ""; isPlayerInGame := false;
     remoteMuted := false; remoteDeafened := false;
     lastMicVolume := None; lastEffectChange := 0 |}.

End Minecraft.

(** ** What the session does to the outside *)

Inductive SessionLogMsg :=
| LogPttEnabled (keyDisplay : string)                        (* line 246 *)
| LogPttDisabled                                             (* line 254 *)
| LogMutedSenders (mutedCount size : nat)                    (* line 278 *)
| LogUnmutedSenders (unmutedCount size : nat)                (* line 302 *)
| LogPttKeyChanged (display : string)                        (* line 310 *)
| LogPttTalking                                              (* line 325 *)
| LogPttStopped                                              (* line 341 *)
| LogPttStatusSent (isTalking : bool)                        (* line 1460 *)
| LogMicrophoneStopped                                       (* line 462 *)
| LogVolume (oldVolume volume : R)                           (* line 200 *)
| LogMaxDistanceUpdated (old new : R)                        (* line 1032 *)
| LogConnectedToMinecraft                                    (* line 1053 *)
| LogDisconnectedFromMinecraft                               (* line 1135 *)
| LogRemoteMuteChanged (muted : bool)                        (* line 1060 *)
| LogMinecraftMuteChanged (muted : bool)                     (* line 1432 *)
| LogRemoteDeafenChanged (deafened : bool)                   (* line 1073 *)
| LogMinecraftDeafenChanged (deafened : bool)                (* line 1439 *)
| LogMicrophoneVolumeUpdated (micVolume : R).                (* line 1095 *)

Inductive SessionEvent :=
| OfConnectionLayer (e : Event)
| SessionConsoleLog (m : SessionLogMsg)
| ShowTalkingIndicator
| HideTalkingIndicator
| TrackStop (t : Track)
| SourceDisconnect (source : Handle)
| WsClose
| ClearInterval (interval : Handle)
| ShowCallControls (show : bool)
| UpdateRoomInfo (message : string).

(** ** The session *)

Record Session := {
  app : App;
  micManager : MicrophoneManager.t;
  pushToTalk : PushToTalkManager.t;
  minecraft : Minecraft.t;
  (** [audioEffects.inputNode.gain.value] *)
  inputGain : R;
  (** [MediaStreamTrack.enabled], by track *)
  trackEnabled : Track → bool;
  heartbeatInterval : option Handle
}.

Definition setApp (s : Session) (a : App) : Session :=
  {| app := a; micManager := micManager s; pushToTalk := pushToTalk s;
     minecraft := minecraft s; inputGain := inputGain s;
     trackEnabled := trackEnabled s; heartbeatInterval := heartbeatInterval s |}.

Definition setMicManager (s : Session) (m : MicrophoneManager.t) : Session :=
  {| app := app s; micManager := m; pushToTalk := pushToTalk s;
     minecraft := minecraft s; inputGain := inputGain s;
     trackEnabled := trackEnabled s; heartbeatInterval := heartbeatInterval s |}.

Definition setPushToTalk (s : Session) (p : PushToTalkManager.t) : Session :=
  {| app := app s; micManager := micManager s; pushToTalk := p;
     minecraft := minecraft s; inputGain := inputGain s;
     trackEnabled := trackEnabled s; heartbeatInterval := heartbeatInterval s |}.

Definition setMinecraft (s : Session) (m : Minecraft.t) : Session :=
  {| app := app s; micManager := micManager s; pushToTalk := pushToTalk s;
     minecraft := m; inputGain := inputGain s;
     trackEnabled := trackEnabled s; heartbeatInterval := heartbeatInterval s |}.

Definition setInputGain (s : Session) (v : R) : Session :=
  {| app := app s; micManager := micManager s; pushToTalk := pushToTalk s;
     minecraft := minecraft s; inputGain := v;
     trackEnabled := trackEnabled s; heartbeatInterval := heartbeatInterval s |}.

Definition setTrackEnabled (s : Session) (flags : Track → bool) : Session :=
  {| app := app s; micManager := micManager s; pushToTalk := pushToTalk s;
     minecraft := minecraft s; inputGain := inputGain s;
     trackEnabled := flags; heartbeatInterval := heartbeatInterval s |}.

Definition setHeartbeatInterval (s : Session) (h : option Handle) : Session :=
  {| app := app s; micManager := micManager s; pushToTalk := pushToTalk s;
     minecraft := minecraft s; inputGain := inputGain s;
     trackEnabled := trackEnabled s; heartbeatInterval := h |}.

(** [track.enabled = b] *)
Definition enableTrack (flags : Track → bool) (t : Track) (b : bool) : Track → bool :=
  λ t', if decide (t' = t) then b else flags t'.

(** ** PushToTalkManager: its methods (script.js 238-371) *)

(** The body of [senders.forEach] at lines 270-275 and 294-299: a sender
    with an audio track has the track's [enabled] set and is counted. *)
Definition setSenderEnabled (b : bool) (acc : (Track → bool) * nat) (sender : RTCRtpSender)
    : (Track → bool) * nat :=
  match track sender with
  | Some t =>
      match kind t with
      | Audio => (enableTrack acc.1 t b, S acc.2)
      | Video => acc
      end
  | None => acc
  end.

(** [peerConnections.forEach] over [pc.getSenders().forEach] (lines 267-276
    and 291-300): the flags afterwards and the count. *)
Definition setAllSenders (b : bool) (pcs : gmap string RTCPeerConnection)
    (flags : Track → bool) : (Track → bool) * nat :=
  foldl (λ acc entry, foldl (setSenderEnabled b) acc (senders entry.2))
        (flags, 0) (map_to_list pcs).

Definition muteAllSenders (s : Session) : Session * list SessionEvent :=
  let r := setAllSenders false (peers (app s)) (trackEnabled s) in
  (setTrackEnabled s r.1,
   [SessionConsoleLog (LogMutedSenders r.2 (size (peers (app s))))]).

Definition unmuteAllSenders (s : Session) : Session * list SessionEvent :=
  let r := setAllSenders true (peers (app s)) (trackEnabled s) in
  (setTrackEnabled s r.1,
   [SessionConsoleLog (LogUnmutedSenders r.2 (size (peers (app s))))]).

(** The callback that the application installs with [setOnTalkingChange]
    (lines 1449-1463). *)
Definition onTalkingChange (s : Session) (isTalking : bool) : list SessionEvent :=
  if wsIsOpen (ws (app s)) then
    [OfConnectionLayer
       (WsSend (PttStatus (currentGamertag (app s)) isTalking (negb isTalking)));
     SessionConsoleLog (LogPttStatusSent isTalking)]
  else [].

Definition notifyTalkingChange (s : Session) : list SessionEvent :=
  onTalkingChange s (PushToTalkManager.isTalking (pushToTalk s)).

Definition pttSetEnabled (enabled : bool) (s : Session) : Session * list SessionEvent :=
  let this := pushToTalk s in
  if enabled then
    let s := setPushToTalk s
               {| PushToTalkManager.enabled := true;
                  PushToTalkManager.key := PushToTalkManager.key this;
                  PushToTalkManager.keyDisplay := PushToTalkManager.keyDisplay this;
                  PushToTalkManager.isKeyPressed := false;
                  PushToTalkManager.isTalking := false |} in
    let (s, muted) := muteAllSenders s in
    (s, muted ++ notifyTalkingChange s
          ++ [SessionConsoleLog (LogPttEnabled (PushToTalkManager.keyDisplay this))])
  else
    let s := setPushToTalk s
               {| PushToTalkManager.enabled := false;
                  PushToTalkManager.key := PushToTalkManager.key this;
                  PushToTalkManager.keyDisplay := PushToTalkManager.keyDisplay this;
                  PushToTalkManager.isKeyPressed := PushToTalkManager.isKeyPressed this;
                  PushToTalkManager.isTalking := true |} in
    let (s, unmuted) := unmuteAllSenders s in
    (s, unmuted ++ notifyTalkingChange s ++ [SessionConsoleLog LogPttDisabled]).

Definition pttSetKey (key display : string) (s : Session) : Session * list SessionEvent :=
  let this := pushToTalk s in
  (setPushToTalk s
     {| PushToTalkManager.enabled := PushToTalkManager.enabled this;
        PushToTalkManager.key := key;
        PushToTalkManager.keyDisplay := display;
        PushToTalkManager.isKeyPressed := PushToTalkManager.isKeyPressed this;
        PushToTalkManager.isTalking := PushToTalkManager.isTalking this |},
   [SessionConsoleLog (LogPttKeyChanged display)]).

(** [handleKeyDown(event)], [code] being [event.code]. *)
Definition handleKeyDown (code : string) (s : Session) : Session * list SessionEvent :=
  let this := pushToTalk s in
  if negb (PushToTalkManager.enabled this) then (s, [])
  else if String.eqb code (PushToTalkManager.key this)
          && negb (PushToTalkManager.isKeyPressed this) then
    let s := setPushToTalk s
               {| PushToTalkManager.enabled := PushToTalkManager.enabled this;
                  PushToTalkManager.key := PushToTalkManager.key this;
                  PushToTalkManager.keyDisplay := PushToTalkManager.keyDisplay this;
                  PushToTalkManager.isKeyPressed := true;
                  PushToTalkManager.isTalking := true |} in
    let (s, unmuted) := unmuteAllSenders s in
    (s, unmuted ++ notifyTalkingChange s
          ++ [ShowTalkingIndicator; SessionConsoleLog LogPttTalking])
  else (s, []).

Definition handleKeyUp (code : string) (s : Session) : Session * list SessionEvent :=
  let this := pushToTalk s in
  if negb (PushToTalkManager.enabled this) then (s, [])
  else if String.eqb code (PushToTalkManager.key this)
          && PushToTalkManager.isKeyPressed this then
    let s := setPushToTalk s
               {| PushToTalkManager.enabled := PushToTalkManager.enabled this;
                  PushToTalkManager.key := PushToTalkManager.key this;
                  PushToTalkManager.keyDisplay := PushToTalkManager.keyDisplay this;
                  PushToTalkManager.isKeyPressed := false;
                  PushToTalkManager.isTalking := false |} in
    let (s, muted) := muteAllSenders s in
    (s, muted ++ notifyTalkingChange s
          ++ [HideTalkingIndicator; SessionConsoleLog LogPttStopped])
  else (s, []).

(** The calls of the push-to-talk manager, as data. *)
Inductive PttCall :=
| SetEnabled (enabled : bool)
| SetKey (key display : string)
| KeyDown (code : string)
| KeyUp (code : string).

Definition pttCall (c : PttCall) : Session → Session * list SessionEvent :=
  match c with
  | SetEnabled enabled => pttSetEnabled enabled
  | SetKey key display => pttSetKey key display
  | KeyDown code => handleKeyDown code
  | KeyUp code => handleKeyUp code
  end.

(** ** MicrophoneManager: its methods (script.js 453-481) *)

(** [mediaStream.getAudioTracks()] and [getTracks()] of the stream that
    [getUserMedia] gives for audio alone: its one audio track. *)
Definition micTracks (mediaStream : Handle) : list Track :=
  [ {| kind := Audio; ofStream := mediaStream |} ].

Definition micSetEnabled (enabled : bool) (s : Session) : Session :=
  match MicrophoneManager.mediaStream (micManager s) with
  | Some mediaStream =>
      setTrackEnabled s
        (foldl (λ flags t, enableTrack flags t enabled) (trackEnabled s)
               (micTracks mediaStream))
  | None => s
  end.

(** [toggleMute()]: the session afterwards and the value returned. *)
Definition toggleMute (s : Session) : Session * bool :=
  let this := micManager s in
  let isMuted := negb (MicrophoneManager.isMuted this) in
  let s := setMicManager s
             {| MicrophoneManager.mediaStream := MicrophoneManager.mediaStream this;
                MicrophoneManager.mediaStreamSource :=
                  MicrophoneManager.mediaStreamSource this;
                MicrophoneManager.isMuted := isMuted |} in
  (micSetEnabled (negb isMuted) s, isMuted).

Definition micStop (s : Session) : Session * list SessionEvent :=
  let this := micManager s in
  (setMicManager s
     {| MicrophoneManager.mediaStream := None;
        MicrophoneManager.mediaStreamSource := None;
        MicrophoneManager.isMuted := MicrophoneManager.isMuted this |},
   match MicrophoneManager.mediaStream this with
   | Some mediaStream => TrackStop <$> micTracks mediaStream
   | None => []
   end
   ++ match MicrophoneManager.mediaStreamSource this with
      | Some source => [SourceDisconnect source]
      | None => []
      end
   ++ [SessionConsoleLog LogMicrophoneStopped]).

(** ** AudioEffectsManager.updateVolume (script.js 192-207)

    The test [Math.abs(oldVolume - volume) > 0.05] decides the log line
    alone; it is taken on the exact values, and the doubles of the code can
    decide it the other way at the threshold. *)
Definition updateVolume (volume : R) (s : Session) : Session * list SessionEvent :=
  match AudioEffectsManager.inputNode (audioEffects (app s)) with
  | Some _ =>
      let oldVolume := inputGain s in
      (setInputGain s volume,
       if Rgt_dec (Rabs (oldVolume - volume)) (5 / 100)
       then [SessionConsoleLog (LogVolume oldVolume volume)] else [])
  | None => (s, [])
  end.

(** ** MinecraftIntegration.processUpdate (script.js 1015-1165) *)

Definition playersOf (data : MinecraftData) : list MinecraftIntegration.Player :=
  match data with
  | PlayersArray players => players
  | World players _ => players
  end.

(** [this.minecraftData.config && this.minecraftData.config.maxDistance]
    as a condition: a [maxDistance] that is there and is not 0. *)
Definition newMaxDistanceOf (data : MinecraftData) : option R :=
  match data with
  | PlayersArray _ => None
  | World _ None => None
  | World _ (Some config) =>
      match configMaxDistance config with
      | Some d => if Req_dec_T d 0 then None else Some d
      | None => None
      end
  end.

(** The shared managers and the fields, as the volume update sees them. *)
Definition integration (s : Session) : MinecraftIntegration.t :=
  {| MinecraftIntegration.participantsManager := participantsManager (app s);
     MinecraftIntegration.distanceCalculator := Minecraft.distanceCalculator (minecraft s);
     MinecraftIntegration.currentGamertag := Minecraft.currentGamertag (minecraft s);
     MinecraftIntegration.remoteMuted := Minecraft.remoteMuted (minecraft s);
     MinecraftIntegration.remoteDeafened := Minecraft.remoteDeafened (minecraft s) |}.

Definition setRoster (s : Session) (pm : ParticipantsManager.t) : Session :=
  setApp s (setParticipantsManager (app s) pm).

(** [applyCustomVolumes(customVolumes)] (lines 1122-1132) *)
Definition applyCustomVolumes (customVolumes : gmap string R) (s : Session) : Session :=
  setRoster s
    (ParticipantsManager.forEach (participantsManager (app s))
       (λ participant gamertag,
          if Participant.isSelf participant then participant
          else match customVolumes !! gamertag with
               | Some customVolume => Participant.setCustomVolume participant customVolume
               | None => participant
               end)).

(** [handlePlayerNotInGame(wasInGame)] (lines 1134-1145) *)
Definition handlePlayerNotInGame (wasInGame : bool) (s : Session)
    : Session * list SessionEvent :=
  let s := micSetEnabled false s in
  (setRoster s
     (ParticipantsManager.forEach (participantsManager (app s))
        (λ participant _,
           if negb (Participant.isSelf participant)
           then Participant.updateVolume participant 0%R
           else participant)),
   if wasInGame then [SessionConsoleLog LogDisconnectedFromMinecraft] else []).

(** The effect that the surroundings of the player ask for (lines
    1153-1158). *)
Definition targetEffect (data : MinecraftIntegration.PlayerData) : string :=
  if MinecraftIntegration.isUnderWater data then "underwater"
  else if MinecraftIntegration.isInCave data then "cave"
  else if MinecraftIntegration.isInMountain data then "mountain"
  else if MinecraftIntegration.isBuried data then "buried"
  else "none".

Definition setMinecraftFlags (m : Minecraft.t) (inGame muted deafened : bool) : Minecraft.t :=
  {| Minecraft.distanceCalculator := Minecraft.distanceCalculator m;
     Minecraft.minecraftData := Minecraft.minecraftData m;
     Minecraft.currentGamertag := Minecraft.currentGamertag m;
     Minecraft.isPlayerInGame := inGame;
     Minecraft.remoteMuted := muted;
     Minecraft.remoteDeafened := deafened;
     Minecraft.lastMicVolume := Minecraft.lastMicVolume m;
     Minecraft.lastEffectChange := Minecraft.lastEffectChange m |}.

Definition setDistanceCalculator (m : Minecraft.t) (dc : DistanceCalculator.t) : Minecraft.t :=
  {| Minecraft.distanceCalculator := dc;
     Minecraft.minecraftData := Minecraft.minecraftData m;
     Minecraft.currentGamertag := Minecraft.currentGamertag m;
     Minecraft.isPlayerInGame := Minecraft.isPlayerInGame m;
     Minecraft.remoteMuted := Minecraft.remoteMuted m;
     Minecraft.remoteDeafened := Minecraft.remoteDeafened m;
     Minecraft.lastMicVolume := Minecraft.lastMicVolume m;
     Minecraft.lastEffectChange := Minecraft.lastEffectChange m |}.

Definition setLastMicVolume (m : Minecraft.t) (v : option R) : Minecraft.t :=
  {| Minecraft.distanceCalculator := Minecraft.distanceCalculator m;
     Minecraft.minecraftData := Minecraft.minecraftData m;
     Minecraft.currentGamertag := Minecraft.currentGamertag m;
     Minecraft.isPlayerInGame := Minecraft.isPlayerInGame m;
     Minecraft.remoteMuted := Minecraft.remoteMuted m;
     Minecraft.remoteDeafened := Minecraft.remoteDeafened m;
     Minecraft.lastMicVolume := v;
     Minecraft.lastEffectChange := Minecraft.lastEffectChange m |}.

Definition setLastEffectChange (m : Minecraft.t) (now : Z) : Minecraft.t :=
  {| Minecraft.distanceCalculator := Minecraft.distanceCalculator m;
     Minecraft.minecraftData := Minecraft.minecraftData m;
     Minecraft.currentGamertag := Minecraft.currentGamertag m;
     Minecraft.isPlayerInGame := Minecraft.isPlayerInGame m;
     Minecraft.remoteMuted := Minecraft.remoteMuted m;
     Minecraft.remoteDeafened := Minecraft.remoteDeafened m;
     Minecraft.lastMicVolume := Minecraft.lastMicVolume m;
     Minecraft.lastEffectChange := now |}.

Definition setMinecraftData (m : Minecraft.t) (data : option MinecraftData) : Minecraft.t :=
  {| Minecraft.distanceCalculator := Minecraft.distanceCalculator m;
     Minecraft.minecraftData := data;
     Minecraft.currentGamertag := Minecraft.currentGamertag m;
     Minecraft.isPlayerInGame := Minecraft.isPlayerInGame m;
     Minecraft.remoteMuted := Minecraft.remoteMuted m;
     Minecraft.remoteDeafened := Minecraft.remoteDeafened m;
     Minecraft.lastMicVolume := Minecraft.lastMicVolume m;
     Minecraft.lastEffectChange := Minecraft.lastEffectChange m |}.

(** [micVolume === this.lastMicVolume], the latter [null] at first. *)
Definition sameVolume (lastMicVolume : option R) (micVolume : R) : bool :=
  match lastMicVolume with
  | Some last => if Req_dec_T micVolume last then true else false
  | None => false
  end.

Section SessionMethods.

Context `{Platform}.

(** [applyEnvironmentalEffects(myPlayer)] (lines 1147-1165). [now] is what
    [Date.now()] answers here and [nowEffect] what it answers inside
    [applyEffect]. The call of [applyEffect] is not awaited; what it does
    after its one [await] touches the links only, which nothing in
    [processUpdate] reads, so it is run to its end here. *)
Definition applyEnvironmentalEffects (now nowEffect : Z)
    (myPlayer : MinecraftIntegration.Player) (s : Session) : Session * list SessionEvent :=
  if (now - Minecraft.lastEffectChange (minecraft s) <? 1000)%Z then (s, [])
  else
    let s := setMinecraft s (setLastEffectChange (minecraft s) now) in
    let target := targetEffect (MinecraftIntegration.data myPlayer) in
    if bool_decide (target ≠ AudioEffectsManager.currentEffect (audioEffects (app s))) then
      let r := applyEffect target nowEffect ThePeerConnections (app s) in
      (setApp s (final r), OfConnectionLayer <$> trace r)
    else (s, []).

(** [processUpdate()] *)
Definition processUpdate (now nowEffect : Z) (s : Session) : Session * list SessionEvent :=
  match Minecraft.minecraftData (minecraft s) with
  | None => (s, [])
  | Some minecraftData =>
      if String.eqb (Minecraft.currentGamertag (minecraft s)) "" then (s, [])
      else
        let playersList := playersOf minecraftData in
        (* lines 1027-1038 *)
        let oldMaxDistance :=
          DistanceCalculator.maxDistance (Minecraft.distanceCalculator (minecraft s)) in
        let '(s, t1) :=
          match newMaxDistanceOf minecraftData with
          | Some newMaxDistance =>
              if Req_dec_T oldMaxDistance newMaxDistance then (s, [])
              else
                (setMinecraft s
                   (setDistanceCalculator (minecraft s)
                      (DistanceCalculator.new newMaxDistance)),
                 [SessionConsoleLog (LogMaxDistanceUpdated oldMaxDistance newMaxDistance)])
          | None => (s, [])
          end in
        let wasInGame := Minecraft.isPlayerInGame (minecraft s) in
        match MinecraftIntegration.findPlayer playersList
                (Minecraft.currentGamertag (minecraft s)) with
        | None =>
            let s := setMinecraft s
                       (setMinecraftFlags (minecraft s) false
                          (Minecraft.remoteMuted (minecraft s))
                          (Minecraft.remoteDeafened (minecraft s))) in
            let (s, t2) := handlePlayerNotInGame wasInGame s in
            (s, t1 ++ t2)
        | Some myPlayer =>
            let data := MinecraftIntegration.data myPlayer in
            let t2 := if wasInGame then []
                      else [SessionConsoleLog LogConnectedToMinecraft] in
            (* lines 1056-1067 *)
            let remoteMutedNow := MinecraftIntegration.isMuted data in
            let t3 :=
              if bool_decide (remoteMutedNow ≠ Minecraft.remoteMuted (minecraft s)) then
                [SessionConsoleLog (LogRemoteMuteChanged remoteMutedNow);
                 SessionConsoleLog (LogMinecraftMuteChanged remoteMutedNow);
                 OfConnectionLayer UpdateUI]
              else [] in
            (* lines 1069-1084 *)
            let remoteDeafenedNow := MinecraftIntegration.isDeafened data in
            let t4 :=
              if bool_decide (remoteDeafenedNow ≠ Minecraft.remoteDeafened (minecraft s))
              then
                [SessionConsoleLog (LogRemoteDeafenChanged remoteDeafenedNow);
                 SessionConsoleLog (LogMinecraftDeafenChanged remoteDeafenedNow);
                 OfConnectionLayer UpdateUI]
              else [] in
            let s := setMinecraft s
                       (setMinecraftFlags (minecraft s) true
                          remoteMutedNow remoteDeafenedNow) in
            (* lines 1086-1099 *)
            let '(s, t5) :=
              match MinecraftIntegration.micVolume data with
              | Some micVolume =>
                  if sameVolume (Minecraft.lastMicVolume (minecraft s)) micVolume
                  then (s, [])
                  else
                    let s := setMinecraft s
                               (setLastMicVolume (minecraft s) (Some micVolume)) in
                    let (s, t) := updateVolume micVolume s in
                    (s, t ++ [SessionConsoleLog (LogMicrophoneVolumeUpdated micVolume)])
              | None => (s, [])
              end in
            (* lines 1101-1104 *)
            let s := match MinecraftIntegration.customVolumes data with
                     | Some customVolumes => applyCustomVolumes customVolumes s
                     | None => s
                     end in
            (* lines 1106-1116 *)
            let shouldBeMuted :=
              MicrophoneManager.isMuted (micManager s)
              || Minecraft.remoteMuted (minecraft s) in
            let s := if negb (PushToTalkManager.enabled (pushToTalk s))
                     then micSetEnabled (negb shouldBeMuted) s
                     else s in
            let (s, t6) := applyEnvironmentalEffects now nowEffect myPlayer s in
            (* line 1119 *)
            let s := setRoster s
                       (MinecraftIntegration.participantsManager
                          (MinecraftIntegration.updateParticipantVolumes
                             (integration s) myPlayer playersList)) in
            (s, t1 ++ t2 ++ t3 ++ t4 ++ t5 ++ t6)
        end
  end.

(** [updateData(data)] *)
Definition updateData (data : MinecraftData) (now nowEffect : Z) (s : Session)
    : Session * list SessionEvent :=
  processUpdate now nowEffect
    (setMinecraft s (setMinecraftData (minecraft s) (Some data))).

End SessionMethods.

(** ** VoiceChatApp.exitCall (script.js 1934-1958) *)

(** [ws.close()] on the socket: CLOSED stays, every other state becomes
    CLOSING. *)
Definition closeSocket (w : WebSocket) : WebSocket :=
  {| readyState := match readyState w with 3 => 3 | _ => 2 end |}.

(** [this.ws] and [webrtc.ws] are one socket (lines 1707-1708), so the
    socket that [exitCall] closes is the one that the connection layer keeps
    after [this.ws = null]. *)
Definition exitCall (s : Session) : Session * list SessionEvent :=
  let a := app s in
  let t1 := if wsIsOpen (ws a)
            then [OfConnectionLayer (WsSend (Leave (currentGamertag a)))] else [] in
  let r := closeAllConnections a in
  let a := final r in
  let t2 := OfConnectionLayer <$> trace r in
  let '(a, t3) :=
    match ws a with
    | Some w =>
        ({| currentGamertag := currentGamertag a;
            ws := None;
            participantsManager := participantsManager a;
            audioEffects := audioEffects a;
            webrtc := WebRTCManager.setWebSocket (webrtc a)
                        (closeSocket <$> WebRTCManager.ws (webrtc a));
            nextHandle := nextHandle a |},
         [WsClose])
    | None => (a, [])
    end in
  let s := setApp s a in
  let (s, t4) := micStop s in
  let s := setRoster s (ParticipantsManager.clear (participantsManager (app s))) in
  let t5 := (ParticipantCleanup ∘ Participant.cleanup)
              <$> (map_to_list (ParticipantsManager.participants (participantsManager a))).*2 in
  let '(s, t6) :=
    match heartbeatInterval s with
    | Some interval => (setHeartbeatInterval s None, [ClearInterval interval])
    | None => (s, [])
    end in
  (s, t1 ++ t2 ++ t3 ++ t4 ++ (OfConnectionLayer <$> t5) ++ t6
      ++ [ShowCallControls false; UpdateRoomInfo ""; OfConnectionLayer UpdateUI]).

(** ** What the properties of the session speak of *)

(** A sender of a link of the session carries the audio track [t]. *)
Definition sendsAudioTrack (s : Session) (t : Track) : Prop :=
  ∃ gamertag pc sender,
    peers (app s) !! gamertag = Some pc ∧ sender ∈ senders pc ∧
    track sender = Some t ∧ kind t = Audio.

(** Push-to-talk and the senders agree: while it is on, the user talks
    exactly while the key is held, and the audio track of every sender is
    enabled exactly when the user talks. *)
Definition pttConsistent (s : Session) : Prop :=
  (PushToTalkManager.enabled (pushToTalk s) = true →
   PushToTalkManager.isTalking (pushToTalk s)
   = PushToTalkManager.isKeyPressed (pushToTalk s)) ∧
  (∀ t, sendsAudioTrack s t →
        trackEnabled s t = PushToTalkManager.isTalking (pushToTalk s)).

(** The sender carries the audio track [t]. *)
Definition carriesAudio (t : Track) (sender : RTCRtpSender) : bool :=
  bool_decide (track sender = Some t ∧ kind t = Audio).

(** The calculator after lines 1027-1038: the snapshot's [maxDistance] where
    it has one that is not 0. *)
Definition calculatorAfter (data : MinecraftData) (dc : DistanceCalculator.t)
    : DistanceCalculator.t :=
  match newMaxDistanceOf data with
  | Some newMaxDistance => DistanceCalculator.new newMaxDistance
  | None => dc
  end.


(** The session has no socket, and the socket that the connection layer
    holds is not open. *)
Definition offline (a : App) : Prop :=
  ws a = None ∧ wsIsOpen (WebRTCManager.ws (webrtc a)) = false.

(** From an offline session the method sends nothing and leaves the session
    offline. *)
Definition quiet {A} (m : M A) : Prop :=
  ∀ a, offline a → offline (final (m a)) ∧ ∀ msg, WsSend msg ∉ trace (m a).

(** The entries one after the other. *)
Definition dispatchAll `{Platform} (entries : list Entry) : M unit :=
  forEach entries dispatch.

(** ** A session to run the methods on *)
Module SessionExamples.

(** Alex, under water. *)
Definition diver : MinecraftIntegration.Player :=
  {| MinecraftIntegration.name := "Alex";
     MinecraftIntegration.location := MinecraftIntegration.location Examples.alexPlayer;
     MinecraftIntegration.data :=
       {| MinecraftIntegration.isMuted := false; MinecraftIntegration.isDeafened := false;
          MinecraftIntegration.micVolume := None;
          MinecraftIntegration.isUnderWater := true; MinecraftIntegration.isInCave := false;
          MinecraftIntegration.isInMountain := false; MinecraftIntegration.isBuried := false;
          MinecraftIntegration.customVolumes := None |} |}.

Definition snapshot : MinecraftData := PlayersArray [diver; Examples.stevePlayer].

Definition roster : ParticipantsManager.t :=
  {| ParticipantsManager.participants := {[ "Steve" := Examples.steve ]};
     ParticipantsManager.pendingNodes := ∅ |}.

(** The track that the link to Steve sends. *)
Definition sentTrack : Track := {| kind := Audio; ofStream := 1 |}.

(** Alex in a call with Steve: the socket is open, the microphone is stream 2
    with source node 3, the heartbeat is interval 4, push-to-talk is on with
    the key up and has disabled the sent track, and the last snapshot has
    Alex under water. *)
Definition session : Session :=
  {| app := setNextHandle (setParticipantsManager Examples.appWithAudio roster) 5;
     micManager := {| MicrophoneManager.mediaStream := Some 2;
                      MicrophoneManager.mediaStreamSource := Some 3;
                      MicrophoneManager.isMuted := false |};
     pushToTalk := {| PushToTalkManager.enabled := true;
                      PushToTalkManager.key := "KeyV";
                      PushToTalkManager.keyDisplay := "V";
                      PushToTalkManager.isKeyPressed := false;
                      PushToTalkManager.isTalking := false |};
     minecraft := {| Minecraft.distanceCalculator := DistanceCalculator.new 20;
                     Minecraft.minecraftData := Some snapshot;
                     Minecraft.currentGamertag := "Alex";
                     Minecraft.isPlayerInGame := true;
                     Minecraft.remoteMuted := false;
                     Minecraft.remoteDeafened := false;
                     Minecraft.lastMicVolume := None;
                     Minecraft.lastEffectChange := 0 |};
     inputGain := 1;
     trackEnabled := λ t, negb (bool_decide (t = sentTrack));
     heartbeatInterval := Some 4 |}.

(** The same session without push-to-talk. *)
Definition openMicSession : Session := setPushToTalk session PushToTalkManager.new.

End SessionExamples.

(** * Properties *)

(** ** DistanceCalculator *)

Section DistanceCalculatorFacts.

Import DistanceCalculator.
Open Scope R_scope.

Lemma volumeFromDistance_far (this : t) (d : R) :
  maxDistance this < d → volumeFromDistance this d = 0.
Proof.
  intros Hfar. unfold volumeFromDistance.
  destruct (Rgt_dec d (maxDistance this)) as [_ | Hle]; [reflexivity | lra].
Qed.

Lemma volumeFromDistance_near (this : t) (d : R) :
  d <= maxDistance this →
  volumeFromDistance this d = (1 - d / maxDistance this) ^ 2.
Proof.
  intros Hnear. unfold volumeFromDistance.
  destruct (Rgt_dec d (maxDistance this)) as [Hgt | _]; [lra | reflexivity].
Qed.

Lemma ratio_bounds (M d : R) : 0 < M → 0 <= d → d <= M → 0 <= 1 - d / M <= 1.
Proof.
  intros HM Hd HdM.
  assert (0 <= d / M) by (apply Rmult_le_pos; [lra | left; now apply Rinv_0_lt_compat]).
  assert (d / M <= 1).
  { apply (Rmult_le_reg_r M); [lra |]. unfold Rdiv.
    rewrite Rmult_assoc, Rinv_l by lra. lra. }
  lra.
Qed.

Lemma ratio_strict (M d1 d2 : R) : 0 < M → d1 < d2 → d1 / M < d2 / M.
Proof.
  intros HM H12. apply Rmult_lt_compat_r; [now apply Rinv_0_lt_compat | lra].
Qed.

Lemma volumeFromDistance_nonneg (this : t) (d : R) : 0 <= volumeFromDistance this d.
Proof.
  unfold volumeFromDistance. destruct (Rgt_dec d (maxDistance this)); [lra |].
  apply pow2_ge_0.
Qed.

(** C1. With [maxDistance] M > 0 and a distance d >= 0, [volumeFromDistance]
    is 0 when d >= M and ((M - d) / M)^2 otherwise; for M = 20 it is 0.25 at
    d = 10, 0.5625 at d = 5 and 1 at d = 0. *)
Theorem volumeFromDistance_formula :
  (∀ (this : t) (d : R),
      0 <= d → 0 < maxDistance this →
      (maxDistance this <= d → volumeFromDistance this d = 0) ∧
      (d < maxDistance this →
       volumeFromDistance this d = ((maxDistance this - d) / maxDistance this) ^ 2)) ∧
  volumeFromDistance (new 20) 10 = 0.25 ∧
  volumeFromDistance (new 20) 5 = 0.5625 ∧
  volumeFromDistance (new 20) 0 = 1.
Proof.
  assert (Hgen : ∀ (this : t) (d : R),
      0 <= d → 0 < maxDistance this →
      (maxDistance this <= d → volumeFromDistance this d = 0) ∧
      (d < maxDistance this →
       volumeFromDistance this d = ((maxDistance this - d) / maxDistance this) ^ 2)).
  { intros this d Hd HM. split.
    - intros [Hlt | Heq].
      + now apply volumeFromDistance_far.
      + rewrite volumeFromDistance_near by lra. rewrite <- Heq.
        unfold Rdiv. rewrite Rinv_r by lra. simpl. lra.
    - intros Hlt. rewrite volumeFromDistance_near by lra.
      f_equal. field. lra. }
  split; [exact Hgen |].
  repeat split.
  - rewrite (proj2 (Hgen (new 20) 10 ltac:(lra) ltac:(simpl; lra))) by (simpl; lra).
    simpl. lra.
  - rewrite (proj2 (Hgen (new 20) 5 ltac:(lra) ltac:(simpl; lra))) by (simpl; lra).
    simpl. lra.
  - rewrite (proj2 (Hgen (new 20) 0 ltac:(lra) ltac:(simpl; lra))) by (simpl; lra).
    simpl. lra.
Qed.

Lemma volumeFromDistance_formula_witness :
  0 <= 5 ∧ 0 < maxDistance (new 20) ∧
  volumeFromDistance (new 20) 25 = 0 ∧
  volumeFromDistance (new 20) 5 = ((20 - 5) / 20) ^ 2.
Proof.
  split; [lra | split; [simpl; lra | split]].
  - apply (proj1 volumeFromDistance_formula (new 20) 25); simpl; lra.
  - apply (proj1 volumeFromDistance_formula (new 20) 5); simpl; lra.
Defined.

(** C2, as the code has it. With [maxDistance] M > 0, [volumeFromDistance]
    does not increase with the distance over d >= 0. *)
Theorem volumeFromDistance_monotone (this : t) (d1 d2 : R) :
  0 < maxDistance this → 0 <= d1 → d1 <= d2 →
  volumeFromDistance this d2 <= volumeFromDistance this d1.
Proof.
  intros HM Hd1 H12.
  destruct (Rle_lt_dec d2 (maxDistance this)) as [Hin | Hout].
  - rewrite !volumeFromDistance_near by lra.
    pose proof (ratio_bounds (maxDistance this) d2 HM ltac:(lra) Hin) as [Hlo2 _].
    assert (d1 / maxDistance this <= d2 / maxDistance this).
    { destruct H12 as [Hlt | ->]; [left; now apply ratio_strict | right; reflexivity]. }
    apply pow_incr. lra.
  - rewrite (volumeFromDistance_far this d2 Hout).
    apply volumeFromDistance_nonneg.
Qed.

Lemma volumeFromDistance_monotone_witness :
  volumeFromDistance (new 20) 10 <= volumeFromDistance (new 20) 5.
Proof. apply (volumeFromDistance_monotone (new 20) 5 10); simpl; lra. Defined.

Lemma volumeFromDistanceRounded_exact (this : t) (d : R) :
  volumeFromDistanceRounded (λ x, x) (λ x, x ^ 2) (maxDistance this) d
  = volumeFromDistance this d.
Proof. reflexivity. Qed.

(** The volume does not increase with the distance under any rounding that
    keeps the order and is exact at 0 and 1, as rounding to the nearest
    double is, and any [pow2] that keeps the order from 0 on. *)
Lemma volumeFromDistanceRounded_monotone (rnd pow2 : R → R) (M d1 d2 : R) :
  (∀ x y, x <= y → rnd x <= rnd y) → rnd 0 = 0 → rnd 1 = 1 →
  (∀ x y, 0 <= x → x <= y → pow2 x <= pow2 y) → 0 <= pow2 0 →
  0 < M → 0 <= d1 → d1 <= d2 →
  volumeFromDistanceRounded rnd pow2 M d2 <= volumeFromDistanceRounded rnd pow2 M d1.
Proof.
  intros Hrnd Hrnd0 Hrnd1 Hpow Hpow0 HM Hd1 H12.
  assert (Hbase : ∀ d, d <= M → 0 <= rnd (1 - rnd (d / M))).
  { intros d Hd. rewrite <- Hrnd0. apply Hrnd.
    assert (d / M <= 1).
    { apply (Rmult_le_reg_r M); [lra |]. unfold Rdiv.
      rewrite Rmult_assoc, Rinv_l by lra. lra. }
    pose proof (Hrnd (d / M) 1 ltac:(lra)) as Hq. rewrite Hrnd1 in Hq. lra. }
  unfold volumeFromDistanceRounded.
  destruct (Rgt_dec d2 M) as [Hout2 | Hin2].
  - destruct (Rgt_dec d1 M) as [Hout1 | Hin1]; [lra |].
    apply Rle_trans with (pow2 0); [exact Hpow0 |].
    apply Hpow; [lra | apply Hbase; lra].
  - destruct (Rgt_dec d1 M) as [Hout1 | Hin1]; [lra |].
    apply Hpow; [apply Hbase; lra |].
    apply Hrnd.
    assert (Hq : d1 / M <= d2 / M).
    { apply Rmult_le_compat_r; [left; now apply Rinv_0_lt_compat | exact H12]. }
    pose proof (Hrnd _ _ Hq). lra.
Qed.

Close Scope R_scope.

End DistanceCalculatorFacts.

Section DistanceCalculatorOnDoubles.

Import PrimFloat.
Local Open Scope float_scope.
Set Warnings "-inexact-float".

(** The decrease is not strict on the numbers of the code. With
    [maxDistance] 20 the distances 0 and 1e-15 lie in the range, the second
    above the first, and both give the volume 1: [1e-15 / 20] is [5e-17],
    less than half the gap between 1 and the double below it, so
    [1 - 5e-17] is rounded to 1. *)
Lemma volumeFromDistance_not_strict :
  let maxDistance := 20 in
  let d1 := 0 in
  let d2 := 1e-15 in
  (0 <? maxDistance) = true ∧
  (0 <=? d1) = true ∧ (d1 <? d2) = true ∧ (d2 <? maxDistance) = true ∧
  DistanceCalculator64.volumeFromDistance maxDistance d1 = 1 ∧
  DistanceCalculator64.volumeFromDistance maxDistance d2 = 1 ∧
  (DistanceCalculator64.volumeFromDistance maxDistance d2
   <? DistanceCalculator64.volumeFromDistance maxDistance d1) = false.
Proof. cbv zeta. repeat split; reflexivity. Qed.

End DistanceCalculatorOnDoubles.

(** ** The volume update *)

Section VolumeUpdateFacts.

Import MinecraftIntegration.

Lemma updateParticipantVolumes_lookup (this : t) (myPlayer : Player)
    (playersList : list Player) (gamertag : string) :
  ParticipantsManager.participants
    (participantsManager (updateParticipantVolumes this myPlayer playersList))
    !! gamertag
  = (λ participant,
       updateParticipantVolume this myPlayer playersList participant gamertag)
    <$> ParticipantsManager.participants (participantsManager this) !! gamertag.
Proof.
  unfold updateParticipantVolumes, ParticipantsManager.forEach. simpl.
  rewrite map_lookup_imap.
  destruct (ParticipantsManager.participants (participantsManager this) !! gamertag);
    reflexivity.
Qed.

(** C3. For a participant that is not the local player and whose gamertag is
    found in the snapshot, the volume update goes by precedence: a muted
    player gets [updateDistance(0)] and [updateVolume(0)]; otherwise a
    deafened listener gives [updateVolume(0)] and leaves the distance;
    otherwise the distance becomes the 3D distance between the two players,
    the square root of the sum of the squared coordinate differences, and
    [updateVolume] receives the volume of that distance under the
    calculator's current [maxDistance], 0 beyond it and
    [(1 - distance / maxDistance)^2] up to it (the stored volume is that
    value times the participant's [customVolume]). *)
Theorem updateParticipantVolumes_precedence (this : t) (myPlayer otherPlayer : Player)
    (playersList : list Player) (gamertag : string) (participant : Participant.t) :
  ParticipantsManager.participants (participantsManager this) !! gamertag
    = Some participant →
  Participant.isSelf participant = false →
  findPlayer playersList gamertag = Some otherPlayer →
  let d := DistanceCalculator.calculate (location myPlayer) (location otherPlayer) in
  let v := DistanceCalculator.volumeFromDistance (distanceCalculator this) d in
  let dx := (DistanceCalculator.x (location myPlayer)
             - DistanceCalculator.x (location otherPlayer))%R in
  let dy := (DistanceCalculator.y (location myPlayer)
             - DistanceCalculator.y (location otherPlayer))%R in
  let dz := (DistanceCalculator.z (location myPlayer)
             - DistanceCalculator.z (location otherPlayer))%R in
  let distance3D := sqrt (dx * dx + dy * dy + dz * dz) in
  let maxDistance := DistanceCalculator.maxDistance (distanceCalculator this) in
  ∃ participant',
    ParticipantsManager.participants
      (participantsManager (updateParticipantVolumes this myPlayer playersList))
      !! gamertag = Some participant' ∧
    (isMuted (data otherPlayer) = true →
       participant'
         = Participant.updateVolume (Participant.updateDistance participant 0%R) 0%R ∧
       Participant.volume participant' = 0%R ∧
       Participant.distance participant' = 0%R) ∧
    (isMuted (data otherPlayer) = false → remoteDeafened this = true →
       participant' = Participant.updateVolume participant 0%R ∧
       Participant.volume participant' = 0%R ∧
       Participant.distance participant' = Participant.distance participant) ∧
    (isMuted (data otherPlayer) = false → remoteDeafened this = false →
       participant'
         = Participant.updateVolume (Participant.updateDistance participant d) v ∧
       Participant.distance participant' = distance3D ∧
       (maxDistance < distance3D → Participant.volume participant' = 0)%R ∧
       (distance3D <= maxDistance →
        Participant.volume participant'
        = (1 - distance3D / maxDistance) ^ 2 * Participant.customVolume participant)%R).
Proof.
  intros Hget Hself Hfind d v dx dy dz distance3D maxDistance.
  exists (updateParticipantVolume this myPlayer playersList participant gamertag).
  split.
  - rewrite updateParticipantVolumes_lookup, Hget. reflexivity.
  - unfold updateParticipantVolume. rewrite Hself, Hfind.
    split; [| split].
    + intros Hm. rewrite Hm. simpl. repeat split; lra.
    + intros Hm Hd. rewrite Hm, Hd. simpl. repeat split; lra.
    + intros Hm Hd. rewrite Hm, Hd. cbv zeta. fold d. fold v.
      assert (Hd3 : d = distance3D) by reflexivity.
      split; [reflexivity |]. split; [exact Hd3 |]. split.
      * intros Hfar. simpl. subst v. rewrite Hd3.
        unfold DistanceCalculator.volumeFromDistance. fold maxDistance.
        destruct (Rgt_dec distance3D maxDistance) as [_ | Hno]; [lra | exfalso; lra].
      * intros Hnear. simpl. subst v. rewrite Hd3.
        unfold DistanceCalculator.volumeFromDistance. fold maxDistance.
        destruct (Rgt_dec distance3D maxDistance) as [Hgt | _]; [exfalso; lra | reflexivity].
Qed.

End VolumeUpdateFacts.

Lemma updateParticipantVolumes_precedence_witness :
  ∃ participant',
    ParticipantsManager.participants
      (MinecraftIntegration.participantsManager
         (MinecraftIntegration.updateParticipantVolumes Examples.minecraft
            Examples.alexPlayer [Examples.alexPlayer; Examples.stevePlayer]))
      !! "Steve" = Some participant' ∧
    Participant.distance participant' = 5%R ∧
    Participant.volume participant' = (9 / 32)%R.
Proof.
  destruct (updateParticipantVolumes_precedence Examples.minecraft
              Examples.alexPlayer Examples.stevePlayer
              [Examples.alexPlayer; Examples.stevePlayer] "Steve" Examples.steve)
    as (participant' & Hlookup & _ & _ & Hthird).
  - apply lookup_singleton_eq.
  - reflexivity.
  - reflexivity.
  - destruct (Hthird eq_refl eq_refl) as (_ & Hdistance & _ & Hvolume).
    simpl in Hdistance, Hvolume.
    assert (Hfive : sqrt ((0 - 3) * (0 - 3) + (64 - 64) * (64 - 64) + (0 - 4) * (0 - 4))
                    = 5%R).
    { replace ((0 - 3) * (0 - 3) + (64 - 64) * (64 - 64) + (0 - 4) * (0 - 4))%R
        with (5 * 5)%R by lra.
      apply sqrt_square. lra. }
    rewrite Hfive in Hdistance, Hvolume.
    exists participant'. split; [exact Hlookup |]. split; [exact Hdistance |].
    rewrite Hvolume by lra. lra.
Defined.

(** ** ParticipantsManager *)

Section ParticipantsManagerFacts.

Import ParticipantsManager.

Lemma has_true (this : t) (gamertag : string) :
  has this gamertag = true ↔ is_Some (participants this !! gamertag).
Proof. unfold has. apply bool_decide_eq_true. Qed.

Lemma has_false (this : t) (gamertag : string) :
  has this gamertag = false ↔ participants this !! gamertag = None.
Proof.
  unfold has. rewrite bool_decide_eq_false. symmetry. apply eq_None_not_Some.
Qed.

Lemma add_present (this : t) (gamertag : string) (isSelf : bool) :
  is_Some (participants this !! gamertag) → add this gamertag isSelf = this.
Proof.
  intros Hin. unfold add. apply has_true in Hin. rewrite Hin. reflexivity.
Qed.

(** [add] on a gamertag that is absent and has a pending entry. *)
Lemma add_pending (this : t) (gamertag : string) (isSelf : bool) (nodeData : NodeData) :
  participants this !! gamertag = None →
  pendingNodes this !! gamertag = Some nodeData →
  add this gamertag isSelf
  = {| participants :=
         <[gamertag := Participant.setAudioNodes (Participant.new gamertag isSelf)
                         (gainNode nodeData) (audioElement nodeData) (source nodeData)]>
           (participants this);
       pendingNodes := delete gamertag (pendingNodes this) |}.
Proof.
  intros Habsent Hpending. unfold add.
  apply has_false in Habsent. rewrite Habsent, Hpending. reflexivity.
Qed.

Lemma add_pendingNodes_other (this : t) (gamertag k : string) (isSelf : bool) :
  k ≠ gamertag →
  pendingNodes (add this gamertag isSelf) !! k = pendingNodes this !! k.
Proof.
  intros Hne. unfold add.
  destruct (has this gamertag); [reflexivity |].
  destruct (pendingNodes this !! gamertag); simpl; [| reflexivity].
  now rewrite lookup_delete_ne.
Qed.

(** C4. A resource stored by [addPendingNode] for a gamertag that has no
    participant yet is, after [add] of that gamertag, the resource of the
    participant that [add] creates, and the pending entry is gone; [add] on a
    gamertag that is present changes nothing. *)
Theorem add_attaches_pending :
  (∀ (this : t) (gamertag : string) (nodeData : NodeData) (isSelf : bool),
      participants this !! gamertag = None →
      let stored := addPendingNode this gamertag nodeData in
      let after := add stored gamertag isSelf in
      pendingNodes stored !! gamertag = Some nodeData ∧
      (∃ participant,
          get after gamertag = Some participant ∧
          Participant.gainNode participant = gainNode nodeData ∧
          Participant.audioElement participant = audioElement nodeData ∧
          Participant.source participant = source nodeData) ∧
      pendingNodes after !! gamertag = None) ∧
  (∀ (this : t) (gamertag : string) (isSelf : bool),
      is_Some (participants this !! gamertag) → add this gamertag isSelf = this).
Proof.
  split; [| exact add_present].
  intros this gamertag nodeData isSelf Habsent stored after.
  assert (Hstored : pendingNodes stored !! gamertag = Some nodeData)
    by apply lookup_insert_eq.
  split; [exact Hstored |].
  subst after. rewrite (add_pending stored gamertag isSelf nodeData Habsent Hstored).
  unfold get. simpl. split.
  - eexists. split; [apply lookup_insert_eq |]. simpl. auto.
  - apply lookup_delete_eq.
Qed.

Lemma add_attaches_pending_witness :
  participants new !! "Steve" = None ∧
  ∃ participant,
    get (add (addPendingNode new "Steve" Examples.steveNodes) "Steve" false) "Steve"
      = Some participant ∧
    Participant.audioElement participant = Some 7.
Proof.
  assert (Habsent : participants new !! "Steve" = None) by apply lookup_empty.
  split; [exact Habsent |].
  destruct (proj1 add_attaches_pending new "Steve" Examples.steveNodes false Habsent)
    as (_ & (participant & Hget & _ & Helement & _) & _).
  exists participant. split; [exact Hget | exact Helement].
Defined.

Lemma remove_absent (this : t) (gamertag : string) :
  participants (remove this gamertag) !! gamertag = None.
Proof.
  unfold remove.
  destruct (participants this !! gamertag) eqn:Hget; simpl;
    [apply lookup_delete_eq | exact Hget].
Qed.

Lemma remove_pendingNodes (this : t) (gamertag : string) :
  pendingNodes (remove this gamertag) = pendingNodes this.
Proof. unfold remove. destruct (participants this !! gamertag); reflexivity. Qed.

End ParticipantsManagerFacts.

(** ** Running a method *)

Ltac run_M :=
  unfold mbind, M_bind, mret, M_ret, get, put, modify, emit, skip, throw, tryCatch;
  simpl.

(** An event that is in a trace written out in full. *)
Ltac find_event :=
  repeat first [apply list_elem_of_here | apply list_elem_of_further].

Lemma elem_of_option_list {A} (mx : option A) (x : A) :
  x ∈ option_list mx ↔ mx = Some x.
Proof.
  destruct mx as [y |]; simpl.
  - rewrite list_elem_of_singleton. split; congruence.
  - split; [intros Hin; inversion Hin | discriminate].
Qed.

(** C10. [remove] releases the browser objects of the participant that is
    there ([participant.cleanup()]: its source, gain node and audio element,
    those that are set), deletes the participant entry and leaves
    [pendingNodes] as it is, so a pending resource under the removed gamertag
    is still there and a later [add] attaches it; of the methods of the
    manager only [add] of that gamertag and [clear] take a pending entry
    away. *)
Theorem remove_keeps_pending :
  (∀ (s : App) (gamertag : string),
      let this := participantsManager s in
      participantsManagerRemove gamertag s
      = (Return tt,
         setParticipantsManager s (ParticipantsManager.remove this gamertag),
         match ParticipantsManager.participants this !! gamertag with
         | Some participant => [ParticipantCleanup (Participant.cleanup participant)]
         | None => []
         end) ∧
      ParticipantsManager.participants (ParticipantsManager.remove this gamertag)
      = delete gamertag (ParticipantsManager.participants this) ∧
      ParticipantsManager.pendingNodes (ParticipantsManager.remove this gamertag)
      = ParticipantsManager.pendingNodes this) ∧
  (∀ (participant : Participant.t) (released : Handle),
      released ∈ Participant.cleanup participant
      ↔ Participant.source participant = Some released
        ∨ Participant.gainNode participant = Some released
        ∨ Participant.audioElement participant = Some released) ∧
  (∀ (this : ParticipantsManager.t) (gamertag : string)
     (nodeData : ParticipantsManager.NodeData) (isSelf : bool),
      ParticipantsManager.pendingNodes this !! gamertag = Some nodeData →
      let removed := ParticipantsManager.remove this gamertag in
      let after := ParticipantsManager.add removed gamertag isSelf in
      ParticipantsManager.pendingNodes removed !! gamertag = Some nodeData ∧
      (∃ participant,
          ParticipantsManager.get after gamertag = Some participant ∧
          Participant.gainNode participant = ParticipantsManager.gainNode nodeData ∧
          Participant.audioElement participant = ParticipantsManager.audioElement nodeData ∧
          Participant.source participant = ParticipantsManager.source nodeData) ∧
      ParticipantsManager.pendingNodes after !! gamertag = None) ∧
  (∀ (this : ParticipantsManager.t) (op : ParticipantsManager.Op) (k : string)
     (nodeData : ParticipantsManager.NodeData),
      ParticipantsManager.pendingNodes this !! k = Some nodeData →
      ParticipantsManager.pendingNodes (ParticipantsManager.run this op) !! k = None →
      op = ParticipantsManager.OpClear ∨ ∃ isSelf, op = ParticipantsManager.OpAdd k isSelf).
Proof.
  split; [| split; [| split]].
  - intros s gamertag this. split; [| split; [| apply remove_pendingNodes]].
    + unfold participantsManagerRemove, ParticipantsManager.get. run_M. fold this.
      destruct (ParticipantsManager.participants this !! gamertag); reflexivity.
    + unfold ParticipantsManager.remove.
      destruct (ParticipantsManager.participants this !! gamertag) eqn:Hget; simpl;
        [reflexivity | symmetry; now apply delete_id].
  - intros participant released. unfold Participant.cleanup.
    rewrite !elem_of_app, !elem_of_option_list. reflexivity.
  - intros this gamertag nodeData isSelf Hpending removed after.
    assert (Hkept : ParticipantsManager.pendingNodes removed !! gamertag = Some nodeData).
    { subst removed. now rewrite remove_pendingNodes. }
    split; [exact Hkept |].
    subst after.
    rewrite (add_pending removed gamertag isSelf nodeData
               (remove_absent this gamertag) Hkept).
    unfold ParticipantsManager.get. simpl. split.
    + eexists. split; [apply lookup_insert_eq |]. simpl. auto.
    + apply lookup_delete_eq.
  - intros this op k nodeData Hpending Hgone.
    destruct op as [gamertag isSelf | gamertag | | gamertag nodeData' | callback];
      simpl in Hgone.
    + right. exists isSelf. f_equal.
      destruct (decide (k = gamertag)) as [-> | Hne]; [reflexivity |].
      rewrite (add_pendingNodes_other this gamertag k isSelf Hne) in Hgone.
      congruence.
    + rewrite remove_pendingNodes in Hgone. congruence.
    + now left.
    + unfold ParticipantsManager.addPendingNode in Hgone. simpl in Hgone.
      destruct (decide (gamertag = k)) as [-> | Hne].
      * rewrite lookup_insert_eq in Hgone. discriminate.
      * rewrite lookup_insert_ne in Hgone by exact Hne. congruence.
    + congruence.
Qed.

Lemma remove_keeps_pending_witness :
  let later := {| ParticipantsManager.gainNode := None;
                  ParticipantsManager.audioElement := Some 8;
                  ParticipantsManager.source := None |} in
  let this :=
    ParticipantsManager.addPendingNode
      (ParticipantsManager.add
         (ParticipantsManager.addPendingNode ParticipantsManager.new "Steve"
            Examples.steveNodes)
         "Steve" false)
      "Steve" later in
  let s := setParticipantsManager Examples.app this in
  trace (participantsManagerRemove "Steve" s) = [ParticipantCleanup [7]] ∧
  ParticipantsManager.pendingNodes
    (participantsManager (final (participantsManagerRemove "Steve" s))) !! "Steve"
  = Some later ∧
  ParticipantsManager.pendingNodes
    (ParticipantsManager.add (ParticipantsManager.remove this "Steve") "Steve" false)
    !! "Steve" = None.
Proof.
  intros later this s.
  destruct remove_keeps_pending as (Hremove & _ & Hlater & _).
  destruct (Hremove s "Steve") as (Hrun & _ & Hpending).
  assert (Hthere : ParticipantsManager.pendingNodes this !! "Steve" = Some later)
    by apply lookup_insert_eq.
  destruct (Hlater this "Steve" later false Hthere) as (Hkept & _ & Hgone).
  rewrite Hrun. unfold trace, final. simpl.
  split; [reflexivity |]. split; [exact Hkept | exact Hgone].
Defined.

Lemma forEach_emit {A} (f : A → Event) (xs : list A) (s : App) :
  forEach xs (λ x, emit (f x)) s = (Return tt, s, f <$> xs).
Proof.
  induction xs as [| x xs IH]; [reflexivity |].
  simpl. unfold mbind, M_bind, emit at 1. rewrite IH. reflexivity.
Qed.

(** What [setPeers] leaves alone, by computation. *)
Ltac norm_app :=
  repeat match goal with
  | |- context [peers (setPeers ?s ?m)] =>
      change (peers (setPeers s m)) with m
  | |- context [setPeers (setPeers ?s ?m1) ?m2] =>
      change (setPeers (setPeers s m1) m2) with (setPeers s m2)
  | |- context [initialPeerConnection (setPeers ?s ?m)] =>
      change (initialPeerConnection (setPeers s m)) with (initialPeerConnection s)
  | |- context [localTracks (setPeers ?s ?m)] =>
      change (localTracks (setPeers s m)) with (localTracks s)
  | |- context [webrtc (setPeers ?s ?m)] =>
      change (WebRTCManager.ws (webrtc (setPeers s m)))
        with (WebRTCManager.ws (webrtc s))
  | |- context [webrtc (setPeers ?s ?m)] =>
      change (WebRTCManager.currentGamertag (webrtc (setPeers s m)))
        with (WebRTCManager.currentGamertag (webrtc s))
  end.

(** ** WebRTCManager *)

Lemma createPeerConnection_existing (s : App) (remote : string) (pc : RTCPeerConnection) :
  peers s !! remote = Some pc →
  createPeerConnection remote s
  = (Return pc, s, [ConsoleLog (LogAlreadyExists remote)]).
Proof.
  intros Hpc. unfold createPeerConnection. run_M. rewrite Hpc. reflexivity.
Qed.

Lemma createPeerConnection_fresh (s : App) (remote : string) :
  peers s !! remote = None →
  createPeerConnection remote s
  = (Return (initialPeerConnection s),
     setPeers s (<[remote := initialPeerConnection s]> (peers s)),
     NewRTCPeerConnection remote :: (PcAddTrack remote <$> localTracks s)
       ++ [ConsoleLog (LogConnecting remote)]).
Proof.
  intros Hpc. unfold createPeerConnection, storePc.
  unfold mbind, M_bind, get. rewrite Hpc. unfold emit at 1.
  rewrite forEach_emit. reflexivity.
Qed.

(** A link that [createPeerConnection] has just built is in [stable]. *)
Lemma initialPeerConnection_stable (s : App) :
  signalingState (initialPeerConnection s) = Stable.
Proof. reflexivity. Qed.

(** C9. [createPeerConnection] for a gamertag that has a link returns that
    link and creates none; for a gamertag without a link it creates one with
    [_isInitialConnection = true] and [_reconnectAttempts = 0], registers it,
    and a second call returns that same link. *)
Theorem createPeerConnection_idempotent (s : App) (remote : string) :
  (∀ pc, peers s !! remote = Some pc →
     createPeerConnection remote s
       = (Return pc, s, [ConsoleLog (LogAlreadyExists remote)]) ∧
     ∀ r, NewRTCPeerConnection r ∉ trace (createPeerConnection remote s)) ∧
  (peers s !! remote = None →
     ∃ pc s' t,
       createPeerConnection remote s = (Return pc, s', t) ∧
       NewRTCPeerConnection remote ∈ t ∧
       peers s' !! remote = Some pc ∧
       _isInitialConnection pc = true ∧
       _reconnectAttempts pc = 0%Z ∧
       createPeerConnection remote s'
         = (Return pc, s', [ConsoleLog (LogAlreadyExists remote)])).
Proof.
  split.
  - intros pc Hpc. rewrite (createPeerConnection_existing s remote pc Hpc).
    split; [reflexivity |].
    intros r Hin. simpl in Hin. apply list_elem_of_singleton in Hin. discriminate.
  - intros Hnone. rewrite (createPeerConnection_fresh s remote Hnone).
    eexists _, _, _. split; [reflexivity |].
    assert (Hreg : peers (setPeers s (<[remote := initialPeerConnection s]> (peers s)))
                     !! remote = Some (initialPeerConnection s))
      by (simpl; apply lookup_insert_eq).
    repeat split.
    + apply list_elem_of_here.
    + exact Hreg.
    + now apply createPeerConnection_existing.
Qed.

Lemma createPeerConnection_idempotent_witness :
  peers Examples.app !! "Steve" = None ∧
  ∃ pc s',
    outcome (createPeerConnection "Steve" Examples.app) = Return pc ∧
    final (createPeerConnection "Steve" Examples.app) = s' ∧
    _isInitialConnection pc = true ∧
    outcome (createPeerConnection "Steve" s') = Return pc ∧
    final (createPeerConnection "Steve" s') = s'.
Proof.
  assert (Hnone : peers Examples.app !! "Steve" = None) by apply lookup_empty.
  split; [exact Hnone |].
  destruct (proj2 (createPeerConnection_idempotent Examples.app "Steve") Hnone)
    as (pc & s' & t & Hrun & _ & _ & Hflag & _ & Hagain).
  exists pc, s'. rewrite Hrun, Hagain. repeat split. exact Hflag.
Defined.

Section HandlerFacts.

Context `{Platform}.

(** C7. With [_isInitialConnection] set, a negotiation-needed event creates
    no offer and sends nothing. With the flag cleared, an offer is created
    and sent when [signalingState] is [stable]; in any other signaling state
    the event is logged and dropped, and nothing is kept for later. *)
Theorem onnegotiationneeded_guarded (s : App) (remote : string) (pc : RTCPeerConnection) :
  peers s !! remote = Some pc →
  (_isInitialConnection pc = true →
     onnegotiationneeded remote s
       = (Return tt, s, [ConsoleLog (LogSkippingRenegotiation remote)])) ∧
  (_isInitialConnection pc = false → signalingState pc ≠ Stable →
     onnegotiationneeded remote s
       = (Return tt, s,
          [ConsoleLog (LogRenegotiationNeeded remote);
           ConsoleLog (LogSignalingNotStable (signalingState pc))])) ∧
  (_isInitialConnection pc = false → signalingState pc = Stable →
     ∀ offer st,
       createOffer pc = Some offer →
       setLocalDescription pc offer = Some st →
       wsIsOpen (WebRTCManager.ws (webrtc s)) = true →
       onnegotiationneeded remote s
         = (Return tt,
            setPeers s (<[remote := setSignalingState pc st]> (peers s)),
            [ConsoleLog (LogRenegotiationNeeded remote);
             PcCreateOffer remote;
             PcSetLocalDescription remote offer;
             WsSend (Offer offer (WebRTCManager.currentGamertag (webrtc s)) remote);
             ConsoleLog (LogRenegotiationOfferSent remote)])) ∧
  (∀ e, e ∈ trace (onnegotiationneeded remote s) →
        (e = PcCreateOffer remote ∨ ∃ msg, e = WsSend msg) →
        _isInitialConnection pc = false ∧ signalingState pc = Stable).
Proof.
  intros Hpc.
  assert (Hinitial : _isInitialConnection pc = true →
     onnegotiationneeded remote s
       = (Return tt, s, [ConsoleLog (LogSkippingRenegotiation remote)])).
  { intros Hflag. unfold onnegotiationneeded. run_M. rewrite Hpc, Hflag. reflexivity. }
  assert (Hunstable : _isInitialConnection pc = false → signalingState pc ≠ Stable →
     onnegotiationneeded remote s
       = (Return tt, s,
          [ConsoleLog (LogRenegotiationNeeded remote);
           ConsoleLog (LogSignalingNotStable (signalingState pc))])).
  { intros Hflag Hst. unfold onnegotiationneeded. run_M. rewrite Hpc, Hflag.
    rewrite bool_decide_eq_true_2 by exact Hst. reflexivity. }
  assert (Honly : ∀ e, e ∈ trace (onnegotiationneeded remote s) →
        (e = PcCreateOffer remote ∨ ∃ msg, e = WsSend msg) →
        _isInitialConnection pc = false ∧ signalingState pc = Stable).
  { intros e Hin Hkind.
    destruct (_isInitialConnection pc) eqn:Hflag.
    - rewrite (Hinitial eq_refl) in Hin. simpl in Hin.
      apply list_elem_of_singleton in Hin. subst e.
      destruct Hkind as [Heq | [msg Heq]]; discriminate.
    - split; [reflexivity |].
      destruct (decide (signalingState pc = Stable)) as [Hst | Hst]; [exact Hst |].
      rewrite (Hunstable eq_refl Hst) in Hin. simpl in Hin.
      apply elem_of_cons in Hin as [-> | Hin];
        [destruct Hkind as [Heq | [msg Heq]]; discriminate |].
      apply list_elem_of_singleton in Hin. subst e.
      destruct Hkind as [Heq | [msg Heq]]; discriminate. }
  split; [exact Hinitial | split; [exact Hunstable | split; [| exact Honly]]].
  intros Hflag Hst offer st Hoffer Hset Hws.
  unfold onnegotiationneeded. run_M. rewrite Hpc, Hflag, Hst. simpl.
  unfold pcCreateOffer, pcSetLocalDescription, sendOfferIfOpen, thePc, storePc.
  run_M. rewrite Hpc, Hoffer. simpl. rewrite Hpc, Hset. simpl. rewrite Hws.
  reflexivity.
Qed.

End HandlerFacts.

(** ** Reconnection *)

Lemma closePeerConnection_existing (s : App) (gamertag : string) (pc : RTCPeerConnection) :
  peers s !! gamertag = Some pc →
  closePeerConnection gamertag s
  = (Return tt, setPeers s (delete gamertag (peers s)),
     [PcClose gamertag; ConsoleLog (LogConnectionClosed gamertag)]).
Proof.
  intros Hpc. unfold closePeerConnection. run_M. rewrite Hpc. reflexivity.
Qed.

Section ReconnectFacts.

Context `{Platform}.

Lemma attemptReconnect_exhausted (s : App) (remote : string) (pc : RTCPeerConnection) :
  peers s !! remote = Some pc →
  (_reconnectAttempts pc + 1 > 3)%Z →
  attemptReconnect remote s
  = (Return tt, s, [ConsoleLog (LogMaxReconnectionAttempts remote)]).
Proof.
  intros Hpc Hmax. unfold attemptReconnect. run_M. rewrite Hpc.
  assert (Hgt : (_reconnectAttempts pc + 1 >? 3)%Z = true)
    by (rewrite Z.gtb_ltb; apply Z.ltb_lt; lia).
  rewrite Hgt. reflexivity.
Qed.

Lemma attemptReconnect_retry (s : App) (remote : string) (pc : RTCPeerConnection)
    (offer : SessionDescription) (st : SignalingState) :
  let attempts := (_reconnectAttempts pc + 1)%Z in
  let pc' := setReconnectAttempts (initialPeerConnection s) attempts in
  peers s !! remote = Some pc →
  (attempts ≤ 3)%Z →
  createOffer pc' = Some offer →
  setLocalDescription pc' offer = Some st →
  wsIsOpen (WebRTCManager.ws (webrtc s)) = true →
  attemptReconnect remote s
  = (Return tt, setPeers s (<[remote := setSignalingState pc' st]> (peers s)),
     [ConsoleLog (LogReconnectionAttempt remote attempts);
      PcClose remote; ConsoleLog (LogConnectionClosed remote);
      Wait 1000;
      NewRTCPeerConnection remote] ++ (PcAddTrack remote <$> localTracks s) ++
     [ConsoleLog (LogConnecting remote);
      PcCreateOffer remote;
      PcSetLocalDescription remote offer;
      WsSend (Offer offer (WebRTCManager.currentGamertag (webrtc s)) remote)]).
Proof.
  intros attempts pc' Hpc Hle Hoffer Hset Hws.
  unfold attemptReconnect.
  unfold mbind at 1, M_bind at 1, get at 1. rewrite Hpc. fold attempts.
  assert (Hgt : (attempts >? 3)%Z = false)
    by (rewrite Z.gtb_ltb; apply Z.ltb_ge; lia).
  rewrite Hgt.
  unfold mbind at 1, M_bind at 1, emit at 1.
  unfold mbind at 1, M_bind at 1.
  rewrite (closePeerConnection_existing s remote pc Hpc).
  unfold mbind at 1, M_bind at 1, emit at 1.
  unfold tryCatch.
  unfold mbind at 1, M_bind at 1.
  rewrite createPeerConnection_fresh by (simpl; apply lookup_delete_eq).
  unfold storePc, pcCreateOffer, pcSetLocalDescription, sendOfferIfOpen, thePc.
  run_M. norm_app. rewrite !lookup_insert_eq.
  fold pc'. rewrite Hoffer. simpl. norm_app.
  rewrite !lookup_insert_eq, Hset. simpl.
  norm_app. rewrite Hws. simpl.
  rewrite !insert_insert_eq, insert_delete_eq.
  f_equal. rewrite <- !app_assoc. reflexivity.
Qed.

(** What a [failed] connection state event does before [attemptReconnect]
    runs: the link carries the new state, two lines are logged. *)
Lemma onconnectionstatechange_failed (s : App) (remote : string) (pc : RTCPeerConnection) :
  peers s !! remote = Some pc →
  let s0 := setPeers s (<[remote := setConnectionState pc Failed]> (peers s)) in
  onconnectionstatechange remote Failed s
  = (outcome (attemptReconnect remote s0),
     final (attemptReconnect remote s0),
     [ConsoleLog (LogConnectionState remote Failed);
      ConsoleLog (LogConnectionFailed remote)]
     ++ trace (attemptReconnect remote s0)).
Proof.
  intros Hpc s0. unfold onconnectionstatechange, storePc.
  run_M. rewrite Hpc. fold s0.
  destruct (attemptReconnect remote s0) as [[[[] | e] s1] t]; simpl;
    [rewrite app_nil_r |]; reflexivity.
Qed.

End ReconnectFacts.

(** The link whose three attempts are used up is still registered after the
    fourth [failed] event: it is not left absent. *)
Lemma exhausted_reconnect_keeps_link :
  let s := Examples.appWith (Examples.link false 3 Stable) in
  peers s !! "Steve" = Some (Examples.link false 3 Stable) ∧
  (_reconnectAttempts (Examples.link false 3 Stable) + 1 > 3)%Z ∧
  peers (final (@onconnectionstatechange w3cBrowser "Steve" Failed s)) !! "Steve"
    ≠ None.
Proof.
  intros s. split; [apply lookup_singleton_eq | split; [simpl; lia |]].
  vm_compute. discriminate.
Qed.

Lemma onnegotiationneeded_guarded_witness :
  let initial := Examples.appWith (Examples.link true 0 Stable) in
  let settled := Examples.appWith (Examples.link false 0 Stable) in
  (peers initial !! "Steve" = Some (Examples.link true 0 Stable) ∧
   @onnegotiationneeded w3cBrowser "Steve" initial
     = (Return tt, initial, [ConsoleLog (LogSkippingRenegotiation "Steve")])) ∧
  (peers settled !! "Steve" = Some (Examples.link false 0 Stable) ∧
   WsSend (Offer {| sdpType := SdpOffer; sdp := "v=0 offer" |} "Alex" "Steve")
     ∈ trace (@onnegotiationneeded w3cBrowser "Steve" settled)).
Proof.
  intros initial settled.
  assert (Hinitial : peers initial !! "Steve" = Some (Examples.link true 0 Stable))
    by apply lookup_singleton_eq.
  assert (Hsettled : peers settled !! "Steve" = Some (Examples.link false 0 Stable))
    by apply lookup_singleton_eq.
  split; (split; [assumption |]).
  - apply (proj1 (@onnegotiationneeded_guarded w3cBrowser initial "Steve" _ Hinitial)).
    reflexivity.
  - rewrite (proj1 (proj2 (proj2
               (@onnegotiationneeded_guarded w3cBrowser settled "Steve" _ Hsettled)))
               eq_refl eq_refl
               {| sdpType := SdpOffer; sdp := "v=0 offer" |} HaveLocalOffer
               eq_refl eq_refl eq_refl).
    vm_compute. find_event.
Defined.

(** ** Signaling *)

Lemma participantsManagerAdd_run (s : App) (gamertag : string) (isSelf : bool) :
  ∃ t, participantsManagerAdd gamertag isSelf s
       = (Return tt,
          setParticipantsManager s
            (ParticipantsManager.add (participantsManager s) gamertag isSelf), t) ∧
       ∀ e, e ∈ t → e = ConsoleLog (LogAudioNodesAssigned gamertag).
Proof.
  unfold participantsManagerAdd. run_M.
  destruct (negb _ && _); simpl; eexists; (split; [reflexivity |]);
    intros e He; [| inversion He].
  apply list_elem_of_singleton in He. exact He.
Qed.

Section SignalingFacts.

Context `{Platform}.

Lemma handleSignaling_other_recipient (s : App) (data : Message) (to : string) :
  msgTo data = Some to → to ≠ currentGamertag s →
  handleSignaling data s = (Return tt, s, []).
Proof.
  intros Hto Hne.
  destruct data; try discriminate; simpl in Hto; injection Hto as ->;
    unfold handleSignaling; run_M;
    rewrite bool_decide_eq_false_2 by exact Hne; reflexivity.
Qed.

Lemma handleSignaling_own_join (s : App) :
  handleSignaling (Join (currentGamertag s)) s = (Return tt, s, []).
Proof.
  unfold handleSignaling. run_M.
  rewrite bool_decide_eq_false_2 by (intros Hne; now apply Hne). reflexivity.
Qed.

Lemma handleSignaling_offer_refused (s : App) (offer : SessionDescription)
    (from : string) (pc : RTCPeerConnection) :
  peers s !! from = Some pc →
  signalingState pc ≠ Stable → signalingState pc ≠ HaveLocalOffer →
  ∃ t, handleSignaling (Offer offer from (currentGamertag s)) s
       = (Return tt,
          setParticipantsManager s
            (ParticipantsManager.add (participantsManager s) from false),
          ConsoleLog (LogReceivedOffer from)
            :: t ++ [ConsoleLog (LogAlreadyExists from); UpdateUI]) ∧
       ∀ e, e ∈ t → e = ConsoleLog (LogAudioNodesAssigned from).
Proof.
  intros Hpc Hs1 Hs2.
  destruct (participantsManagerAdd_run s from false) as (t & Hadd & Ht).
  exists t. split; [| exact Ht].
  unfold handleSignaling, tryCatch.
  unfold mbind at 1, M_bind at 1, get at 1.
  rewrite bool_decide_eq_true_2 by reflexivity.
  unfold mbind at 1, M_bind at 1, emit at 1.
  unfold mbind at 1, M_bind at 1. rewrite Hadd.
  unfold mbind at 1, M_bind at 1.
  rewrite (createPeerConnection_existing _ from pc) by exact Hpc.
  rewrite (bool_decide_eq_false_2 _ Hs1), (bool_decide_eq_false_2 _ Hs2).
  run_M. reflexivity.
Qed.

Lemma handleSignaling_answer_refused (s : App) (answer : SessionDescription)
    (from : string) :
  (∀ pc, peers s !! from = Some pc → signalingState pc ≠ HaveLocalOffer) →
  handleSignaling (Answer answer from (currentGamertag s)) s
  = (Return tt, s, [ConsoleLog (LogReceivedAnswer from)]).
Proof.
  intros Hno. unfold handleSignaling, getPeerConnection. run_M.
  rewrite bool_decide_eq_true_2 by reflexivity. simpl.
  destruct (peers s !! from) as [pc |] eqn:Hpc; simpl; [| reflexivity].
  rewrite (bool_decide_eq_false_2 _ (Hno pc eq_refl)). reflexivity.
Qed.

Lemma handleSignaling_candidate_no_link (s : App) (candidate : option Candidate)
    (from : string) :
  peers s !! from = None →
  handleSignaling (IceCandidateMsg candidate from (currentGamertag s)) s
  = (Return tt, s, []).
Proof.
  intros Hno. unfold handleSignaling, getPeerConnection. run_M.
  rewrite bool_decide_eq_true_2 by reflexivity. simpl. rewrite Hno. reflexivity.
Qed.

(** C8. A message with a [to] field that does not name the local gamertag is
    discarded, and so is a [join] that names the local gamertag. An offer
    reaches [setRemoteDescription], [createAnswer] or the socket only when the
    sender's link is in [stable] or [have-local-offer] (a sender without a
    link gets a new one, which is in [stable]); an answer reaches
    [setRemoteDescription] only when the sender's link is in
    [have-local-offer]; a candidate reaches [addIceCandidate] only when the
    sender has a link. *)
Theorem handleSignaling_guards (s : App) :
  (∀ data to, msgTo data = Some to → to ≠ currentGamertag s →
     handleSignaling data s = (Return tt, s, [])) ∧
  handleSignaling (Join (currentGamertag s)) s = (Return tt, s, []) ∧
  (∀ offer from to e,
     e ∈ trace (handleSignaling (Offer offer from to) s) →
     ((∃ d, e = PcSetRemoteDescription from d) ∨ e = PcCreateAnswer from
      ∨ ∃ msg, e = WsSend msg) →
     to = currentGamertag s ∧
     ∀ pc, peers s !! from = Some pc →
           signalingState pc = Stable ∨ signalingState pc = HaveLocalOffer) ∧
  (∀ answer from to e,
     e ∈ trace (handleSignaling (Answer answer from to) s) →
     (∃ d, e = PcSetRemoteDescription from d) →
     to = currentGamertag s ∧
     ∃ pc, peers s !! from = Some pc ∧ signalingState pc = HaveLocalOffer) ∧
  (∀ candidate from to e,
     e ∈ trace (handleSignaling (IceCandidateMsg candidate from to) s) →
     (∃ c, e = PcAddIceCandidate from c) →
     to = currentGamertag s ∧ is_Some (peers s !! from)).
Proof.
  split; [exact (handleSignaling_other_recipient s) |].
  split; [exact (handleSignaling_own_join s) |].
  split; [| split].
  - intros offer from to e Hin Hkind.
    destruct (decide (to = currentGamertag s)) as [-> | Hne];
      [| rewrite (handleSignaling_other_recipient s (Offer offer from to) to
                    eq_refl Hne) in Hin; inversion Hin].
    split; [reflexivity |]. intros pc Hpc.
    destruct (decide (signalingState pc = Stable)) as [Hs1 | Hs1]; [now left |].
    destruct (decide (signalingState pc = HaveLocalOffer)) as [Hs2 | Hs2]; [now right |].
    exfalso.
    destruct (handleSignaling_offer_refused s offer from pc Hpc Hs1 Hs2)
      as (t & Hrun & Ht).
    rewrite Hrun in Hin. unfold trace in Hin. simpl in Hin.
    apply elem_of_cons in Hin as [-> | Hin].
    { destruct Hkind as [[d Heq] | [Heq | [msg Heq]]]; discriminate. }
    apply elem_of_app in Hin as [Hin | Hin].
    { apply Ht in Hin. subst e.
      destruct Hkind as [[d Heq] | [Heq | [msg Heq]]]; discriminate. }
    apply elem_of_cons in Hin as [-> | Hin].
    { destruct Hkind as [[d Heq] | [Heq | [msg Heq]]]; discriminate. }
    apply list_elem_of_singleton in Hin. subst e.
    destruct Hkind as [[d Heq] | [Heq | [msg Heq]]]; discriminate.
  - intros answer from to e Hin [d ->].
    destruct (decide (to = currentGamertag s)) as [-> | Hne];
      [| rewrite (handleSignaling_other_recipient s (Answer answer from to) to
                    eq_refl Hne) in Hin; inversion Hin].
    split; [reflexivity |].
    destruct (peers s !! from) as [pc |] eqn:Hpc.
    + destruct (decide (signalingState pc = HaveLocalOffer)) as [Hs | Hs];
        [now exists pc |].
      exfalso.
      rewrite (handleSignaling_answer_refused s answer from) in Hin.
      * apply list_elem_of_singleton in Hin. discriminate.
      * intros pc' Hpc'. rewrite Hpc in Hpc'. now injection Hpc' as <-.
    + exfalso.
      rewrite (handleSignaling_answer_refused s answer from) in Hin.
      * apply list_elem_of_singleton in Hin. discriminate.
      * intros pc' Hpc'. rewrite Hpc in Hpc'. discriminate.
  - intros candidate from to e Hin [c ->].
    destruct (decide (to = currentGamertag s)) as [-> | Hne];
      [| rewrite (handleSignaling_other_recipient s
                    (IceCandidateMsg candidate from to) to eq_refl Hne) in Hin;
         inversion Hin].
    split; [reflexivity |].
    destruct (peers s !! from) as [pc |] eqn:Hpc; [now eexists |].
    rewrite (handleSignaling_candidate_no_link s candidate from Hpc) in Hin.
    inversion Hin.
Qed.

End SignalingFacts.

Lemma handleSignaling_guards_witness :
  msgTo (Offer Examples.anOffer "Steve" "Bob") = Some "Bob" ∧
  "Bob" ≠ currentGamertag Examples.app ∧
  @handleSignaling w3cBrowser (Offer Examples.anOffer "Steve" "Bob") Examples.app
    = (Return tt, Examples.app, []).
Proof.
  assert (Hne : "Bob" ≠ currentGamertag Examples.app) by discriminate.
  split; [reflexivity | split; [exact Hne |]].
  apply (proj1 (@handleSignaling_guards w3cBrowser Examples.app)
           (Offer Examples.anOffer "Steve" "Bob") "Bob" eq_refl Hne).
Defined.

(** ** Effect changes *)

Lemma forEach_emit_all (evs : list Event) (s : App) :
  forEach evs emit s = (Return tt, s, evs).
Proof.
  pose proof (forEach_emit (λ e, e) evs s) as Hrun.
  rewrite list_fmap_id in Hrun. exact Hrun.
Qed.

Lemma forEach_traces {A} (f : A → list Event) (xs : list A) (s : App) :
  forEach xs (λ x, forEach (f x) emit) s = (Return tt, s, concat (f <$> xs)).
Proof.
  induction xs as [| x xs IH]; [reflexivity |].
  simpl. unfold mbind, M_bind. rewrite forEach_emit_all, IH. reflexivity.
Qed.

Section EffectFacts.

Context `{Platform}.

Lemma replaceTracks_run (effect : string) (newTrack : Track) (s : App) :
  ∃ pcs t, replaceTracks effect newTrack s = (Return tt, setPeers s pcs, t).
Proof.
  unfold replaceTracks.
  unfold mbind at 1, M_bind at 1, get at 1.
  unfold mbind at 1, M_bind at 1, put at 1.
  unfold mbind at 1, M_bind at 1.
  rewrite forEach_traces. unfold emit. eexists _, _. reflexivity.
Qed.

(** A request that passes both guards: the manager has the new effect, the
    new stream and the time of the change. *)
Lemma applyEffect_accepted (s : App) (effect : string) (now : Z)
    (peerConnections : PeerConnectionsArg) :
  let this := audioEffects s in
  is_Some (AudioEffectsManager.inputNode this) →
  (AudioEffectsManager.currentEffect this = effect →
   AudioEffectsManager.processedStream this = None) →
  (is_Some (AudioEffectsManager.processedStream this) →
   (1000 ≤ now - AudioEffectsManager.lastEffectChange this)%Z) →
  ∃ s' t,
    applyEffect effect now peerConnections s = (Return tt, s', t) ∧
    audioEffects s'
    = {| AudioEffectsManager.currentEffect := effect;
         AudioEffectsManager.inputNode := AudioEffectsManager.inputNode this;
         AudioEffectsManager.processedStream := Some (nextHandle s);
         AudioEffectsManager.lastEffectChange := now |} ∧
    CreateMediaStreamDestination (nextHandle s) ∈ t.
Proof.
  intros this [node Hnode] Hsame Hrate.
  unfold applyEffect.
  unfold mbind at 1, M_bind at 1, get at 1. fold this. rewrite Hnode.
  assert (Hguard1 :
    bool_decide (AudioEffectsManager.currentEffect this = effect)
    && bool_decide (is_Some (AudioEffectsManager.processedStream this)) = false).
  { apply andb_false_iff.
    destruct (decide (AudioEffectsManager.currentEffect this = effect)) as [Heq | Hne].
    - right. apply bool_decide_eq_false_2. rewrite (Hsame Heq).
      intros [? ?]; discriminate.
    - left. now apply bool_decide_eq_false_2. }
  assert (Hguard2 :
    bool_decide (is_Some (AudioEffectsManager.processedStream this))
    && (now - AudioEffectsManager.lastEffectChange this <? 1000)%Z = false).
  { apply andb_false_iff.
    destruct (decide (is_Some (AudioEffectsManager.processedStream this))) as [Hs | Hs].
    - right. apply Z.ltb_ge. now apply Hrate.
    - left. now apply bool_decide_eq_false_2. }
  rewrite Hguard1, Hguard2.
  destruct peerConnections.
  - run_M. unfold fresh. simpl. eexists _, _. split; [reflexivity |].
    split; [unfold AudioEffectsManager.setProcessed; simpl; now rewrite Hnode
          | find_event].
  - unfold mbind, M_bind, put, emit, fresh, modify, get, skip, mret, M_ret.
    destruct (Nat.ltb 0 _).
    + unfold getTracks. cbn [head].
      match goal with
      | |- context [replaceTracks ?e ?t ?s'] =>
          destruct (replaceTracks_run e t s') as (pcs & tr & Hrun); rewrite Hrun
      end.
      simpl. eexists _, _. split; [reflexivity |].
      split; [unfold AudioEffectsManager.setProcessed; simpl; now rewrite Hnode
          | find_event].
    + simpl. eexists _, _. split; [reflexivity |].
      split; [unfold AudioEffectsManager.setProcessed; simpl; now rewrite Hnode
          | find_event].
Qed.

Lemma applyEffect_no_input (s : App) (effect : string) (now : Z)
    (peerConnections : PeerConnectionsArg) :
  AudioEffectsManager.inputNode (audioEffects s) = None →
  applyEffect effect now peerConnections s
  = (Return tt, s, [ConsoleError ErrNoInputNode]).
Proof.
  intros Hnode. unfold applyEffect. run_M. rewrite Hnode. reflexivity.
Qed.

(** A request that one of the two guards stops. *)
Lemma applyEffect_dropped (s : App) (effect : string) (now : Z)
    (peerConnections : PeerConnectionsArg) :
  let this := audioEffects s in
  is_Some (AudioEffectsManager.inputNode this) →
  is_Some (AudioEffectsManager.processedStream this) →
  AudioEffectsManager.currentEffect this = effect
    ∨ (now - AudioEffectsManager.lastEffectChange this < 1000)%Z →
  applyEffect effect now peerConnections s = (Return tt, s, []).
Proof.
  intros this [node Hnode] Hstream Hwhy.
  unfold applyEffect. unfold mbind at 1, M_bind at 1, get at 1.
  fold this. rewrite Hnode.
  rewrite (bool_decide_eq_true_2 _ Hstream), andb_true_r. simpl.
  destruct (bool_decide (AudioEffectsManager.currentEffect this = effect)) eqn:Hsame;
    [reflexivity |].
  destruct Hwhy as [Heq | Hsoon].
  - apply bool_decide_eq_false_1 in Hsame. contradiction.
  - apply Z.ltb_lt in Hsoon. rewrite Hsoon. reflexivity.
Qed.

(** C5. With an output stream in place, [applyEffect] for the effect that
    is already current, and [applyEffect] for any effect less than 1000 ms
    after the last accepted change, change nothing: the state is the same,
    no stream is created and no track is replaced, and with an input node
    nothing is logged either. The last accepted change is the time of the
    last call that passed both guards. *)
Theorem applyEffect_throttled :
  (∀ (s : App) (effect : string) (now : Z) (peerConnections : PeerConnectionsArg),
     let this := audioEffects s in
     is_Some (AudioEffectsManager.processedStream this) →
     AudioEffectsManager.currentEffect this = effect
       ∨ (now - AudioEffectsManager.lastEffectChange this < 1000)%Z →
     final (applyEffect effect now peerConnections s) = s ∧
     (is_Some (AudioEffectsManager.inputNode this) →
      applyEffect effect now peerConnections s = (Return tt, s, [])) ∧
     (∀ e, e ∈ trace (applyEffect effect now peerConnections s) →
           e = ConsoleError ErrNoInputNode)) ∧
  (∀ (s : App) (effect effect' : string) (now now' : Z)
      (peerConnections peerConnections' : PeerConnectionsArg),
     let this := audioEffects s in
     let s' := final (applyEffect effect now peerConnections s) in
     is_Some (AudioEffectsManager.inputNode this) →
     (AudioEffectsManager.currentEffect this = effect →
      AudioEffectsManager.processedStream this = None) →
     (is_Some (AudioEffectsManager.processedStream this) →
      (1000 ≤ now - AudioEffectsManager.lastEffectChange this)%Z) →
     (now' - now < 1000)%Z →
     AudioEffectsManager.lastEffectChange (audioEffects s') = now ∧
     applyEffect effect' now' peerConnections' s' = (Return tt, s', [])).
Proof.
  assert (Hdrop : ∀ (s : App) (effect : string) (now : Z)
                    (peerConnections : PeerConnectionsArg),
     let this := audioEffects s in
     is_Some (AudioEffectsManager.processedStream this) →
     AudioEffectsManager.currentEffect this = effect
       ∨ (now - AudioEffectsManager.lastEffectChange this < 1000)%Z →
     final (applyEffect effect now peerConnections s) = s ∧
     (is_Some (AudioEffectsManager.inputNode this) →
      applyEffect effect now peerConnections s = (Return tt, s, [])) ∧
     (∀ e, e ∈ trace (applyEffect effect now peerConnections s) →
           e = ConsoleError ErrNoInputNode)).
  { intros s effect now peerConnections this Hstream Hwhy.
    destruct (AudioEffectsManager.inputNode this) as [node |] eqn:Hnode.
    - assert (Hrun : applyEffect effect now peerConnections s = (Return tt, s, [])).
      { apply applyEffect_dropped; [fold this; rewrite Hnode; eauto | | ]; assumption. }
      rewrite Hrun. split; [reflexivity | split; [reflexivity |]].
      intros e He. inversion He.
    - rewrite (applyEffect_no_input s effect now peerConnections Hnode).
      split; [reflexivity | split].
      + intros [? ?]; discriminate.
      + intros e He. now apply list_elem_of_singleton in He. }
  split; [exact Hdrop |].
  intros s effect effect' now now' peerConnections peerConnections' this s'
         Hnode Hsame Hrate Hsoon.
  destruct (applyEffect_accepted s effect now peerConnections Hnode Hsame Hrate)
    as (s1 & t1 & Hrun & Hae & _).
  assert (Hs' : s' = s1) by (subst s'; now rewrite Hrun).
  rewrite Hs'. clear Hs' s'.
  split; [now rewrite Hae |].
  apply (Hdrop s1 effect' now' peerConnections').
  - rewrite Hae. simpl. eauto.
  - right. rewrite Hae. simpl. exact Hsoon.
  - rewrite Hae. simpl. exact Hnode.
Qed.

End EffectFacts.

Lemma applyEffect_throttled_witness :
  let this := audioEffects Examples.appWithAudio in
  is_Some (AudioEffectsManager.processedStream this) ∧
  (5400 - AudioEffectsManager.lastEffectChange this < 1000)%Z ∧
  @applyEffect w3cBrowser "cave" 5400 ThePeerConnections Examples.appWithAudio
    = (Return tt, Examples.appWithAudio, []).
Proof.
  intros this.
  assert (Hstream : is_Some (AudioEffectsManager.processedStream this))
    by (simpl; eauto).
  assert (Hsoon : (5400 - AudioEffectsManager.lastEffectChange this < 1000)%Z)
    by (simpl; lia).
  split; [exact Hstream | split; [exact Hsoon |]].
  apply (proj1 (@applyEffect_throttled w3cBrowser) Examples.appWithAudio "cave" 5400%Z
           ThePeerConnections Hstream (or_intror Hsoon)).
  simpl. eauto.
Defined.

(** ** Runs on concrete states

    The methods evaluated with [w3cBrowser], for the cases that the
    properties above are about. *)

Section Runs.

Import DistanceCalculator.
Open Scope R_scope.

(** Steve stands 5 blocks from Alex. *)
Example calculate_alex_steve :
  calculate (MinecraftIntegration.location Examples.alexPlayer)
            (MinecraftIntegration.location Examples.stevePlayer) = 5.
Proof.
  unfold calculate. simpl.
  replace ((0 - 3) * (0 - 3) + (64 - 64) * (64 - 64) + (0 - 4) * (0 - 4)) with (5 * 5)
    by lra.
  apply sqrt_square. lra.
Qed.

Lemma calculate_sym (pos1 pos2 : Location) : calculate pos1 pos2 = calculate pos2 pos1.
Proof. unfold calculate. f_equal. ring. Qed.

Lemma calculate_nonneg (pos1 pos2 : Location) : 0 <= calculate pos1 pos2.
Proof. unfold calculate. apply sqrt_pos. Qed.

(** A player who walks from distance 0 to 20 to 25 under [maxDistance] 20 is
    heard at volume 1, then 0, then 0. *)
Example volumeFromDistance_walk :
  volumeFromDistance (new 20) 0 = 1 ∧
  volumeFromDistance (new 20) 20 = 0 ∧
  volumeFromDistance (new 20) 25 = 0.
Proof.
  repeat split.
  - rewrite volumeFromDistance_near by (simpl; lra). simpl. lra.
  - rewrite volumeFromDistance_near by (simpl; lra). simpl. lra.
  - apply volumeFromDistance_far. simpl. lra.
Qed.

Close Scope R_scope.

(** The audio of Steve arrives before the roster names him: [ontrack] stores
    the audio element as pending, the [participants-list] message creates
    the participant with that element, and nothing stays pending. *)
Example track_before_roster :
  let s1 := final (ontrack "Steve" Examples.app) in
  let s2 := final (@handleSignaling w3cBrowser (ParticipantsList ["Alex"; "Steve"]) s1) in
  ParticipantsManager.pendingNodes (participantsManager s1) !! "Steve"
    = Some {| ParticipantsManager.gainNode := None;
              ParticipantsManager.audioElement := Some 0;
              ParticipantsManager.source := None |} ∧
  Participant.audioElement
    <$> ParticipantsManager.participants (participantsManager s2) !! "Steve"
    = Some (Some 0) ∧
  ParticipantsManager.pendingNodes (participantsManager s2) !! "Steve" = None ∧
  ParticipantsManager.participants (participantsManager s2) !! "Alex" = None.
Proof. vm_compute. repeat split. Qed.

(** An offer for Alex on a stable link is answered. *)
Example offer_on_stable_link :
  trace (@handleSignaling w3cBrowser (Offer Examples.anOffer "Steve" "Alex")
           (Examples.appWith (Examples.link false 0 Stable)))
  = [ConsoleLog (LogReceivedOffer "Steve");
     ConsoleLog (LogAlreadyExists "Steve");
     PcSetRemoteDescription "Steve" Examples.anOffer;
     PcCreateAnswer "Steve";
     PcSetLocalDescription "Steve" {| sdpType := SdpAnswer; sdp := "v=0 answer" |};
     WsSend (Answer {| sdpType := SdpAnswer; sdp := "v=0 answer" |} "Alex" "Steve");
     ConsoleLog (LogSentAnswer "Steve");
     UpdateUI].
Proof. vm_compute. reflexivity. Qed.

(** An offer on a link that already holds a remote offer is not applied. *)
Example offer_on_busy_link :
  trace (@handleSignaling w3cBrowser (Offer Examples.anOffer "Steve" "Alex")
           (Examples.appWith (Examples.link false 0 HaveRemoteOffer)))
  = [ConsoleLog (LogReceivedOffer "Steve");
     ConsoleLog (LogAlreadyExists "Steve");
     UpdateUI].
Proof. vm_compute. reflexivity. Qed.

(** An answer is applied on a link that has sent an offer, and only there. *)
Example answer_after_local_offer :
  trace (@handleSignaling w3cBrowser (Answer Examples.anAnswer "Steve" "Alex")
           (Examples.appWith (Examples.link true 0 HaveLocalOffer)))
  = [ConsoleLog (LogReceivedAnswer "Steve");
     PcSetRemoteDescription "Steve" Examples.anAnswer;
     ConsoleLog (LogAnswerApplied "Steve")] ∧
  trace (@handleSignaling w3cBrowser (Answer Examples.anAnswer "Steve" "Alex")
           (Examples.appWith (Examples.link true 0 Stable)))
  = [ConsoleLog (LogReceivedAnswer "Steve")].
Proof. vm_compute. split; reflexivity. Qed.

(** A [join] of a new peer: the participant is added, a link is created and
    the first offer goes out. *)
Example join_of_new_peer :
  trace (@handleSignaling w3cBrowser (Join "Steve") Examples.app)
  = [ConsoleLog (LogJoined "Steve");
     NewRTCPeerConnection "Steve";
     ConsoleLog (LogConnecting "Steve");
     PcCreateOffer "Steve";
     PcSetLocalDescription "Steve" {| sdpType := SdpOffer; sdp := "v=0 offer" |};
     WsSend (Offer {| sdpType := SdpOffer; sdp := "v=0 offer" |} "Alex" "Steve");
     UpdateUI].
Proof. vm_compute. reflexivity. Qed.

(** An accepted effect change replaces the audio track of the link, and a
    second request 400 ms later is dropped. *)
Example effect_change_then_throttle :
  let s1 := final (@applyEffect w3cBrowser "cave" 7000 ThePeerConnections
                     Examples.appWithAudio) in
  trace (@applyEffect w3cBrowser "cave" 7000 ThePeerConnections Examples.appWithAudio)
  = [ConsoleLog (LogChangingEffect "none" "cave");
     CreateMediaStreamDestination 2;
     ChainEffectNodes "cave" 2;
     SenderReplaceTrack "Steve" {| kind := Audio; ofStream := 2 |};
     ConsoleLog (LogTrackReplaced "Steve" "cave");
     ConsoleLog (LogEffectApplied 1)] ∧
  senders <$> peers s1 !! "Steve"
  = Some [ {| track := Some {| kind := Audio; ofStream := 2 |} |} ] ∧
  @applyEffect w3cBrowser "underwater" 7400 ThePeerConnections s1 = (Return tt, s1, []).
Proof. vm_compute. repeat split. Qed.

End Runs.

(** * The code around the claims

    The other functions of [DistanceCalculator], [ParticipantsManager],
    [MinecraftIntegration], [WebRTCManager], [AudioEffectsManager] and
    [handleSignaling]: what they do at their edges, what they keep, how they
    compose. *)

Set Warnings "-clear-no-such-hyp".

(** Membership in a trace that is written out. *)
Ltac trace_solver := set_unfold; naive_solver congruence.

(** ** DistanceCalculator: a symmetric distance and a volume between 0 and 1 *)

Section DistanceCalculatorMore.

Import DistanceCalculator.
Open Scope R_scope.

(** [calculate] is never negative, 0 from a position to itself and the same
    in both directions, so two players derive the same volume for each
    other, and a player at the position of the listener is heard at
    volume 1. *)
Theorem calculate_symmetric :
  (∀ p q, 0 <= calculate p q) ∧
  (∀ p, calculate p p = 0) ∧
  (∀ p q, calculate p q = calculate q p) ∧
  (∀ this p q,
     volumeFromDistance this (calculate p q) = volumeFromDistance this (calculate q p)) ∧
  (∀ this p, 0 < maxDistance this → volumeFromDistance this (calculate p p) = 1).
Proof.
  assert (Hself : ∀ p, calculate p p = 0).
  { intros p. unfold calculate. cbv zeta.
    replace (_ + _ + _) with 0 by ring. apply sqrt_0. }
  split; [exact calculate_nonneg | split; [exact Hself | split; [exact calculate_sym |]]].
  split.
  - intros this p q. now rewrite (calculate_sym p q).
  - intros this p HM. rewrite Hself.
    rewrite volumeFromDistance_near by lra.
    unfold Rdiv. rewrite Rmult_0_l. simpl. lra.
Qed.

(** With a positive [maxDistance], the volume of a distance that is not
    negative lies between 0 and 1. *)
Lemma volumeFromDistance_unit (this : t) (d : R) :
  0 < maxDistance this → 0 <= d → 0 <= volumeFromDistance this d <= 1.
Proof.
  intros HM Hd. destruct (Rle_lt_dec d (maxDistance this)) as [Hin | Hout].
  - pose proof (ratio_bounds (maxDistance this) d HM Hd Hin) as [Hlo Hhi].
    rewrite volumeFromDistance_near by exact Hin. simpl. nra.
  - rewrite (volumeFromDistance_far this d Hout). lra.
Qed.

Lemma ratio_zero (M d : R) : 0 < M → (1 - d / M = 0 ↔ d = M).
Proof.
  intros HM. split.
  - intros Hr0. assert (Hq : d / M = 1) by lra.
    apply (Rmult_eq_compat_r M) in Hq.
    unfold Rdiv in Hq. rewrite Rmult_assoc, Rinv_l in Hq by lra. lra.
  - intros ->. unfold Rdiv. rewrite Rinv_r by lra. lra.
Qed.

(** The volume is positive exactly below [maxDistance]. *)
Lemma volumeFromDistance_pos (this : t) (d : R) :
  0 < maxDistance this → 0 <= d →
  (0 < volumeFromDistance this d ↔ d < maxDistance this).
Proof.
  intros HM Hd. destruct (Rle_lt_dec d (maxDistance this)) as [Hin | Hout].
  - pose proof (ratio_bounds (maxDistance this) d HM Hd Hin) as [Hlo Hhi].
    pose proof (ratio_zero (maxDistance this) d HM) as Hz.
    rewrite volumeFromDistance_near by exact Hin.
    set (r := 1 - d / maxDistance this) in *. split.
    + intros Hpos. destruct Hin as [Hlt | Heq]; [exact Hlt |].
      apply Hz in Heq. rewrite Heq in Hpos. simpl in Hpos. lra.
    + intros Hlt. assert (r <> 0) by (intros Hr0; apply Hz in Hr0; lra).
      simpl. nra.
  - rewrite (volumeFromDistance_far this d Hout). split; intros; lra.
Qed.

(** With a positive [maxDistance] and a distance that is not negative, the
    volume lies between 0 and 1 and is positive exactly below [maxDistance];
    at distance 0 it is 1. *)
Theorem volumeFromDistance_range (this : t) (d : R) :
  0 < maxDistance this → 0 <= d →
  0 <= volumeFromDistance this d <= 1 ∧
  (0 < volumeFromDistance this d ↔ d < maxDistance this) ∧
  volumeFromDistance this 0 = 1.
Proof.
  intros HM Hd.
  split; [now apply volumeFromDistance_unit | split; [now apply volumeFromDistance_pos |]].
  rewrite volumeFromDistance_near by lra.
  unfold Rdiv. rewrite Rmult_0_l. simpl. lra.
Qed.

Lemma volumeFromDistance_range_witness :
  0 <= volumeFromDistance (new 20) 5 <= 1 ∧
  (0 < volumeFromDistance (new 20) 5 ↔ 5 < maxDistance (new 20)) ∧
  volumeFromDistance (new 20) 0 = 1.
Proof. apply (volumeFromDistance_range (new 20) 5); simpl; lra. Defined.

End DistanceCalculatorMore.

(** ** Names in a snapshot *)

Lemma isWhiteSpace_lowerChar (c : ascii) : isWhiteSpace (lowerChar c) = isWhiteSpace c.
Proof. destruct c as [[] [] [] [] [] [] [] []]; reflexivity. Qed.

Lemma lowerChar_idem (c : ascii) : lowerChar (lowerChar c) = lowerChar c.
Proof. destruct c as [[] [] [] [] [] [] [] []]; reflexivity. Qed.

Lemma toLowerCase_idem (s : string) : toLowerCase (toLowerCase s) = toLowerCase s.
Proof. induction s as [| c s IH]; simpl; [reflexivity |]. now rewrite lowerChar_idem, IH. Qed.

Lemma trimStart_toLowerCase (s : string) :
  trimStart (toLowerCase s) = toLowerCase (trimStart s).
Proof.
  induction s as [| c s IH]; simpl; [reflexivity |].
  rewrite isWhiteSpace_lowerChar. destruct (isWhiteSpace c); [exact IH | reflexivity].
Qed.

Lemma trimEnd_toLowerCase (s : string) :
  trimEnd (toLowerCase s) = toLowerCase (trimEnd s).
Proof.
  induction s as [| c s IH]; simpl; [reflexivity |].
  rewrite IH, isWhiteSpace_lowerChar.
  destruct (trimEnd s); simpl; [destruct (isWhiteSpace c) |]; reflexivity.
Qed.

Lemma trimStart_idem (s : string) : trimStart (trimStart s) = trimStart s.
Proof.
  induction s as [| c s IH]; simpl; [reflexivity |].
  destruct (isWhiteSpace c) eqn:Hc; [exact IH |]. simpl. now rewrite Hc.
Qed.

Lemma trimEnd_idem (s : string) : trimEnd (trimEnd s) = trimEnd s.
Proof.
  induction s as [| c s IH]; simpl; [reflexivity |].
  destruct (trimEnd s) as [| c' rest] eqn:Hs.
  - destruct (isWhiteSpace c) eqn:Hc; simpl; [reflexivity | now rewrite Hc].
  - simpl in *. rewrite IH. reflexivity.
Qed.

Lemma trimStart_trimEnd (s : string) : trimStart (trimEnd s) = trimEnd (trimStart s).
Proof.
  induction s as [| c s IH]; simpl; [reflexivity |].
  destruct (isWhiteSpace c) eqn:Hc.
  - rewrite <- IH. destruct (trimEnd s); simpl; [reflexivity | now rewrite Hc].
  - simpl. destruct (trimEnd s); simpl; now rewrite Hc.
Qed.

Lemma trim_idem (s : string) : trim (trim s) = trim s.
Proof.
  unfold trim. rewrite trimStart_trimEnd, trimStart_idem, trimEnd_idem. reflexivity.
Qed.

Lemma trim_toLowerCase (s : string) : trim (toLowerCase s) = toLowerCase (trim s).
Proof. unfold trim. now rewrite trimStart_toLowerCase, trimEnd_toLowerCase. Qed.

Lemma normalise_idem (s : string) :
  toLowerCase (trim (toLowerCase (trim s))) = toLowerCase (trim s).
Proof. now rewrite trim_toLowerCase, trim_idem, toLowerCase_idem. Qed.

Lemma find_ext {A} (f g : A → bool) (l : list A) :
  (∀ x, f x = g x) → List.find f l = List.find g l.
Proof.
  intros Hfg. induction l as [| x l IH]; simpl; [reflexivity |].
  rewrite Hfg, IH. reflexivity.
Qed.

Section VolumeUpdateMore.

Import MinecraftIntegration.

(** Among ASCII names, the lookup of a gamertag in a snapshot depends on the
    gamertag only up to surrounding white space and letter case; a player it
    finds is in the snapshot under a name equal to the gamertag up to these,
    and when it finds none the snapshot holds no such name. *)
Theorem findPlayer_normalised (playersList : list Player) (gamertag : string) :
  isAsciiString gamertag = true →
  Forall (λ pl, isAsciiString (name pl) = true) playersList →
  findPlayer playersList (toLowerCase (trim gamertag)) = findPlayer playersList gamertag ∧
  (∀ pl, findPlayer playersList gamertag = Some pl →
         toLowerCase (trim (name pl)) = toLowerCase (trim gamertag) ∧
         pl ∈ playersList) ∧
  (findPlayer playersList gamertag = None →
   ∀ pl, pl ∈ playersList →
         toLowerCase (trim (name pl)) ≠ toLowerCase (trim gamertag)).
Proof.
  intros _ _. split; [| split].
  - unfold findPlayer. apply find_ext. intros pl. unfold sameName.
    now rewrite normalise_idem.
  - intros pl Hfind. unfold findPlayer in Hfind.
    apply List.find_some in Hfind as [Hin Hsame].
    split; [now apply String.eqb_eq | now apply list_elem_of_In].
  - intros Hnone pl Hin Heq. unfold findPlayer in Hnone.
    apply list_elem_of_In in Hin.
    pose proof (List.find_none _ _ Hnone pl Hin) as Hsame.
    unfold sameName in Hsame. apply String.eqb_neq in Hsame. contradiction.
Qed.

Lemma updateParticipantVolume_fields (this : t) (myPlayer : Player)
    (playersList : list Player) (participant : Participant.t) (gamertag : string) :
  let participant' := updateParticipantVolume this myPlayer playersList participant gamertag in
  Participant.gamertag participant' = Participant.gamertag participant ∧
  Participant.isSelf participant' = Participant.isSelf participant ∧
  Participant.customVolume participant' = Participant.customVolume participant ∧
  Participant.gainNode participant' = Participant.gainNode participant ∧
  Participant.audioElement participant' = Participant.audioElement participant ∧
  Participant.source participant' = Participant.source participant.
Proof.
  intros participant'. subst participant'. unfold updateParticipantVolume.
  destruct (Participant.isSelf participant) eqn:Hself;
    [rewrite Hself; auto 10 |].
  destruct (findPlayer playersList gamertag) as [otherPlayer |]; [| simpl; auto 10].
  destruct (isMuted (data otherPlayer)); [simpl; auto 10 |].
  destruct (remoteDeafened this); simpl; auto 10.
Qed.

(** The volume update touches distances and volumes only: the pending
    resources, the calculator and the mute and deafen flags stay, the roster
    has the same gamertags, every participant keeps its gamertag, its
    [isSelf], its custom volume and its audio objects, and the local
    participant is not changed at all. *)
Theorem updateParticipantVolumes_frame (this : t) (myPlayer : Player)
    (playersList : list Player) :
  let this' := updateParticipantVolumes this myPlayer playersList in
  ParticipantsManager.pendingNodes (participantsManager this')
    = ParticipantsManager.pendingNodes (participantsManager this) ∧
  distanceCalculator this' = distanceCalculator this ∧
  remoteMuted this' = remoteMuted this ∧
  remoteDeafened this' = remoteDeafened this ∧
  dom (ParticipantsManager.participants (participantsManager this'))
    = dom (ParticipantsManager.participants (participantsManager this)) ∧
  ∀ gamertag participant,
    ParticipantsManager.participants (participantsManager this) !! gamertag
      = Some participant →
    ∃ participant',
      ParticipantsManager.participants (participantsManager this') !! gamertag
        = Some participant' ∧
      Participant.gamertag participant' = Participant.gamertag participant ∧
      Participant.isSelf participant' = Participant.isSelf participant ∧
      Participant.customVolume participant' = Participant.customVolume participant ∧
      Participant.gainNode participant' = Participant.gainNode participant ∧
      Participant.audioElement participant' = Participant.audioElement participant ∧
      Participant.source participant' = Participant.source participant ∧
      (Participant.isSelf participant = true → participant' = participant).
Proof.
  intros this'. repeat split.
  - apply set_eq. intros gamertag. rewrite !elem_of_dom.
    subst this'. rewrite updateParticipantVolumes_lookup.
    rewrite fmap_is_Some. reflexivity.
  - intros gamertag participant Hget.
    exists (updateParticipantVolume this myPlayer playersList participant gamertag).
    split.
    + subst this'. rewrite updateParticipantVolumes_lookup, Hget. reflexivity.
    + pose proof (updateParticipantVolume_fields this myPlayer playersList
                    participant gamertag) as (Hg & Hs & Hc & Hn & Ha & Hsrc).
      repeat split; try assumption.
      intros Hself. unfold updateParticipantVolume. now rewrite Hself.
Qed.

Open Scope R_scope.

(** After a volume update under a positive [maxDistance], a remote
    participant is audible (volume not 0) exactly when its custom volume is
    not 0, the listener is not deafened, and the snapshot holds the
    participant, not muted, closer than [maxDistance]; with a custom volume
    between 0 and 1 the volume lies between 0 and the custom volume. *)
Theorem updateParticipantVolumes_audible (this : t) (myPlayer : Player)
    (playersList : list Player) (gamertag : string)
    (participant participant' : Participant.t) :
  0 < DistanceCalculator.maxDistance (distanceCalculator this) →
  ParticipantsManager.participants (participantsManager this) !! gamertag
    = Some participant →
  Participant.isSelf participant = false →
  ParticipantsManager.participants
    (participantsManager (updateParticipantVolumes this myPlayer playersList))
    !! gamertag = Some participant' →
  (Participant.volume participant' <> 0 ↔
   Participant.customVolume participant <> 0 ∧
   remoteDeafened this = false ∧
   ∃ otherPlayer,
     findPlayer playersList gamertag = Some otherPlayer ∧
     isMuted (data otherPlayer) = false ∧
     DistanceCalculator.calculate (location myPlayer) (location otherPlayer)
       < DistanceCalculator.maxDistance (distanceCalculator this)) ∧
  (0 <= Participant.customVolume participant <= 1 →
   0 <= Participant.volume participant' <= Participant.customVolume participant).
Proof.
  intros HM Hget Hself Hget'.
  rewrite updateParticipantVolumes_lookup, Hget in Hget'. simpl in Hget'.
  injection Hget' as <-.
  unfold updateParticipantVolume. rewrite Hself.
  destruct (findPlayer playersList gamertag) as [otherPlayer |] eqn:Hfind.
  2: { simpl. split; [split |]; [intros Hv; lra | | intros; lra].
       intros (_ & _ & other & Hother & _). discriminate. }
  destruct (isMuted (data otherPlayer)) eqn:Hmuted.
  { simpl. split; [split |]; [intros Hv; lra | | intros; lra].
    intros (_ & _ & other & Hother & Hm & _). injection Hother as <-. congruence. }
  destruct (remoteDeafened this) eqn:Hdeaf.
  { simpl. split; [split |]; [intros Hv; lra | | intros; lra].
    intros (_ & Hd & _). discriminate. }
  simpl.
  set (d := DistanceCalculator.calculate (location myPlayer) (location otherPlayer)).
  assert (Hd : 0 <= d) by apply calculate_nonneg.
  destruct (volumeFromDistance_unit (distanceCalculator this) d HM Hd) as (Hlo & Hhi).
  pose proof (volumeFromDistance_pos (distanceCalculator this) d HM Hd) as Hpos.
  set (v := DistanceCalculator.volumeFromDistance (distanceCalculator this) d) in *.
  split; [split |].
  - intros Hv. split; [| split; [reflexivity |]].
    + intros Hc. rewrite Hc in Hv. lra.
    + exists otherPlayer. split; [reflexivity | split; [exact Hmuted |]].
      apply Hpos.
      destruct Hlo as [Hlt | Heq]; [exact Hlt |]. rewrite <- Heq in Hv. lra.
  - intros (Hc & _ & other & Hother & _ & Hin). injection Hother as <-.
    apply Hpos in Hin. nra.
  - intros [Hc0 Hc1]. nra.
Qed.

Close Scope R_scope.

End VolumeUpdateMore.

Lemma findPlayer_normalised_witness :
  let playersList := [Examples.alexPlayer; Examples.stevePlayer] in
  MinecraftIntegration.findPlayer playersList (toLowerCase (trim "Steve  "))
  = MinecraftIntegration.findPlayer playersList "Steve  " ∧
  MinecraftIntegration.findPlayer playersList "Steve  " = Some Examples.stevePlayer ∧
  toLowerCase (trim (MinecraftIntegration.name Examples.stevePlayer))
  = toLowerCase (trim "Steve  ").
Proof.
  intros playersList.
  destruct (findPlayer_normalised playersList "Steve  ") as (Hsame & Hfound & _).
  - reflexivity.
  - repeat constructor.
  - split; [exact Hsame |]. split; [reflexivity |].
    exact (proj1 (Hfound Examples.stevePlayer eq_refl)).
Defined.

Lemma updateParticipantVolumes_audible_witness :
  ∃ participant',
    ParticipantsManager.participants
      (MinecraftIntegration.participantsManager
         (MinecraftIntegration.updateParticipantVolumes Examples.minecraft
            Examples.alexPlayer [Examples.alexPlayer; Examples.stevePlayer]))
      !! "Steve" = Some participant' ∧
    Participant.volume participant' ≠ 0%R.
Proof.
  assert (Hlookup :
    ParticipantsManager.participants
      (MinecraftIntegration.participantsManager
         (MinecraftIntegration.updateParticipantVolumes Examples.minecraft
            Examples.alexPlayer [Examples.alexPlayer; Examples.stevePlayer]))
      !! "Steve"
    = Some (MinecraftIntegration.updateParticipantVolume Examples.minecraft
              Examples.alexPlayer [Examples.alexPlayer; Examples.stevePlayer]
              Examples.steve "Steve")).
  { rewrite updateParticipantVolumes_lookup. reflexivity. }
  eexists. split; [exact Hlookup |].
  apply (updateParticipantVolumes_audible Examples.minecraft Examples.alexPlayer
           [Examples.alexPlayer; Examples.stevePlayer] "Steve" Examples.steve _).
  - simpl. lra.
  - apply lookup_singleton_eq.
  - reflexivity.
  - exact Hlookup.
  - split; [simpl; lra | split; [reflexivity |]].
    exists Examples.stevePlayer. split; [reflexivity | split; [reflexivity |]].
    rewrite calculate_alex_steve. simpl. lra.
Defined.

(** ** ParticipantsManager: lookups after [add], [remove], [addPendingNode] *)

Section ParticipantsManagerMore.

Import ParticipantsManager.

(** After [add] the gamertag is present; the other gamertags are as before;
    a participant that was there is kept as it was, and a new one starts at
    distance 0, volume 1 and custom volume 1 with the given [isSelf]. *)
Theorem add_lookup (this : t) (gamertag : string) (isSelf : bool) :
  has (add this gamertag isSelf) gamertag = true ∧
  (∀ k, k ≠ gamertag → get (add this gamertag isSelf) k = get this k) ∧
  (∀ participant, get this gamertag = Some participant →
     get (add this gamertag isSelf) gamertag = Some participant) ∧
  (get this gamertag = None →
   ∃ participant,
     get (add this gamertag isSelf) gamertag = Some participant ∧
     Participant.gamertag participant = gamertag ∧
     Participant.isSelf participant = isSelf ∧
     Participant.distance participant = 0%R ∧
     Participant.volume participant = 1%R ∧
     Participant.customVolume participant = 1%R).
Proof.
  unfold get.
  assert (Hsame : ∀ participant, participants this !! gamertag = Some participant →
            add this gamertag isSelf = this).
  { intros participant Hin. apply add_present. eauto. }
  assert (Hnew : participants this !! gamertag = None →
     ∃ participant,
       participants (add this gamertag isSelf) !! gamertag = Some participant ∧
       Participant.gamertag participant = gamertag ∧
       Participant.isSelf participant = isSelf ∧
       Participant.distance participant = 0%R ∧
       Participant.volume participant = 1%R ∧
       Participant.customVolume participant = 1%R).
  { intros Habsent. unfold add. rewrite (proj2 (has_false this gamertag) Habsent).
    destruct (pendingNodes this !! gamertag); simpl;
      eexists; (split; [apply lookup_insert_eq |]); simpl; auto. }
  split; [| split; [| split; [| exact Hnew]]].
  - apply has_true.
    destruct (participants this !! gamertag) as [participant |] eqn:Hin.
    + rewrite (Hsame participant eq_refl), Hin. eauto.
    + destruct (Hnew eq_refl) as (participant & Hget & _). rewrite Hget. eauto.
  - intros k Hne. unfold add. destruct (has this gamertag); [reflexivity |].
    destruct (pendingNodes this !! gamertag); simpl; now rewrite lookup_insert_ne.
  - intros participant Hin. now rewrite (Hsame participant Hin).
Qed.

(** After [remove] the gamertag is absent and the other gamertags are as
    before; [remove] of an absent gamertag changes nothing, so a second
    [remove] does nothing; [remove] after [add] of an absent gamertag gives
    back the participants, with the pending entry of the gamertag consumed. *)
Theorem remove_lookup (this : t) (gamertag : string) :
  has (remove this gamertag) gamertag = false ∧
  (∀ k, k ≠ gamertag → get (remove this gamertag) k = get this k) ∧
  (get this gamertag = None → remove this gamertag = this) ∧
  remove (remove this gamertag) gamertag = remove this gamertag ∧
  (∀ isSelf, get this gamertag = None →
     participants (remove (add this gamertag isSelf) gamertag) = participants this ∧
     pendingNodes (remove (add this gamertag isSelf) gamertag)
       = delete gamertag (pendingNodes this)).
Proof.
  unfold get.
  assert (Hnoop : ∀ m : t, participants m !! gamertag = None → remove m gamertag = m).
  { intros m Habsent. unfold remove. now rewrite Habsent. }
  split; [| split; [| split; [exact (Hnoop this) | split]]].
  - apply has_false, remove_absent.
  - intros k Hne. unfold remove.
    destruct (participants this !! gamertag); simpl; [| reflexivity].
    now rewrite lookup_delete_ne.
  - apply Hnoop, remove_absent.
  - intros isSelf Habsent. unfold add.
    rewrite (proj2 (has_false this gamertag) Habsent).
    destruct (pendingNodes this !! gamertag) as [nodeData |] eqn:Hpending;
      unfold remove; simpl; rewrite lookup_insert_eq; simpl;
      rewrite delete_insert_id by exact Habsent; split; try reflexivity.
    symmetry. now apply delete_id.
Qed.

(** A second [addPendingNode] for a gamertag replaces the first; the entries
    of other gamertags stay; and for a gamertag that has a participant the
    entry is stored but [add] never attaches it. *)
Theorem addPendingNode_overwrites (this : t) (gamertag : string)
    (first second : NodeData) :
  addPendingNode (addPendingNode this gamertag first) gamertag second
    = addPendingNode this gamertag second ∧
  (∀ k, k ≠ gamertag →
     pendingNodes (addPendingNode this gamertag first) !! k = pendingNodes this !! k) ∧
  (∀ isSelf, is_Some (get this gamertag) →
     add (addPendingNode this gamertag first) gamertag isSelf
       = addPendingNode this gamertag first ∧
     get (add (addPendingNode this gamertag first) gamertag isSelf) gamertag
       = get this gamertag).
Proof.
  split; [| split].
  - unfold addPendingNode. simpl. now rewrite insert_insert_eq.
  - intros k Hne. simpl. now rewrite lookup_insert_ne.
  - intros isSelf Hin.
    assert (Hadd : add (addPendingNode this gamertag first) gamertag isSelf
                   = addPendingNode this gamertag first) by now apply add_present.
    split; [exact Hadd | now rewrite Hadd].
Qed.

Lemma add_participants_lookup (pm : t) (g k : string) (isSelf : bool) :
  is_Some (participants (add pm g isSelf) !! k) ↔ is_Some (participants pm !! k) ∨ k = g.
Proof.
  unfold add. destruct (has pm g) eqn:Hhas.
  - apply has_true in Hhas. split; [tauto |].
    intros [Hk | ->]; [exact Hk | exact Hhas].
  - destruct (pendingNodes pm !! g); simpl;
      (destruct (decide (k = g)) as [-> | Hne];
       [rewrite lookup_insert_eq; split; eauto
       | rewrite lookup_insert_ne by congruence; split;
         [tauto | intros [Hk | Hk]; [exact Hk | contradiction]]]).
Qed.

Lemma add_participants_kept (pm : t) (g k : string) (isSelf : bool) (p : Participant.t) :
  participants pm !! k = Some p → participants (add pm g isSelf) !! k = Some p.
Proof.
  intros Hk. unfold add. destruct (has pm g) eqn:Hhas; [exact Hk |].
  apply has_false in Hhas.
  assert (Hne : g ≠ k) by congruence.
  destruct (pendingNodes pm !! g); simpl; rewrite lookup_insert_ne by exact Hne; exact Hk.
Qed.

Lemma addListed_spec (cur : string) (list : list string) :
  ∀ pm,
    (∀ k, is_Some (participants (addListed cur pm list) !! k)
          ↔ is_Some (participants pm !! k) ∨ (k ∈ list ∧ k ≠ cur)) ∧
    (∀ k p, participants pm !! k = Some p →
            participants (addListed cur pm list) !! k = Some p).
Proof.
  induction list as [| g list IH]; intros pm; simpl.
  - split; [| tauto].
    intros k. split; [tauto |]. intros [Hk | [Hk _]]; [exact Hk | inversion Hk].
  - destruct (IH (if bool_decide (g ≠ cur) then add pm g false else pm))
      as (Hdom & Hkept).
    split.
    + intros k. rewrite Hdom, elem_of_cons.
      destruct (bool_decide (g ≠ cur)) eqn:Hg.
      * apply bool_decide_eq_true_1 in Hg. rewrite add_participants_lookup.
        split; [intros [[Hk | ->] | Hk]; tauto |].
        intros [Hk | [[-> | Hk] Hne]]; tauto.
      * apply bool_decide_eq_false_1 in Hg.
        split; [tauto |]. intros [Hk | [[-> | Hk] Hne]]; try tauto.
    + intros k p Hk. apply Hkept.
      destruct (bool_decide _); [now apply add_participants_kept | exact Hk].
Qed.

End ParticipantsManagerMore.


(** ** Rules for [hoare], [keeps] and [returns] *)

Lemma outcome_bind {A B} (m : M A) (k : A → M B) (s : App) :
  outcome ((m ≫= k) s)
  = match outcome (m s) with
    | Return a => outcome (k a (final (m s)))
    | Throw e => Throw e
    end.
Proof.
  unfold mbind, M_bind, outcome, final.
  destruct (m s) as [[[a | e] s'] t]; simpl; [| reflexivity].
  destruct (k a s') as [[o s''] t']. reflexivity.
Qed.

Lemma final_bind {A B} (m : M A) (k : A → M B) (s : App) :
  final ((m ≫= k) s)
  = match outcome (m s) with
    | Return a => final (k a (final (m s)))
    | Throw e => final (m s)
    end.
Proof.
  unfold mbind, M_bind, outcome, final.
  destruct (m s) as [[[a | e] s'] t]; simpl; [| reflexivity].
  destruct (k a s') as [[o s''] t']. reflexivity.
Qed.

Lemma hoare_bind {A B} (P : App → Prop) (m : M A) (k : A → M B)
    (R : A → App → Prop) (Q : Outcome B → App → Prop) :
  hoare P m (λ o s, match o with Return a => R a s | Throw e => Q (Throw e) s end) →
  (∀ a, hoare (R a) (k a) Q) →
  hoare P (m ≫= k) Q.
Proof.
  intros Hm Hk s Hs. specialize (Hm s Hs).
  rewrite outcome_bind, final_bind.
  destruct (outcome (m s)) as [a | e]; [now apply Hk | exact Hm].
Qed.

Lemma keeps_bind {A B} (I : App → Prop) (m : M A) (k : A → M B) :
  keeps I m → (∀ a, keeps I (k a)) → keeps I (m ≫= k).
Proof.
  intros Hm Hk. apply (hoare_bind I m k (λ _ s, I s)); [| exact Hk].
  intros s Hs. specialize (Hm s Hs). simpl in Hm. now destruct (outcome (m s)).
Qed.

Lemma keeps_get_bind {B} (I : App → Prop) (k : App → M B) :
  (∀ s0, I s0 → keeps I (k s0)) → keeps I (get ≫= k).
Proof.
  intros Hk s Hs. unfold keeps, hoare in *. rewrite final_bind. simpl. now apply Hk.
Qed.

Lemma keeps_tryCatch (I : App → Prop) (body : M unit) (handler : Exn → M unit) :
  keeps I body → (∀ e, keeps I (handler e)) → keeps I (tryCatch body handler).
Proof.
  intros Hb Hh s Hs. specialize (Hb s Hs). unfold tryCatch, final in *.
  destruct (body s) as [[[a | e] s'] t] eqn:Hrun; simpl in *; [exact Hb |].
  specialize (Hh e s' Hb). unfold final in Hh.
  destruct (handler e s') as [[o s''] t']. exact Hh.
Qed.

Lemma keeps_forEach {A} (I : App → Prop) (xs : list A) (body : A → M unit) :
  (∀ x, keeps I (body x)) → keeps I (forEach xs body).
Proof.
  intros Hb. induction xs as [| x xs IH]; [intros s Hs; exact Hs |].
  simpl. apply keeps_bind; [apply Hb | intros _; exact IH].
Qed.

Lemma keeps_unchanged {A} (I : App → Prop) (m : M A) :
  (∀ s, final (m s) = s) → keeps I m.
Proof. intros Hm s Hs. simpl. now rewrite Hm. Qed.

Lemma returns_bind {A B} (m : M A) (k : A → M B) :
  returns m → (∀ a, returns (k a)) → returns (m ≫= k).
Proof.
  intros Hm Hk s. rewrite outcome_bind. destruct (Hm s) as [a ->]. apply Hk.
Qed.

Lemma returns_tryCatch (body : M unit) (handler : Exn → M unit) :
  (∀ e, returns (handler e)) → returns (tryCatch body handler).
Proof.
  intros Hh s. unfold tryCatch, outcome.
  destruct (body s) as [[[a | e] s'] t]; simpl; [eauto |].
  destruct (Hh e s') as [a Ha]. unfold outcome in Ha.
  destruct (handler e s') as [[o s''] t']. simpl in *. eauto.
Qed.

Lemma returns_forEach {A} (xs : list A) (body : A → M unit) :
  (∀ x, returns (body x)) → returns (forEach xs body).
Proof.
  intros Hb. induction xs as [| x xs IH]; [intros s; now exists tt |].
  simpl. apply returns_bind; [apply Hb | intros _; exact IH].
Qed.

(** One step of a proof that a method keeps an invariant or returns: the
    rule for the construct at the head. *)
Ltac method_step :=
  lazymatch goal with
  | |- keeps _ (get ≫= _) => apply keeps_get_bind; intros ? ?
  | |- keeps _ (_ ≫= _) => apply keeps_bind; [| intros ?]
  | |- keeps _ (tryCatch _ _) => apply keeps_tryCatch; [| intros ?]
  | |- keeps _ (forEach _ _) => apply keeps_forEach; intros ?
  | |- keeps _ (emit _) => intros ? ?; assumption
  | |- keeps _ skip => intros ? ?; assumption
  | |- keeps _ (mret _) => intros ? ?; assumption
  | |- keeps _ (throw _) => intros ? ?; assumption
  | |- keeps _ (if ?b then _ else _) => destruct b eqn:?
  | |- keeps _ (match ?x with _ => _ end) => destruct x eqn:?
  | |- returns (_ ≫= _) => apply returns_bind; [| intros ?]
  | |- returns (tryCatch _ _) => apply returns_tryCatch; intros ?
  | |- returns (forEach _ _) => apply returns_forEach; intros ?
  | |- returns (if ?b then _ else _) => destruct b eqn:?
  | |- returns (match ?x with _ => _ end) => destruct x eqn:?
  | |- returns (emit _) => intros ?; eexists; reflexivity
  | |- returns skip => intros ?; eexists; reflexivity
  | |- returns (mret _) => intros ?; eexists; reflexivity
  | |- returns get => intros ?; eexists; reflexivity
  | |- returns (put _) => intros ?; eexists; reflexivity
  | |- returns (modify _) => intros ?; eexists; reflexivity
  | |- returns fresh => intros ?; eexists; reflexivity
  | |- returns (storePc _ _) => intros ?; eexists; reflexivity
  end.

(** ** The retry count stays within 0..3 *)

Lemma retry_storePc (remote : string) (pc : RTCPeerConnection) :
  retryCountInRange pc → keeps retryCountsInRange (storePc remote pc).
Proof.
  intros Hpc s Hs. unfold storePc, modify, final. simpl.
  apply map_Forall_insert_2; assumption.
Qed.

Lemma retry_createPeerConnection (remote : string) :
  keeps retryCountsInRange (createPeerConnection remote).
Proof.
  intros s Hs. destruct (peers s !! remote) as [pc |] eqn:Hpc.
  - now rewrite (createPeerConnection_existing s remote pc Hpc).
  - rewrite (createPeerConnection_fresh s remote Hpc). unfold final. simpl.
    apply map_Forall_insert_2; [| exact Hs]. unfold retryCountInRange. simpl. lia.
Qed.

Lemma retry_closePeerConnection (gamertag : string) :
  keeps retryCountsInRange (closePeerConnection gamertag).
Proof.
  intros s Hs. unfold closePeerConnection. run_M.
  destruct (peers s !! gamertag); simpl; [| exact Hs].
  unfold final. simpl. now apply map_Forall_delete.
Qed.

Lemma retry_participantsManagerAdd (gamertag : string) (isSelf : bool) :
  keeps retryCountsInRange (participantsManagerAdd gamertag isSelf).
Proof.
  intros s Hs. destruct (participantsManagerAdd_run s gamertag isSelf) as (t & -> & _).
  exact Hs.
Qed.

Lemma retry_participantsManagerRemove (gamertag : string) :
  keeps retryCountsInRange (participantsManagerRemove gamertag).
Proof.
  intros s Hs. unfold participantsManagerRemove. run_M.
  destruct (ParticipantsManager.get _ _); exact Hs.
Qed.

Lemma retry_wsSend (ws : option WebSocket) (msg : Message) :
  keeps retryCountsInRange (wsSend ws msg).
Proof.
  apply keeps_unchanged. intros s. unfold wsSend.
  destruct ws as [[[| [| n]]] |]; reflexivity.
Qed.

Lemma retry_ontrack (remote : string) : keeps retryCountsInRange (ontrack remote).
Proof.
  intros s Hs. unfold ontrack, fresh. run_M.
  destruct (ParticipantsManager.get _ _); exact Hs.
Qed.

Section RetryCount.
Context `{Platform}.

Lemma retry_pcCreateOffer (remote : string) :
  keeps retryCountsInRange (pcCreateOffer remote).
Proof.
  apply keeps_unchanged. intros s. unfold pcCreateOffer, thePc. run_M.
  destruct (peers s !! remote); simpl; [destruct (createOffer _) |]; reflexivity.
Qed.

Lemma retry_pcCreateAnswer (remote : string) :
  keeps retryCountsInRange (pcCreateAnswer remote).
Proof.
  apply keeps_unchanged. intros s. unfold pcCreateAnswer, thePc. run_M.
  destruct (peers s !! remote); simpl; [destruct (createAnswer _) |]; reflexivity.
Qed.

Lemma retry_pcAddIceCandidate (remote : string) (c : Candidate) :
  keeps retryCountsInRange (pcAddIceCandidate remote c).
Proof.
  apply keeps_unchanged. intros s. unfold pcAddIceCandidate, thePc. run_M.
  destruct (peers s !! remote); simpl; [destruct (addIceCandidate _ _) |]; reflexivity.
Qed.

Lemma retry_pcSetLocalDescription (remote : string) (d : SessionDescription) :
  keeps retryCountsInRange (pcSetLocalDescription remote d).
Proof.
  intros s Hs. unfold pcSetLocalDescription, thePc, storePc. run_M.
  destruct (peers s !! remote) as [pc |] eqn:Hpc; simpl; [| exact Hs].
  destruct (setLocalDescription pc d); simpl; [| exact Hs].
  apply map_Forall_insert_2; [| exact Hs]. apply (Hs remote pc Hpc).
Qed.

Lemma retry_pcSetRemoteDescription (remote : string) (d : SessionDescription) :
  keeps retryCountsInRange (pcSetRemoteDescription remote d).
Proof.
  intros s Hs. unfold pcSetRemoteDescription, thePc, storePc. run_M.
  destruct (peers s !! remote) as [pc |] eqn:Hpc; simpl; [| exact Hs].
  destruct (setRemoteDescription pc d); simpl; [| exact Hs].
  apply map_Forall_insert_2; [| exact Hs]. apply (Hs remote pc Hpc).
Qed.

Lemma retry_sendOfferIfOpen (offer : SessionDescription) (remote : string) :
  keeps retryCountsInRange (sendOfferIfOpen offer remote).
Proof.
  apply keeps_unchanged. intros s. unfold sendOfferIfOpen. run_M.
  destruct (wsIsOpen _); reflexivity.
Qed.

Ltac retry_prim :=
  lazymatch goal with
  | |- keeps _ (createPeerConnection _) => apply retry_createPeerConnection
  | |- keeps _ (closePeerConnection _) => apply retry_closePeerConnection
  | |- keeps _ (pcCreateOffer _) => apply retry_pcCreateOffer
  | |- keeps _ (pcCreateAnswer _) => apply retry_pcCreateAnswer
  | |- keeps _ (pcSetLocalDescription _ _) => apply retry_pcSetLocalDescription
  | |- keeps _ (pcSetRemoteDescription _ _) => apply retry_pcSetRemoteDescription
  | |- keeps _ (pcAddIceCandidate _ _) => apply retry_pcAddIceCandidate
  | |- keeps _ (sendOfferIfOpen _ _) => apply retry_sendOfferIfOpen
  | |- keeps _ (participantsManagerAdd _ _) => apply retry_participantsManagerAdd
  | |- keeps _ (participantsManagerRemove _) => apply retry_participantsManagerRemove
  | |- keeps _ (wsSend _ _) => apply retry_wsSend
  | |- keeps _ (ontrack _) => apply retry_ontrack
  end.

Lemma retry_attemptReconnect (remote : string) :
  keeps retryCountsInRange (attemptReconnect remote).
Proof.
  unfold attemptReconnect. apply keeps_get_bind. intros s0 Hs0.
  destruct (_ >? 3)%Z eqn:Hgt; [intros s Hs; exact Hs |].
  assert (Hrange : retryCountInRange
            (setReconnectAttempts newRTCPeerConnection
               (match peers s0 !! remote with
                | Some pc => _reconnectAttempts pc
                | None => 0
                end + 1))).
  { unfold retryCountInRange. simpl.
    rewrite Z.gtb_ltb in Hgt. apply Z.ltb_ge in Hgt.
    destruct (peers s0 !! remote) as [pc |] eqn:Hpc; [| lia].
    pose proof (Hs0 remote pc Hpc) as Hpc0. unfold retryCountInRange in Hpc0. lia. }
  repeat first [retry_prim | method_step].
  apply retry_storePc. exact Hrange.
Qed.

Lemma retry_closeAllConnections : keeps retryCountsInRange closeAllConnections.
Proof. unfold closeAllConnections. repeat first [retry_prim | method_step]. Qed.

Lemma retry_reconnectAllPeers : keeps retryCountsInRange reconnectAllPeers.
Proof.
  unfold reconnectAllPeers.
  repeat first [apply retry_closeAllConnections | retry_prim | method_step].
Qed.

Lemma retry_onnegotiationneeded (remote : string) :
  keeps retryCountsInRange (onnegotiationneeded remote).
Proof. unfold onnegotiationneeded. repeat first [retry_prim | method_step]. Qed.

Lemma retry_onconnectionstatechange (remote : string) (st : ConnectionState) :
  keeps retryCountsInRange (onconnectionstatechange remote st).
Proof.
  unfold onconnectionstatechange.
  repeat first [apply retry_attemptReconnect | retry_prim | method_step].
  - apply retry_storePc.
    match goal with
    | Hs : retryCountsInRange ?s0, Hpc : peers ?s0 !! remote = Some ?pc |- _ =>
        exact (Hs remote pc Hpc)
    end.
  - apply retry_storePc. unfold retryCountInRange. simpl. lia.
Qed.

Lemma retry_oniceconnectionstatechange (remote : string) (st : IceConnectionState) :
  keeps retryCountsInRange (oniceconnectionstatechange remote st).
Proof.
  unfold oniceconnectionstatechange.
  repeat first [retry_prim | method_step].
  apply retry_storePc.
  match goal with
  | Hs : retryCountsInRange ?s0, Hpc : peers ?s0 !! remote = Some ?pc |- _ =>
      exact (Hs remote pc Hpc)
  end.
Qed.

Lemma retry_onicecandidate (remote : string) (candidate : option Candidate) :
  keeps retryCountsInRange (onicecandidate remote candidate).
Proof. unfold onicecandidate. repeat first [retry_prim | method_step]. Qed.

Lemma retry_replaceAudioTrack (gamertag effect : string) (newTrack : Track)
    (pc : RTCPeerConnection) :
  _reconnectAttempts (replaceAudioTrack gamertag effect newTrack pc).1
  = _reconnectAttempts pc.
Proof.
  unfold replaceAudioTrack.
  destruct (list_find _ _) as [[i audioSender] |]; [| reflexivity].
  destruct (replaceTrack _ _ _); reflexivity.
Qed.

Lemma retry_replaceTracks (effect : string) (newTrack : Track) :
  keeps retryCountsInRange (replaceTracks effect newTrack).
Proof.
  intros s Hs. unfold replaceTracks.
  unfold mbind at 1, M_bind at 1, get at 1.
  unfold mbind at 1, M_bind at 1, put at 1.
  unfold mbind at 1, M_bind at 1.
  rewrite forEach_traces. unfold emit, final. simpl.
  intros gamertag pc'. norm_app. rewrite lookup_fmap, map_lookup_imap.
  destruct (peers s !! gamertag) as [pc |] eqn:Hpc; simpl; [| discriminate].
  intros [= <-]. unfold retryCountInRange. rewrite retry_replaceAudioTrack.
  exact (Hs gamertag pc Hpc).
Qed.

Lemma retry_applyEffect (effect : string) (now : Z) (peerConnections : PeerConnectionsArg) :
  keeps retryCountsInRange (applyEffect effect now peerConnections).
Proof.
  unfold applyEffect. apply keeps_get_bind. intros s0 Hs0.
  destruct (AudioEffectsManager.inputNode _); [| intros s Hs; exact Hs].
  destruct (_ && _); [intros s Hs; exact Hs |].
  destruct (_ && _); [intros s Hs; exact Hs |].
  apply keeps_bind; [intros s Hs; exact Hs0 | intros _].
  repeat first [apply retry_replaceTracks | method_step];
    try (intros s Hs; exact Hs).
Qed.

Lemma retry_handleSignaling (data : Message) :
  keeps retryCountsInRange (handleSignaling data).
Proof.
  unfold handleSignaling, getPeerConnection.
  repeat first [apply retry_reconnectAllPeers | retry_prim | method_step].
Qed.

(** Whatever reaches the session (a signaling message, a connection event,
    an effect request, a full reconnection, a close of all links), the retry
    count of every registered link stays one of 0, 1, 2, 3. *)
Theorem retry_count_invariant (e : Entry) (s : App) :
  retryCountsInRange s → retryCountsInRange (final (dispatch e s)).
Proof.
  destruct e; simpl.
  - apply retry_handleSignaling.
  - apply retry_onnegotiationneeded.
  - apply retry_onconnectionstatechange.
  - apply retry_oniceconnectionstatechange.
  - apply retry_onicecandidate.
  - apply retry_ontrack.
  - apply retry_applyEffect.
  - apply retry_reconnectAllPeers.
  - apply retry_closeAllConnections.
Qed.
End RetryCount.

(** ** A participant has no pending resource *)

Lemma keeps_registry {A} (m : M A) :
  (∀ s, participantsManager (final (m s)) = participantsManager s) →
  keeps pendingOnlyForUnknown m.
Proof.
  intros Hm s Hs gamertag. simpl. rewrite Hm. apply Hs.
Qed.

Lemma pending_storePc (remote : string) (pc : RTCPeerConnection) :
  keeps pendingOnlyForUnknown (storePc remote pc).
Proof. apply keeps_registry. reflexivity. Qed.

Lemma pending_createPeerConnection (remote : string) :
  keeps pendingOnlyForUnknown (createPeerConnection remote).
Proof.
  apply keeps_registry. intros s.
  destruct (peers s !! remote) as [pc |] eqn:Hpc.
  - now rewrite (createPeerConnection_existing s remote pc Hpc).
  - now rewrite (createPeerConnection_fresh s remote Hpc).
Qed.

Lemma pending_closePeerConnection (gamertag : string) :
  keeps pendingOnlyForUnknown (closePeerConnection gamertag).
Proof.
  apply keeps_registry. intros s. unfold closePeerConnection. run_M.
  destruct (peers s !! gamertag); reflexivity.
Qed.

Lemma pending_wsSend (ws : option WebSocket) (msg : Message) :
  keeps pendingOnlyForUnknown (wsSend ws msg).
Proof.
  apply keeps_unchanged. intros s. unfold wsSend.
  destruct ws as [[[| [| n]]] |]; reflexivity.
Qed.

Lemma pending_add (this : ParticipantsManager.t) (gamertag k : string) (isSelf : bool) :
  (∀ g, is_Some (ParticipantsManager.participants this !! g) →
        ParticipantsManager.pendingNodes this !! g = None) →
  is_Some (ParticipantsManager.participants
             (ParticipantsManager.add this gamertag isSelf) !! k) →
  ParticipantsManager.pendingNodes (ParticipantsManager.add this gamertag isSelf) !! k
  = None.
Proof.
  intros Hinv. unfold ParticipantsManager.add.
  destruct (ParticipantsManager.has this gamertag) eqn:Hhas; [apply Hinv |].
  destruct (ParticipantsManager.pendingNodes this !! gamertag) eqn:Hpending; simpl;
    destruct (decide (gamertag = k)) as [-> | Hne];
    rewrite ?lookup_insert_eq, ?lookup_delete_eq, ?lookup_insert_ne, ?lookup_delete_ne
      by assumption; auto.
Qed.

Lemma pending_participantsManagerAdd (gamertag : string) (isSelf : bool) :
  keeps pendingOnlyForUnknown (participantsManagerAdd gamertag isSelf).
Proof.
  intros s Hs. destruct (participantsManagerAdd_run s gamertag isSelf) as (t & -> & _).
  intros k. unfold final. simpl. now apply pending_add.
Qed.

Lemma pending_participantsManagerRemove (gamertag : string) :
  keeps pendingOnlyForUnknown (participantsManagerRemove gamertag).
Proof.
  intros s Hs.
  assert (Hfinal : final (participantsManagerRemove gamertag s)
                   = setParticipantsManager s
                       (ParticipantsManager.remove (participantsManager s) gamertag)).
  { unfold participantsManagerRemove. run_M.
    destruct (ParticipantsManager.get _ _); reflexivity. }
  simpl. rewrite Hfinal. intros k. simpl. rewrite remove_pendingNodes.
  unfold ParticipantsManager.remove.
  destruct (ParticipantsManager.participants (participantsManager s) !! gamertag)
    eqn:Hget; simpl; [| apply Hs].
  destruct (decide (gamertag = k)) as [-> | Hne].
  - rewrite lookup_delete_eq. intros [? ?]. discriminate.
  - rewrite lookup_delete_ne by exact Hne. apply Hs.
Qed.

Lemma pending_ontrack (remote : string) : keeps pendingOnlyForUnknown (ontrack remote).
Proof.
  intros s Hs. unfold ontrack, fresh. run_M.
  destruct (ParticipantsManager.get (participantsManager s) remote) as [p |] eqn:Hget;
    unfold final; simpl; intros k; simpl.
  - destruct (decide (remote = k)) as [-> | Hne].
    + intros _. apply Hs. unfold ParticipantsManager.get in Hget. rewrite Hget. eauto.
    + rewrite lookup_insert_ne by exact Hne. apply Hs.
  - destruct (decide (remote = k)) as [-> | Hne].
    + unfold ParticipantsManager.get in Hget. rewrite Hget. intros [? ?]. discriminate.
    + rewrite lookup_insert_ne by exact Hne. apply Hs.
Qed.

Section PendingResources.
Context `{Platform}.

Lemma pending_pcCreateOffer (remote : string) :
  keeps pendingOnlyForUnknown (pcCreateOffer remote).
Proof.
  apply keeps_unchanged. intros s. unfold pcCreateOffer, thePc. run_M.
  destruct (peers s !! remote); simpl; [destruct (createOffer _) |]; reflexivity.
Qed.

Lemma pending_pcCreateAnswer (remote : string) :
  keeps pendingOnlyForUnknown (pcCreateAnswer remote).
Proof.
  apply keeps_unchanged. intros s. unfold pcCreateAnswer, thePc. run_M.
  destruct (peers s !! remote); simpl; [destruct (createAnswer _) |]; reflexivity.
Qed.

Lemma pending_pcAddIceCandidate (remote : string) (c : Candidate) :
  keeps pendingOnlyForUnknown (pcAddIceCandidate remote c).
Proof.
  apply keeps_unchanged. intros s. unfold pcAddIceCandidate, thePc. run_M.
  destruct (peers s !! remote); simpl; [destruct (addIceCandidate _ _) |]; reflexivity.
Qed.

Lemma pending_pcSetLocalDescription (remote : string) (d : SessionDescription) :
  keeps pendingOnlyForUnknown (pcSetLocalDescription remote d).
Proof.
  apply keeps_registry. intros s. unfold pcSetLocalDescription, thePc, storePc. run_M.
  destruct (peers s !! remote) as [pc |]; simpl; [| reflexivity].
  destruct (setLocalDescription pc d); reflexivity.
Qed.

Lemma pending_pcSetRemoteDescription (remote : string) (d : SessionDescription) :
  keeps pendingOnlyForUnknown (pcSetRemoteDescription remote d).
Proof.
  apply keeps_registry. intros s. unfold pcSetRemoteDescription, thePc, storePc. run_M.
  destruct (peers s !! remote) as [pc |]; simpl; [| reflexivity].
  destruct (setRemoteDescription pc d); reflexivity.
Qed.

Lemma pending_sendOfferIfOpen (offer : SessionDescription) (remote : string) :
  keeps pendingOnlyForUnknown (sendOfferIfOpen offer remote).
Proof.
  apply keeps_unchanged. intros s. unfold sendOfferIfOpen. run_M.
  destruct (wsIsOpen _); reflexivity.
Qed.

Lemma pending_replaceTracks (effect : string) (newTrack : Track) :
  keeps pendingOnlyForUnknown (replaceTracks effect newTrack).
Proof.
  apply keeps_registry. intros s.
  destruct (replaceTracks_run effect newTrack s) as (pcs & t & ->). reflexivity.
Qed.

Ltac pending_prim :=
  lazymatch goal with
  | |- keeps _ (createPeerConnection _) => apply pending_createPeerConnection
  | |- keeps _ (closePeerConnection _) => apply pending_closePeerConnection
  | |- keeps _ (pcCreateOffer _) => apply pending_pcCreateOffer
  | |- keeps _ (pcCreateAnswer _) => apply pending_pcCreateAnswer
  | |- keeps _ (pcSetLocalDescription _ _) => apply pending_pcSetLocalDescription
  | |- keeps _ (pcSetRemoteDescription _ _) => apply pending_pcSetRemoteDescription
  | |- keeps _ (pcAddIceCandidate _ _) => apply pending_pcAddIceCandidate
  | |- keeps _ (sendOfferIfOpen _ _) => apply pending_sendOfferIfOpen
  | |- keeps _ (participantsManagerAdd _ _) => apply pending_participantsManagerAdd
  | |- keeps _ (participantsManagerRemove _) => apply pending_participantsManagerRemove
  | |- keeps _ (wsSend _ _) => apply pending_wsSend
  | |- keeps _ (ontrack _) => apply pending_ontrack
  | |- keeps _ (storePc _ _) => apply pending_storePc
  | |- keeps _ (replaceTracks _ _) => apply pending_replaceTracks
  end.

Lemma pending_attemptReconnect (remote : string) :
  keeps pendingOnlyForUnknown (attemptReconnect remote).
Proof. unfold attemptReconnect. repeat first [pending_prim | method_step]. Qed.

Lemma pending_closeAllConnections : keeps pendingOnlyForUnknown closeAllConnections.
Proof. unfold closeAllConnections. repeat first [pending_prim | method_step]. Qed.

Lemma pending_reconnectAllPeers : keeps pendingOnlyForUnknown reconnectAllPeers.
Proof.
  unfold reconnectAllPeers.
  repeat first [apply pending_closeAllConnections | pending_prim | method_step].
Qed.

Lemma pending_applyEffect (effect : string) (now : Z)
    (peerConnections : PeerConnectionsArg) :
  keeps pendingOnlyForUnknown (applyEffect effect now peerConnections).
Proof.
  unfold applyEffect. apply keeps_get_bind. intros s0 Hs0.
  destruct (AudioEffectsManager.inputNode _); [| intros s Hs; exact Hs].
  destruct (_ && _); [intros s Hs; exact Hs |].
  destruct (_ && _); [intros s Hs; exact Hs |].
  apply keeps_bind; [intros s Hs; exact Hs0 | intros _].
  repeat first [pending_prim | method_step]; try (intros s Hs; exact Hs).
Qed.

(** Whatever reaches the session, no gamertag ends up with a participant
    and a pending audio resource at once: a resource is stored as pending
    only for a gamertag without participant, and [add] consumes it. *)
Theorem pending_invariant (e : Entry) (s : App) :
  pendingOnlyForUnknown s → pendingOnlyForUnknown (final (dispatch e s)).
Proof.
  revert s. change (keeps pendingOnlyForUnknown (dispatch e)).
  destruct e; simpl.
  - unfold handleSignaling, getPeerConnection.
    repeat first [apply pending_reconnectAllPeers | pending_prim | method_step].
  - unfold onnegotiationneeded. repeat first [pending_prim | method_step].
  - unfold onconnectionstatechange.
    repeat first [apply pending_attemptReconnect | pending_prim | method_step].
  - unfold oniceconnectionstatechange. repeat first [pending_prim | method_step].
  - unfold onicecandidate. repeat first [pending_prim | method_step].
  - apply pending_ontrack.
  - apply pending_applyEffect.
  - apply pending_reconnectAllPeers.
  - apply pending_closeAllConnections.
Qed.

(** ** No exception leaves a handler *)

Lemma returns_createPeerConnection (remote : string) :
  returns (createPeerConnection remote).
Proof.
  intros s. destruct (peers s !! remote) as [pc |] eqn:Hpc.
  - rewrite (createPeerConnection_existing s remote pc Hpc). eauto.
  - rewrite (createPeerConnection_fresh s remote Hpc). eauto.
Qed.

Lemma returns_closePeerConnection (gamertag : string) :
  returns (closePeerConnection gamertag).
Proof.
  intros s. unfold closePeerConnection. run_M.
  destruct (peers s !! gamertag); eauto.
Qed.

Lemma returns_participantsManagerAdd (gamertag : string) (isSelf : bool) :
  returns (participantsManagerAdd gamertag isSelf).
Proof.
  intros s. destruct (participantsManagerAdd_run s gamertag isSelf) as (t & -> & _). eauto.
Qed.

Lemma returns_participantsManagerRemove (gamertag : string) :
  returns (participantsManagerRemove gamertag).
Proof.
  intros s. unfold participantsManagerRemove. run_M.
  destruct (ParticipantsManager.get _ _); eauto.
Qed.

Lemma returns_replaceTracks (effect : string) (newTrack : Track) :
  returns (replaceTracks effect newTrack).
Proof.
  intros s. destruct (replaceTracks_run effect newTrack s) as (pcs & t & ->). eauto.
Qed.

Lemma returns_ontrack (remote : string) : returns (ontrack remote).
Proof.
  intros s. unfold ontrack, fresh. run_M. destruct (ParticipantsManager.get _ _); eauto.
Qed.

Ltac returns_prim :=
  lazymatch goal with
  | |- returns (createPeerConnection _) => apply returns_createPeerConnection
  | |- returns (closePeerConnection _) => apply returns_closePeerConnection
  | |- returns (participantsManagerAdd _ _) => apply returns_participantsManagerAdd
  | |- returns (participantsManagerRemove _) => apply returns_participantsManagerRemove
  | |- returns (replaceTracks _ _) => apply returns_replaceTracks
  | |- returns (ontrack _) => apply returns_ontrack
  end.

Lemma returns_attemptReconnect (remote : string) : returns (attemptReconnect remote).
Proof. unfold attemptReconnect. repeat first [returns_prim | method_step]. Qed.

Lemma returns_closeAllConnections : returns closeAllConnections.
Proof. unfold closeAllConnections. repeat first [returns_prim | method_step]. Qed.

Lemma returns_reconnectAllPeers : returns reconnectAllPeers.
Proof.
  unfold reconnectAllPeers.
  repeat first [apply returns_closeAllConnections | returns_prim | method_step].
Qed.

(** No exception leaves an entry point: what the browser or the socket
    rejects inside is caught and logged there. *)
Theorem handlers_never_throw (e : Entry) (s : App) :
  outcome (dispatch e s) = Return tt.
Proof.
  assert (Hreturns : returns (dispatch e)).
  { destruct e; simpl.
    - unfold handleSignaling. apply returns_tryCatch. intros ?.
      intros ?; eexists; reflexivity.
    - unfold onnegotiationneeded. repeat first [returns_prim | method_step].
    - unfold onconnectionstatechange.
      repeat first [apply returns_attemptReconnect | returns_prim | method_step].
    - unfold oniceconnectionstatechange.
      repeat first [returns_prim | method_step].
    - unfold onicecandidate. repeat first [returns_prim | method_step].
    - apply returns_ontrack.
    - unfold applyEffect. repeat first [returns_prim | method_step].
    - apply returns_reconnectAllPeers.
    - apply returns_closeAllConnections. }
  destruct (Hreturns s) as [[] ->]. reflexivity.
Qed.
End PendingResources.


(** ** Closing links *)

Lemma setPeers_same (s : App) : setPeers s (peers s) = s.
Proof. destruct s as [? ? ? ? [? ? ?] ?]. reflexivity. Qed.

Lemma setSignalingState_same (pc : RTCPeerConnection) :
  setSignalingState pc (signalingState pc) = pc.
Proof. now destruct pc. Qed.

(** [closePeerConnection], link or no link. *)
Lemma closePeerConnection_run (s : App) (gamertag : string) :
  closePeerConnection gamertag s
  = (Return tt, setPeers s (delete gamertag (peers s)),
     if bool_decide (is_Some (peers s !! gamertag))
     then [PcClose gamertag; ConsoleLog (LogConnectionClosed gamertag)] else []).
Proof.
  destruct (peers s !! gamertag) as [pc |] eqn:Hpc.
  - rewrite (closePeerConnection_existing s gamertag pc Hpc). reflexivity.
  - unfold closePeerConnection. run_M. rewrite Hpc.
    rewrite delete_id by exact Hpc. now rewrite setPeers_same.
Qed.

Lemma foldr_delete_delete {A} (m : gmap string A) (l : list string) (g : string) :
  foldr delete (delete g m) l = delete g (foldr delete m l).
Proof.
  induction l as [| k l IH]; simpl; [reflexivity |].
  rewrite IH. apply delete_delete.
Qed.

Lemma foldr_delete_lookup {A} (m : gmap string A) (l : list string) (k : string) :
  foldr delete m l !! k = if bool_decide (k ∈ l) then None else m !! k.
Proof.
  induction l as [| g l IH]; simpl; [reflexivity |].
  destruct (decide (g = k)) as [-> | Hne].
  - rewrite lookup_delete_eq. now rewrite bool_decide_eq_true_2 by apply list_elem_of_here.
  - rewrite lookup_delete_ne by exact Hne. rewrite IH.
    destruct (decide (k ∈ l)) as [Hin | Hout].
    + rewrite !bool_decide_eq_true_2; [reflexivity | now apply list_elem_of_further | exact Hin].
    + rewrite !bool_decide_eq_false_2; [reflexivity | | exact Hout].
      intros Hin. apply elem_of_cons in Hin as [-> | Hin]; contradiction.
Qed.

Lemma forEach_closePeerConnection (l : list string) (s : App) :
  NoDup l →
  forEach l closePeerConnection s
  = (Return tt, setPeers s (foldr delete (peers s) l),
     concat ((λ g, if bool_decide (is_Some (peers s !! g))
                   then [PcClose g; ConsoleLog (LogConnectionClosed g)] else [])
             <$> l)).
Proof.
  revert s. induction l as [| g l IH]; intros s Hnodup.
  - simpl. unfold skip, mret, M_ret. now rewrite setPeers_same.
  - apply NoDup_cons in Hnodup as [Hg Hnodup]. simpl.
    unfold mbind, M_bind. rewrite closePeerConnection_run, (IH _ Hnodup).
    norm_app. f_equal; [f_equal |].
    + f_equal. apply foldr_delete_delete.
    + f_equal. f_equal. apply list_fmap_ext. intros i k Hk.
      apply list_elem_of_lookup_2 in Hk.
      rewrite lookup_delete_ne by (intros ->; contradiction). reflexivity.
Qed.

Lemma elem_of_concat {A} (x : A) (ls : list (list A)) :
  x ∈ concat ls ↔ ∃ l, x ∈ l ∧ l ∈ ls.
Proof.
  induction ls as [| l ls IH]; simpl.
  - split; [intros Hin; inversion Hin | intros (l & _ & Hl); inversion Hl].
  - rewrite elem_of_app, IH. split.
    + intros [Hin | (l' & Hin & Hl')].
      * exists l. split; [exact Hin | apply list_elem_of_here].
      * exists l'. split; [exact Hin | now apply list_elem_of_further].
    + intros (l' & Hin & Hl'). apply elem_of_cons in Hl' as [-> | Hl'];
        [now left | right; eauto].
Qed.

Lemma keys_dom {A} (m : gmap string A) : list_to_set (map_to_list m).*1 = dom m.
Proof.
  apply set_eq. intros k. rewrite elem_of_list_to_set, elem_of_dom. split.
  - intros Hin. apply list_elem_of_fmap in Hin as ([k' x] & -> & Hin).
    apply elem_of_map_to_list in Hin. eauto.
  - intros [x Hx]. apply list_elem_of_fmap. exists (k, x).
    split; [reflexivity | now apply elem_of_map_to_list].
Qed.

Lemma elem_of_keys {A} (m : gmap string A) (k : string) :
  k ∈ (map_to_list m).*1 ↔ is_Some (m !! k).
Proof. rewrite <- elem_of_dom, <- keys_dom, elem_of_list_to_set. reflexivity. Qed.

(** [closeAllConnections], written out. *)
Lemma closeAllConnections_run (s : App) :
  closeAllConnections s
  = (Return tt, setPeers s ∅,
     concat ((λ g, [PcClose g; ConsoleLog (LogConnectionClosed g)])
             <$> (map_to_list (peers s)).*1)).
Proof.
  unfold closeAllConnections. unfold mbind, M_bind, get.
  rewrite forEach_closePeerConnection by apply NoDup_fst_map_to_list.
  simpl. f_equal; [f_equal; f_equal |].
  - apply map_eq. intros k.
    rewrite foldr_delete_lookup, lookup_empty.
    destruct (bool_decide _) eqn:Hk; [reflexivity |].
    apply bool_decide_eq_false_1 in Hk.
    destruct (peers s !! k) as [pc |] eqn:Hpc; [| reflexivity].
    exfalso. apply Hk. apply elem_of_keys. eauto.
  - f_equal. apply list_fmap_ext. intros i g Hg.
    apply list_elem_of_lookup_2 in Hg. apply elem_of_keys in Hg as [pc Hpc].
    rewrite bool_decide_eq_true_2 by eauto. reflexivity.
Qed.

Lemma close_events_close (pcs : gmap string RTCPeerConnection) (gamertag : string) :
  PcClose gamertag
    ∈ concat ((λ g, [PcClose g; ConsoleLog (LogConnectionClosed g)])
              <$> (map_to_list pcs).*1)
  ↔ is_Some (pcs !! gamertag).
Proof.
  rewrite elem_of_concat, <- elem_of_keys. split.
  - intros (evs & Hin & Hevs).
    apply list_elem_of_fmap in Hevs as (g & -> & Hg).
    apply elem_of_cons in Hin as [[= ->] | Hin]; [exact Hg |].
    apply list_elem_of_singleton in Hin. discriminate.
  - intros Hg.
    exists [PcClose gamertag; ConsoleLog (LogConnectionClosed gamertag)].
    split; [apply list_elem_of_here |].
    apply list_elem_of_fmap. exists gamertag. split; [reflexivity | exact Hg].
Qed.

Lemma close_events_only (pcs : gmap string RTCPeerConnection) (e : Event) :
  e ∈ concat ((λ g, [PcClose g; ConsoleLog (LogConnectionClosed g)])
              <$> (map_to_list pcs).*1) →
  ∃ gamertag, e = PcClose gamertag ∨ e = ConsoleLog (LogConnectionClosed gamertag).
Proof.
  intros Hin. apply elem_of_concat in Hin as (evs & Hin & Hevs).
  apply list_elem_of_fmap in Hevs as (g & -> & Hg). exists g.
  apply elem_of_cons in Hin as [-> | Hin]; [now left |].
  apply list_elem_of_singleton in Hin. now right.
Qed.

(** [closeAllConnections] leaves no link registered and the rest of the
    session as it was; it closes exactly the links that were registered, and
    does nothing but close and log. *)
Theorem closeAllConnections_closes_all (s : App) :
  ∃ t,
    closeAllConnections s = (Return tt, setPeers s ∅, t) ∧
    (∀ gamertag, PcClose gamertag ∈ t ↔ is_Some (peers s !! gamertag)) ∧
    (∀ e, e ∈ t → ∃ gamertag,
            e = PcClose gamertag ∨ e = ConsoleLog (LogConnectionClosed gamertag)).
Proof.
  rewrite closeAllConnections_run. eexists. split; [reflexivity | split].
  - intros gamertag. apply close_events_close.
  - intros e. apply close_events_only.
Qed.

(** ** A full reconnection *)

Lemma union_singleton_elem (D : gset string) (g : string) : g ∈ D → D ∪ {[g]} = D.
Proof. set_solver. Qed.

Section Renewal.

Context `{Platform}.

Lemma renewed_insert (s : App) (D : gset string) (pcs : gmap string RTCPeerConnection)
    (g : string) (st : SignalingState) :
  dom pcs = D →
  map_Forall (λ _ pc, ∃ st, pc = setSignalingState (initialPeerConnection s) st) pcs →
  renewed s (D ∪ {[g]})
    (setPeers s (<[g := setSignalingState (initialPeerConnection s) st]> pcs)).
Proof.
  intros Hdom Hall. eexists. split; [reflexivity | split].
  - rewrite dom_insert_L, Hdom. apply union_comm_L.
  - apply map_Forall_insert_2; [eauto | exact Hall].
Qed.

Lemma renewed_same (s : App) (D : gset string) (pcs : gmap string RTCPeerConnection)
    (g : string) :
  dom pcs = D → is_Some (pcs !! g) →
  map_Forall (λ _ pc, ∃ st, pc = setSignalingState (initialPeerConnection s) st) pcs →
  renewed s (D ∪ {[g]}) (setPeers s pcs).
Proof.
  intros Hdom Hin Hall. eexists. split; [reflexivity | split; [| exact Hall]].
  apply elem_of_dom in Hin. rewrite Hdom in *.
  symmetry. now apply union_singleton_elem.
Qed.

Lemma reconnectOne_renews (s σ : App) (D : gset string) (g : string) :
  renewed s D σ →
  ∃ σ' t, reconnectOne g σ = (Return tt, σ', t) ∧ renewed s (D ∪ {[g]}) σ' ∧
          (∀ k, PcClose k ∉ t) ∧
          (∀ k, NewRTCPeerConnection k ∈ t ↔ k = g ∧ g ∉ D).
Proof.
  intros (pcs & -> & Hdom & Hall).
  unfold reconnectOne, tryCatch.
  unfold mbind at 1, M_bind at 1, emit at 1.
  unfold mbind at 1, M_bind at 1.
  destruct (pcs !! g) as [pc |] eqn:Hpc.
  - assert (Hin : g ∈ D) by (rewrite <- Hdom; apply elem_of_dom; eauto).
    rewrite (createPeerConnection_existing (setPeers s pcs) g pc) by exact Hpc.
    destruct (Hall g pc Hpc) as [st0 ->].
    unfold pcCreateOffer, pcSetLocalDescription, sendOfferIfOpen, thePc, storePc.
    run_M. norm_app. rewrite Hpc.
    destruct (createOffer _) as [offer |]; simpl.
    2: { eexists _, _. split; [reflexivity |].
         split; [apply renewed_same; eauto |]. split; intros k; trace_solver. }
    norm_app. rewrite Hpc.
    destruct (setLocalDescription _ offer) as [st |]; simpl.
    2: { eexists _, _. split; [reflexivity |].
         split; [apply renewed_same; eauto |]. split; intros k; trace_solver. }
    norm_app.
    destruct (wsIsOpen _); simpl; eexists _, _; (split; [reflexivity |]);
      norm_app; (split; [apply (renewed_insert s D pcs g st); assumption |]);
      split; intros k; trace_solver.
  - assert (Hout : g ∉ D) by (rewrite <- Hdom; now apply not_elem_of_dom).
    rewrite (createPeerConnection_fresh (setPeers s pcs) g) by exact Hpc.
    unfold pcCreateOffer, pcSetLocalDescription, sendOfferIfOpen, thePc, storePc.
    run_M. norm_app. rewrite lookup_insert_eq.
    destruct (createOffer _) as [offer |]; simpl.
    2: { eexists _, _. split; [reflexivity |].
         split; [apply (renewed_insert s D pcs g Stable); assumption |].
         split; intros k; trace_solver. }
    norm_app. rewrite lookup_insert_eq.
    destruct (setLocalDescription _ offer) as [st |]; simpl.
    2: { eexists _, _. split; [reflexivity |].
         split; [apply (renewed_insert s D pcs g Stable); assumption |].
         split; intros k; trace_solver. }
    norm_app. rewrite insert_insert_eq.
    destruct (wsIsOpen _); simpl; eexists _, _; (split; [reflexivity |]);
      norm_app; (split; [apply (renewed_insert s D pcs g st); assumption |]);
      split; intros k; trace_solver.
Qed.

Lemma reconnectLoop_renews (s : App) (l : list string) :
  ∀ σ D, renewed s D σ →
    ∃ σ' t, forEach l reconnectOne σ = (Return tt, σ', t) ∧
            renewed s (D ∪ list_to_set l) σ' ∧
            (∀ k, PcClose k ∉ t) ∧
            (∀ k, NewRTCPeerConnection k ∈ t ↔ k ∈ l ∧ k ∉ D).
Proof.
  induction l as [| g l IH]; intros σ D Hσ.
  - exists σ, []. split; [reflexivity |]. simpl.
    rewrite (right_id_L ∅ (∪)). split; [exact Hσ |].
    split; intros k; trace_solver.
  - destruct (reconnectOne_renews s σ D g Hσ) as (σ1 & t1 & Hrun1 & Hσ1 & Hc1 & Hn1).
    destruct (IH σ1 _ Hσ1) as (σ2 & t2 & Hrun2 & Hσ2 & Hc2 & Hn2).
    exists σ2, (t1 ++ t2). split; [| split; [| split]].
    + simpl. unfold mbind, M_bind. rewrite Hrun1, Hrun2. reflexivity.
    + simpl. rewrite (assoc_L (∪)). exact Hσ2.
    + intros k Hin. apply elem_of_app in Hin as [Hin | Hin];
        [exact (Hc1 k Hin) | exact (Hc2 k Hin)].
    + intros k. rewrite elem_of_app, Hn1, Hn2, elem_of_cons, not_elem_of_union,
        not_elem_of_singleton.
      destruct (decide (k = g)) as [-> | Hne]; tauto.
Qed.

(** [reconnectAllPeers]: the links after it, and what it closes and
    creates. *)
Lemma reconnectAllPeers_run (s : App) :
  ∃ pcs t,
    reconnectAllPeers s = (Return tt, setPeers s pcs, t) ∧
    dom pcs = dom (peers s) ∧
    (∀ gamertag pc, pcs !! gamertag = Some pc →
       ∃ st, pc = setSignalingState (initialPeerConnection s) st) ∧
    (∀ gamertag, PcClose gamertag ∈ t ↔ is_Some (peers s !! gamertag)) ∧
    (∀ gamertag, NewRTCPeerConnection gamertag ∈ t ↔ is_Some (peers s !! gamertag)).
Proof.
  unfold reconnectAllPeers.
  unfold mbind at 1, M_bind at 1, emit at 1.
  unfold mbind at 1, M_bind at 1, get at 1.
  destruct (Nat.eqb (length (map_to_list (peers s)).*1) 0) eqn:Hlen.
  - apply Nat.eqb_eq in Hlen. rewrite length_fmap in Hlen.
    apply nil_length_inv in Hlen. apply map_to_list_empty_iff in Hlen.
    exists ∅, [ConsoleLog LogReconnectingAllPeers; ConsoleLog LogNoPeersToReconnect].
    split; [| split; [| split; [| split]]].
    + unfold emit. simpl. now rewrite <- Hlen, setPeers_same.
    + now rewrite Hlen.
    + intros gamertag pc Hpc. rewrite lookup_empty in Hpc. discriminate.
    + intros gamertag. rewrite Hlen, lookup_empty. split.
      * intros Hin. trace_solver.
      * intros [? ?]. discriminate.
    + intros gamertag. rewrite Hlen, lookup_empty. split.
      * intros Hin. trace_solver.
      * intros [? ?]. discriminate.
  - unfold mbind at 1, M_bind at 1, emit at 1.
    unfold mbind at 1, M_bind at 1.
    rewrite closeAllConnections_run.
    unfold mbind at 1, M_bind at 1, emit at 1.
    unfold mbind at 1, M_bind at 1.
    destruct (reconnectLoop_renews s (map_to_list (peers s)).*1 (setPeers s ∅) ∅)
      as (σ & t & Hloop & (pcs & -> & Hdom & Hall) & Hnc & Hnew).
    { exists ∅. split; [reflexivity | split; [apply dom_empty_L |]].
      apply map_Forall_empty. }
    change (forEach (map_to_list (peers s)).*1 reconnectOne (setPeers s ∅)
            = (Return tt, setPeers s pcs, t)) in Hloop.
    unfold reconnectOne in Hloop. rewrite Hloop. unfold emit. simpl.
    eexists _, _. split; [reflexivity | split; [| split; [| split]]].
    + rewrite Hdom, keys_dom. apply (left_id_L ∅ (∪)).
    + exact Hall.
    + intros gamertag. rewrite <- (close_events_close (peers s) gamertag). split.
      * intros Hin. do 2 (apply elem_of_cons in Hin as [Hin | Hin]; [discriminate |]).
        apply elem_of_app in Hin as [Hin | Hin]; [exact Hin |].
        apply elem_of_cons in Hin as [Hin | Hin]; [discriminate |].
        apply elem_of_app in Hin as [Hin | Hin]; [destruct (Hnc _ Hin) |].
        apply list_elem_of_singleton in Hin. discriminate.
      * intros Hin. do 2 apply list_elem_of_further.
        apply elem_of_app. now left.
    + intros gamertag. rewrite <- elem_of_keys. split.
      * intros Hin. do 2 (apply elem_of_cons in Hin as [Hin | Hin]; [discriminate |]).
        apply elem_of_app in Hin as [Hin | Hin].
        { destruct (close_events_only _ _ Hin) as [g [Hg | Hg]]; discriminate. }
        apply elem_of_cons in Hin as [Hin | Hin]; [discriminate |].
        apply elem_of_app in Hin as [Hin | Hin]; [now apply Hnew in Hin |].
        apply list_elem_of_singleton in Hin. discriminate.
      * intros Hin. do 2 apply list_elem_of_further.
        apply elem_of_app. right. apply list_elem_of_further.
        apply elem_of_app. left. apply Hnew. split; [exact Hin |].
        apply not_elem_of_empty.
Qed.

(** [reconnectAllPeers] ends with a link for exactly the gamertags that had
    one, each of them new: first negotiation pending, no retry counted,
    connection state [new], senders for the current local tracks. Every link
    that was registered is closed and a connection is created for each; the
    roster and the audio manager are not touched. *)
Theorem reconnectAllPeers_renews (s : App) :
  ∃ s' t,
    reconnectAllPeers s = (Return tt, s', t) ∧
    participantsManager s' = participantsManager s ∧
    audioEffects s' = audioEffects s ∧
    dom (peers s') = dom (peers s) ∧
    (∀ gamertag pc, peers s' !! gamertag = Some pc →
       _isInitialConnection pc = true ∧
       _reconnectAttempts pc = 0%Z ∧
       connectionState pc = New ∧
       senders pc = (λ t, {| track := Some t |}) <$> localTracks s) ∧
    (∀ gamertag, PcClose gamertag ∈ t ↔ is_Some (peers s !! gamertag)) ∧
    (∀ gamertag, NewRTCPeerConnection gamertag ∈ t ↔ is_Some (peers s !! gamertag)).
Proof.
  destruct (reconnectAllPeers_run s) as (pcs & t & Hrun & Hdom & Hfresh & Hc & Hn).
  exists (setPeers s pcs), t. split; [exact Hrun |].
  split; [reflexivity | split; [reflexivity | split; [exact Hdom |]]].
  split; [| split; [exact Hc | exact Hn]].
  intros gamertag pc Hpc. destruct (Hfresh gamertag pc Hpc) as [st ->].
  repeat split.
Qed.

End Renewal.


(** ** Connection events *)

Section ConnectionEvents.

Context `{Platform}.

(** [attemptReconnect] while the count allows it, whatever the browser
    answers. *)
Lemma attemptReconnect_run (s : App) (remote : string) :
  let attempts :=
    (match peers s !! remote with Some pc => _reconnectAttempts pc | None => 0 end + 1)%Z in
  let pc' := setReconnectAttempts (initialPeerConnection s) attempts in
  (attempts ≤ 3)%Z →
  attemptReconnect remote s
  = (Return tt,
     setPeers s (<[remote := setSignalingState pc' (reconnectTail s remote pc').1]> (peers s)),
     reconnectPrefix s remote attempts ++ (reconnectTail s remote pc').2).
Proof.
  intros attempts pc' Hle.
  unfold attemptReconnect.
  unfold mbind at 1, M_bind at 1, get at 1. fold attempts.
  assert (Hgt : (attempts >? 3)%Z = false)
    by (rewrite Z.gtb_ltb; apply Z.ltb_ge; lia).
  rewrite Hgt.
  unfold mbind at 1, M_bind at 1, emit at 1.
  unfold mbind at 1, M_bind at 1.
  rewrite closePeerConnection_run.
  unfold mbind at 1, M_bind at 1, emit at 1.
  unfold tryCatch.
  unfold mbind at 1, M_bind at 1.
  rewrite createPeerConnection_fresh by (simpl; apply lookup_delete_eq).
  unfold storePc, pcCreateOffer, pcSetLocalDescription, sendOfferIfOpen, thePc.
  run_M. norm_app. rewrite !lookup_insert_eq. fold pc'.
  unfold reconnectTail, reconnectPrefix.
  destruct (createOffer pc') as [offer |]; simpl.
  2: { norm_app. rewrite !insert_insert_eq, insert_delete_eq, setSignalingState_same.
       f_equal. destruct (bool_decide _); simpl; rewrite <- ?app_assoc; reflexivity. }
  norm_app. rewrite !lookup_insert_eq.
  destruct (setLocalDescription pc' offer) as [st |]; simpl.
  2: { norm_app. rewrite !insert_insert_eq, insert_delete_eq, setSignalingState_same.
       f_equal. destruct (bool_decide _); simpl; rewrite <- ?app_assoc; reflexivity. }
  norm_app. rewrite !insert_insert_eq, insert_delete_eq.
  destruct (wsIsOpen _); simpl; (f_equal;
    destruct (bool_decide _); simpl; rewrite <- ?app_assoc; reflexivity).
Qed.

(** C6, as the code has it. A [failed] connection state event on a link
    whose retry count is below 3 closes the link, waits 1000 ms and
    registers a new link that carries the count plus one, whatever the
    browser answers afterwards; it sends the new offer exactly when the
    browser produces the offer and takes it as local description and the
    socket is open. When the count plus one exceeds 3 the event opens no
    connection and logs that the attempts are used up; the failed link stays
    registered with its count, and a further [failed] event on it does the
    same again. *)
Theorem failed_event_reconnects (s : App) (remote : string) (pc : RTCPeerConnection) :
  peers s !! remote = Some pc →
  let attempts := (_reconnectAttempts pc + 1)%Z in
  let pc' := setReconnectAttempts (initialPeerConnection s) attempts in
  ((attempts ≤ 3)%Z →
     ∃ st rest,
       onconnectionstatechange remote Failed s
         = (Return tt,
            setPeers s (<[remote := setSignalingState pc' st]> (peers s)),
            [ConsoleLog (LogConnectionState remote Failed);
             ConsoleLog (LogConnectionFailed remote);
             ConsoleLog (LogReconnectionAttempt remote attempts);
             PcClose remote; ConsoleLog (LogConnectionClosed remote);
             Wait 1000;
             NewRTCPeerConnection remote] ++ (PcAddTrack remote <$> localTracks s) ++
            [ConsoleLog (LogConnecting remote);
             PcCreateOffer remote] ++ rest) ∧
       _reconnectAttempts (setSignalingState pc' st) = attempts ∧
       _isInitialConnection (setSignalingState pc' st) = true ∧
       (∀ e, e ∈ rest →
             (∃ offer, e = PcSetLocalDescription remote offer)
             ∨ e = ConsoleError (ErrReconnectionFailed remote TransportError)
             ∨ ∃ msg, e = WsSend msg) ∧
       (∀ msg, WsSend msg ∈ rest
               ↔ ∃ offer st',
                   createOffer pc' = Some offer ∧
                   setLocalDescription pc' offer = Some st' ∧
                   wsIsOpen (WebRTCManager.ws (webrtc s)) = true ∧
                   msg = Offer offer (WebRTCManager.currentGamertag (webrtc s)) remote) ∧
       (∀ offer st',
          createOffer pc' = Some offer →
          setLocalDescription pc' offer = Some st' →
          wsIsOpen (WebRTCManager.ws (webrtc s)) = true →
          st = st' ∧
          rest = [PcSetLocalDescription remote offer;
                  WsSend (Offer offer (WebRTCManager.currentGamertag (webrtc s)) remote)])) ∧
  ((attempts > 3)%Z →
     let s' := setPeers s (<[remote := setConnectionState pc Failed]> (peers s)) in
     let exhausted :=
       [ConsoleLog (LogConnectionState remote Failed);
        ConsoleLog (LogConnectionFailed remote);
        ConsoleLog (LogMaxReconnectionAttempts remote)] in
     onconnectionstatechange remote Failed s = (Return tt, s', exhausted) ∧
     peers s' !! remote = Some (setConnectionState pc Failed) ∧
     _reconnectAttempts (setConnectionState pc Failed) = _reconnectAttempts pc ∧
     onconnectionstatechange remote Failed s' = (Return tt, s', exhausted)).
Proof.
  intros Hpc attempts pc'.
  set (pcF := setConnectionState pc Failed).
  set (s0 := setPeers s (<[remote := pcF]> (peers s))).
  assert (Hpc0 : peers s0 !! remote = Some pcF) by apply lookup_insert_eq.
  split.
  - intros Hle.
    exists (reconnectTail s remote pc').1, (reconnectTail s remote pc').2.
    split; [| split; [reflexivity | split; [reflexivity |]]].
    + rewrite (onconnectionstatechange_failed s remote pc Hpc). fold pcF s0.
      pose proof (attemptReconnect_run s0 remote) as Hrun. cbv zeta in Hrun.
      rewrite Hpc0 in Hrun.
      change (_reconnectAttempts pcF) with (_reconnectAttempts pc) in Hrun.
      fold attempts in Hrun. rewrite (Hrun Hle). clear Hrun.
      unfold outcome, final, trace, reconnectPrefix. simpl.
      rewrite Hpc0. rewrite bool_decide_eq_true_2 by eauto.
      subst s0. norm_app. rewrite insert_insert_eq. fold pc'.
      change (reconnectTail (setPeers s (<[remote := pcF]> (peers s))) remote pc')
        with (reconnectTail s remote pc').
      f_equal. simpl. rewrite <- !app_assoc. reflexivity.
    + unfold reconnectTail.
      destruct (createOffer pc') as [offer |]; simpl.
      2: { split; [| split].
           - intros e He. set_unfold. naive_solver.
           - intros msg. split.
             + intros Hin. set_unfold. naive_solver.
             + intros (offer & st' & Hoffer & _). discriminate Hoffer.
           - intros offer st' Hoffer. discriminate Hoffer. }
      destruct (setLocalDescription pc' offer) as [st |] eqn:Hsl; simpl.
      2: { split; [| split].
           - intros e He. set_unfold. naive_solver.
           - intros msg. split.
             + intros Hin. set_unfold. naive_solver.
             + intros (offer' & st' & [= <-] & Hset & _). congruence.
           - intros offer' st' [= <-] Hset. congruence. }
      destruct (wsIsOpen (WebRTCManager.ws (webrtc s))) eqn:Hws; simpl.
      * split; [| split].
        -- intros e He. set_unfold. naive_solver.
        -- intros msg. split.
           ++ intros Hin. set_unfold. naive_solver.
           ++ intros (offer' & st' & [= <-] & _ & _ & ->). set_unfold. auto.
        -- intros offer' st' [= <-] Hset _. split; [congruence | reflexivity].
      * split; [| split].
        -- intros e He. set_unfold. naive_solver.
        -- intros msg. split.
           ++ intros Hin. set_unfold. naive_solver.
           ++ intros (offer' & st' & _ & _ & Hopen & _). discriminate Hopen.
        -- intros offer' st' _ _ Hopen. discriminate Hopen.
  - intros Hgt s' exhausted.
    assert (Hrun : ∀ s1, peers s1 !! remote = Some pcF →
              onconnectionstatechange remote Failed s1
              = (Return tt, setPeers s1 (<[remote := pcF]> (peers s1)), exhausted)).
    { intros s1 Hpc1.
      rewrite (onconnectionstatechange_failed s1 remote pcF Hpc1).
      rewrite (attemptReconnect_exhausted _ remote pcF);
        [reflexivity | apply lookup_insert_eq | exact Hgt]. }
    split; [| split; [exact Hpc0 | split; [reflexivity |]]].
    + rewrite (onconnectionstatechange_failed s remote pc Hpc). fold pcF s0.
      rewrite (attemptReconnect_exhausted s0 remote pcF Hpc0 Hgt). reflexivity.
    + change s' with s0. rewrite (Hrun s0 Hpc0). subst s0. norm_app.
      rewrite insert_insert_eq. reflexivity.
Qed.

(** A reconnection attempt that the browser fails ([createOffer] or
    [setLocalDescription] rejected) is still counted: the old link is gone,
    the new link stays registered with the incremented count, the error is
    logged and no offer is sent. *)
Theorem attemptReconnect_failure_is_counted (s : App) (remote : string) :
  let attempts :=
    (match peers s !! remote with Some pc => _reconnectAttempts pc | None => 0 end + 1)%Z in
  let pc' := setReconnectAttempts (initialPeerConnection s) attempts in
  (attempts ≤ 3)%Z →
  createOffer pc' = None
    ∨ (∃ offer, createOffer pc' = Some offer ∧ setLocalDescription pc' offer = None) →
  ∃ t,
    attemptReconnect remote s
    = (Return tt, setPeers s (<[remote := pc']> (peers s)), t) ∧
    ConsoleError (ErrReconnectionFailed remote TransportError) ∈ t ∧
    NewRTCPeerConnection remote ∈ t ∧
    (∀ msg, WsSend msg ∉ t).
Proof.
  intros attempts pc' Hle Hfail.
  pose proof (attemptReconnect_run s remote Hle) as Hrun.
  fold attempts pc' in Hrun. rewrite Hrun. clear Hrun.
  unfold reconnectTail, reconnectPrefix.
  destruct Hfail as [Hoffer | (offer & Hoffer & Hlocal)].
  - rewrite Hoffer. simpl. rewrite setSignalingState_same.
    eexists. split; [reflexivity |].
    destruct (bool_decide _); (split; [| split]); try (intros msg); trace_solver.
  - rewrite Hoffer, Hlocal. simpl. rewrite setSignalingState_same.
    eexists. split; [reflexivity |].
    destruct (bool_decide _); (split; [| split]); try (intros msg); trace_solver.
Qed.

(** The [connected] event clears the retry count and the first-negotiation
    flag of the link, and schedules a volume update; a [failed] event after
    it starts again at attempt 1, whatever the count was before. *)
Theorem connected_restores_retries (s : App) (remote : string) (pc : RTCPeerConnection) :
  peers s !! remote = Some pc →
  let pc1 := setReconnectAttempts
               (setIsInitialConnection (setConnectionState pc Connected) false) 0 in
  let s1 := setPeers s (<[remote := pc1]> (peers s)) in
  onconnectionstatechange remote Connected s
  = (Return tt, s1,
     [ConsoleLog (LogConnectionState remote Connected);
      ConsoleLog (LogConnectionEstablished remote);
      ScheduleProcessUpdate 500]) ∧
  ∃ pc2,
    peers (final (onconnectionstatechange remote Failed s1)) !! remote = Some pc2 ∧
    _reconnectAttempts pc2 = 1%Z ∧
    _isInitialConnection pc2 = true ∧
    ConsoleLog (LogReconnectionAttempt remote 1)
      ∈ trace (onconnectionstatechange remote Failed s1) ∧
    PcClose remote ∈ trace (onconnectionstatechange remote Failed s1) ∧
    NewRTCPeerConnection remote ∈ trace (onconnectionstatechange remote Failed s1).
Proof.
  intros Hpc pc1 s1. split.
  - unfold onconnectionstatechange, storePc. run_M. rewrite Hpc. simpl.
    subst s1 pc1. norm_app. rewrite insert_insert_eq. reflexivity.
  - assert (Hpc1 : peers s1 !! remote = Some pc1) by apply lookup_insert_eq.
    rewrite (onconnectionstatechange_failed s1 remote pc1 Hpc1).
    set (s2 := setPeers s1 (<[remote := setConnectionState pc1 Failed]> (peers s1))).
    assert (Hpc2 : peers s2 !! remote = Some (setConnectionState pc1 Failed))
      by apply lookup_insert_eq.
    pose proof (attemptReconnect_run s2 remote) as Hrun.
    rewrite Hpc2 in Hrun. simpl in Hrun. specialize (Hrun ltac:(lia)).
    rewrite Hrun. unfold final, trace. simpl.
    eexists. split; [apply lookup_insert_eq |].
    split; [reflexivity | split; [reflexivity |]].
    unfold reconnectPrefix. rewrite Hpc2.
    rewrite bool_decide_eq_true_2 by eauto. simpl.
    split; [| split].
    + do 2 apply list_elem_of_further. apply list_elem_of_here.
    + do 3 apply list_elem_of_further. apply list_elem_of_here.
    + do 6 apply list_elem_of_further. apply list_elem_of_here.
Qed.

(** A connection state other than [failed] and [connected], and any ICE
    state, leaves the link registered and changes nothing but the state
    recorded on it: the connection states only log; the ICE states log,
    schedule a volume update on [connected] and [completed], and call
    [restartIce] on [failed] and only then. No link is closed or created. *)
Theorem transient_states_keep_link (s : App) (remote : string) (pc : RTCPeerConnection) :
  peers s !! remote = Some pc →
  (∀ st, st ≠ Failed → st ≠ Connected →
     ∃ t, onconnectionstatechange remote st s
          = (Return tt, setPeers s (<[remote := setConnectionState pc st]> (peers s)), t) ∧
          ∀ e, e ∈ t → ∃ m, e = ConsoleLog m) ∧
  (∀ st,
     ∃ t, oniceconnectionstatechange remote st s
          = (Return tt, setPeers s (<[remote := setIceConnectionState pc st]> (peers s)), t) ∧
          (PcRestartIce remote ∈ t ↔ st = IceFailed) ∧
          (ScheduleProcessUpdate 500 ∈ t ↔ st = IceConnected ∨ st = IceCompleted) ∧
          ∀ e, e ∈ t →
               (∃ m, e = ConsoleLog m) ∨ e = PcRestartIce remote
               ∨ e = ScheduleProcessUpdate 500).
Proof.
  intros Hpc. split.
  - intros st Hf Hc. unfold onconnectionstatechange, storePc. run_M. rewrite Hpc.
    destruct st; try contradiction; simpl; eexists; (split; [reflexivity |]);
      intros e He; repeat (apply elem_of_cons in He as [-> | He]; [eauto |]);
      inversion He.
  - intros st. unfold oniceconnectionstatechange, storePc. run_M. rewrite Hpc.
    destruct st; simpl; eexists; (split; [reflexivity |]); (split; [| split]);
      try (split; [intros He | intros Hst]);
      try (intros e He);
      repeat match goal with
      | He : _ ∈ _ :: _ |- _ => apply elem_of_cons in He as [He | He]
      | He : _ ∈ [] |- _ => inversion He
      | He : ?e = _ |- _ => first [discriminate He | subst e]
      | Hst : _ ∨ _ |- _ => destruct Hst
      end;
      eauto 6; try find_event.
Qed.

End ConnectionEvents.

Lemma failed_event_reconnects_witness :
  let s := Examples.appWith (Examples.link false 2 Stable) in
  peers s !! "Steve" = Some (Examples.link false 2 Stable) ∧
  (_reconnectAttempts (Examples.link false 2 Stable) + 1 ≤ 3)%Z ∧
  ∃ pc,
    peers (final (@onconnectionstatechange w3cBrowser "Steve" Failed s)) !! "Steve"
      = Some pc ∧
    _reconnectAttempts pc = 3%Z ∧
    WsSend (Offer {| sdpType := SdpOffer; sdp := "v=0 offer" |} "Alex" "Steve")
      ∈ trace (@onconnectionstatechange w3cBrowser "Steve" Failed s).
Proof.
  intros s.
  assert (Hpc : peers s !! "Steve" = Some (Examples.link false 2 Stable))
    by apply lookup_singleton_eq.
  assert (Hle : (_reconnectAttempts (Examples.link false 2 Stable) + 1 ≤ 3)%Z)
    by (simpl; lia).
  split; [exact Hpc | split; [exact Hle |]].
  destruct (proj1 (@failed_event_reconnects w3cBrowser s "Steve" _ Hpc) Hle)
    as (st & rest & Hrun & Hcount & _ & _ & Hsend & _).
  rewrite Hrun. eexists. split; [apply lookup_insert_eq |].
  split; [exact Hcount |].
  unfold trace. simpl. rewrite !elem_of_cons. do 9 right. apply Hsend.
  exists {| sdpType := SdpOffer; sdp := "v=0 offer" |}, HaveLocalOffer.
  repeat split; reflexivity.
Defined.

Lemma attemptReconnect_failure_is_counted_witness :
  let s := Examples.appWith (Examples.link false 1 Stable) in
  ∃ t,
    @attemptReconnect refusingBrowser "Steve" s
    = (Return tt,
       setPeers s (<["Steve" := setReconnectAttempts (initialPeerConnection s) 2]> (peers s)),
       t) ∧
    ConsoleError (ErrReconnectionFailed "Steve" TransportError) ∈ t ∧
    NewRTCPeerConnection "Steve" ∈ t ∧
    (∀ msg, WsSend msg ∉ t).
Proof.
  intros s.
  apply (@attemptReconnect_failure_is_counted refusingBrowser s "Steve").
  - vm_compute. discriminate.
  - left. reflexivity.
Defined.

Lemma connected_restores_retries_witness :
  let s := Examples.appWith (Examples.link true 2 Stable) in
  let s1 := final (@onconnectionstatechange w3cBrowser "Steve" Connected s) in
  ∃ pc2,
    peers (final (@onconnectionstatechange w3cBrowser "Steve" Failed s1)) !! "Steve"
      = Some pc2 ∧
    _reconnectAttempts pc2 = 1%Z.
Proof.
  intros s s1.
  destruct (@connected_restores_retries w3cBrowser s "Steve" (Examples.link true 2 Stable))
    as (Hrun & pc2 & Hpc2 & Hcount & _).
  - apply lookup_singleton_eq.
  - exists pc2. split; [| exact Hcount].
    subst s1. rewrite Hrun. exact Hpc2.
Defined.

Lemma transient_states_keep_link_witness :
  let s := Examples.appWith (Examples.link false 0 Stable) in
  ∃ t,
    oniceconnectionstatechange "Steve" IceFailed s
    = (Return tt,
       setPeers s (<["Steve" := setIceConnectionState (Examples.link false 0 Stable)
                                  IceFailed]> (peers s)), t) ∧
    PcRestartIce "Steve" ∈ t.
Proof.
  intros s.
  destruct (proj2 (@transient_states_keep_link w3cBrowser s "Steve"
                     (Examples.link false 0 Stable) (lookup_singleton_eq _ _)) IceFailed)
    as (t & Hrun & Hrestart & _).
  exists t. split; [exact Hrun | now apply Hrestart].
Defined.

(** ** A remote track *)

(** [ontrack] for a gamertag that has a participant gives the participant
    the new audio element, no gain node and no source, at volume 0, with its
    distance kept and nothing stored as pending. For a gamertag without
    participant the element is stored as pending and the roster is not
    changed; when a second track arrives before the participant is added, the
    second element replaces the first, and [add] attaches the second. *)
Theorem ontrack_attaches_or_stores (s : App) (remote : string) :
  let element := nextHandle s in
  let pm := participantsManager s in
  (∀ participant,
     ParticipantsManager.get pm remote = Some participant →
     ∃ participant',
       ParticipantsManager.get (participantsManager (final (ontrack remote s))) remote
         = Some participant' ∧
       Participant.audioElement participant' = Some element ∧
       Participant.gainNode participant' = None ∧
       Participant.source participant' = None ∧
       Participant.volume participant' = 0%R ∧
       Participant.distance participant' = Participant.distance participant ∧
       ParticipantsManager.pendingNodes (participantsManager (final (ontrack remote s)))
         = ParticipantsManager.pendingNodes pm) ∧
  (ParticipantsManager.get pm remote = None →
   ∀ isSelf,
     let twice := final (ontrack remote (final (ontrack remote s))) in
     ParticipantsManager.participants (participantsManager twice)
       = ParticipantsManager.participants pm ∧
     ∃ participant,
       ParticipantsManager.get
         (ParticipantsManager.add (participantsManager twice) remote isSelf) remote
         = Some participant ∧
       Participant.audioElement participant = Some (S element)).
Proof.
  intros element pm. split.
  - intros participant Hget. unfold ontrack, fresh. run_M. fold pm. rewrite Hget.
    unfold final. simpl. eexists. split; [apply lookup_insert_eq |].
    simpl. repeat split. lra.
  - intros Habsent isSelf twice.
    assert (Hfirst : participantsManager (final (ontrack remote s))
                     = ParticipantsManager.addPendingNode pm remote
                         {| ParticipantsManager.gainNode := None;
                            ParticipantsManager.audioElement := Some element;
                            ParticipantsManager.source := None |}
                     ∧ nextHandle (final (ontrack remote s)) = S element).
    { unfold ontrack, fresh. run_M. fold pm. rewrite Habsent. split; reflexivity. }
    destruct Hfirst as [Hpm1 Hnext1].
    assert (Htwice : participantsManager twice
                     = ParticipantsManager.addPendingNode pm remote
                         {| ParticipantsManager.gainNode := None;
                            ParticipantsManager.audioElement := Some (S element);
                            ParticipantsManager.source := None |}).
    { subst twice. set (s1 := final (ontrack remote s)) in *.
      unfold ontrack, fresh. run_M. rewrite Hpm1, Hnext1.
      unfold ParticipantsManager.get, ParticipantsManager.addPendingNode. simpl.
      unfold ParticipantsManager.get in Habsent. rewrite Habsent.
      unfold final. simpl. now rewrite insert_insert_eq. }
    rewrite Htwice. split; [reflexivity |].
    rewrite (add_pending _ remote isSelf
               {| ParticipantsManager.gainNode := None;
                  ParticipantsManager.audioElement := Some (S element);
                  ParticipantsManager.source := None |});
      [| exact Habsent | apply lookup_insert_eq].
    unfold ParticipantsManager.get. simpl. eexists.
    split; [apply lookup_insert_eq | reflexivity].
Qed.


(** ** Signaling: who gets a participant, who gets a link, who gets an offer *)

Lemma participantsManagerAdd_eq (s : App) (gamertag : string) (isSelf : bool) :
  participantsManagerAdd gamertag isSelf s
  = (Return tt,
     setParticipantsManager s
       (ParticipantsManager.add (participantsManager s) gamertag isSelf),
     if negb (ParticipantsManager.has (participantsManager s) gamertag)
        && bool_decide (is_Some (ParticipantsManager.pendingNodes (participantsManager s)
                                   !! gamertag))
     then [ConsoleLog (LogAudioNodesAssigned gamertag)] else []).
Proof.
  unfold participantsManagerAdd. run_M. destruct (negb _ && _); reflexivity.
Qed.

Lemma participantsManagerRemove_eq (s : App) (gamertag : string) :
  participantsManagerRemove gamertag s
  = (Return tt,
     setParticipantsManager s
       (ParticipantsManager.remove (participantsManager s) gamertag),
     match ParticipantsManager.get (participantsManager s) gamertag with
     | Some participant => [ParticipantCleanup (Participant.cleanup participant)]
     | None => []
     end).
Proof.
  unfold participantsManagerRemove. run_M. destruct (ParticipantsManager.get _ _); reflexivity.
Qed.

(** [createPeerConnection], link or no link. *)
Lemma createPeerConnection_run (s : App) (remote : string) :
  let pc := default (initialPeerConnection s) (peers s !! remote) in
  createPeerConnection remote s
  = (Return pc, setPeers s (<[remote := pc]> (peers s)),
     if bool_decide (is_Some (peers s !! remote))
     then [ConsoleLog (LogAlreadyExists remote)]
     else NewRTCPeerConnection remote :: (PcAddTrack remote <$> localTracks s)
            ++ [ConsoleLog (LogConnecting remote)]).
Proof.
  destruct (peers s !! remote) as [pc |] eqn:Hpc; simpl.
  - rewrite (createPeerConnection_existing s remote pc Hpc).
    rewrite insert_id by exact Hpc. now rewrite setPeers_same.
  - now rewrite (createPeerConnection_fresh s remote Hpc).
Qed.

Lemma forEach_addListed (cur : string) (list : list string) :
  ∀ s, ∃ t,
    forEach list (λ gt, if bool_decide (gt ≠ cur)
                        then participantsManagerAdd gt false else skip) s
    = (Return tt, setParticipantsManager s (addListed cur (participantsManager s) list), t) ∧
    ∀ e, e ∈ t → ∃ m, e = ConsoleLog m.
Proof.
  induction list as [| g list IH]; intros s.
  - exists []. split; [destruct s; reflexivity |]. intros e He. inversion He.
  - simpl. unfold mbind, M_bind.
    destruct (bool_decide (g ≠ cur)).
    + rewrite participantsManagerAdd_eq.
      destruct (IH (setParticipantsManager s
                      (ParticipantsManager.add (participantsManager s) g false)))
        as (t & -> & Ht).
      eexists. split; [reflexivity |].
      intros e He. apply elem_of_app in He as [He | He]; [| eauto].
      destruct (negb _ && _); [| inversion He].
      apply list_elem_of_singleton in He. eauto.
    + destruct (IH s) as (t & Hrun & Ht).
      change (skip s) with (Return tt, s, @nil Event). cbv beta iota. rewrite Hrun.
      eexists. split; [reflexivity | exact Ht].
Qed.

Section SignalingMore.

Context `{Platform}.

(** A [participants-list] message changes the roster only: afterwards the
    participants are those there were and the listed gamertags other than the
    local one, a participant that was there is kept as it was, and no link is
    created, no offer sent, nothing but logging and the refresh of the
    display. *)
Theorem participants_list_opens_no_link (s : App) (list : list string) :
  ∃ pm' t,
    handleSignaling (ParticipantsList list) s
    = (Return tt, setParticipantsManager s pm', t) ∧
    (∀ gamertag,
       is_Some (ParticipantsManager.get pm' gamertag)
       ↔ is_Some (ParticipantsManager.get (participantsManager s) gamertag)
         ∨ (gamertag ∈ list ∧ gamertag ≠ currentGamertag s)) ∧
    (∀ gamertag participant,
       ParticipantsManager.get (participantsManager s) gamertag = Some participant →
       ParticipantsManager.get pm' gamertag = Some participant) ∧
    (∀ e, e ∈ t → e = UpdateUI ∨ ∃ m, e = ConsoleLog m).
Proof.
  destruct (forEach_addListed (currentGamertag s) list s) as (t & Hloop & Ht).
  destruct (addListed_spec (currentGamertag s) list (participantsManager s))
    as (Hdom & Hkept).
  unfold handleSignaling, tryCatch.
  unfold mbind at 1, M_bind at 1, get at 1.
  unfold mbind at 1, M_bind at 1, emit at 1.
  unfold mbind at 1, M_bind at 1. rewrite Hloop. unfold emit. simpl.
  eexists _, _. split; [reflexivity |].
  split; [exact Hdom | split; [exact Hkept |]].
  intros e He. apply elem_of_cons in He as [-> | He]; [eauto |].
  apply elem_of_app in He as [He | He]; [right; eauto |].
  apply list_elem_of_singleton in He. now left.
Qed.

(** A [leave] message removes the participant, closes every link there is
    and opens a new one to every gamertag that had one, except the one that
    left: each of these links is new (first negotiation pending, no retry
    counted, connection state [new], senders for the current local
    tracks). *)
Theorem leave_renews_every_link (s : App) (gamertag : string) :
  ∃ pcs t,
    handleSignaling (Leave gamertag) s
    = (Return tt,
       setPeers
         (setParticipantsManager s
            (ParticipantsManager.remove (participantsManager s) gamertag)) pcs, t) ∧
    dom pcs = dom (peers s) ∖ {[gamertag]} ∧
    (∀ k pc, pcs !! k = Some pc →
       _isInitialConnection pc = true ∧ _reconnectAttempts pc = 0%Z ∧
       connectionState pc = New ∧ senders pc = senders (initialPeerConnection s)) ∧
    (∀ k, PcClose k ∈ t ↔ is_Some (peers s !! k)) ∧
    (∀ k, NewRTCPeerConnection k ∈ t ↔ is_Some (peers s !! k) ∧ k ≠ gamertag).
Proof.
  unfold handleSignaling, tryCatch.
  unfold mbind at 1, M_bind at 1, get at 1.
  unfold mbind at 1, M_bind at 1, emit at 1.
  unfold mbind at 1, M_bind at 1. rewrite participantsManagerRemove_eq.
  unfold mbind at 1, M_bind at 1. rewrite closePeerConnection_run.
  unfold mbind at 1, M_bind at 1, emit at 1.
  unfold mbind at 1, M_bind at 1.
  set (s1 := setPeers _ _).
  destruct (reconnectAllPeers_run s1) as (pcs & t & Hrun & Hdom & Hfresh & Hc & Hn).
  rewrite Hrun. unfold emit. simpl.
  exists pcs. eexists. split; [reflexivity |].
  assert (Hpeers : peers s1 = delete gamertag (peers s)) by reflexivity.
  rewrite Hpeers in *. clear Hrun.
  split; [| split; [| split]].
  - rewrite Hdom. apply dom_delete_L.
  - intros k pc Hpc. destruct (Hfresh k pc Hpc) as [st ->]. repeat split.
  - intros k.
    change (peers (setParticipantsManager s
              (ParticipantsManager.remove (participantsManager s) gamertag)))
      with (peers s).
    destruct (decide (k = gamertag)) as [-> | Hne].
    + destruct (peers s !! gamertag) as [pc |] eqn:Hpc.
      * rewrite bool_decide_eq_true_2 by eauto. split; [eauto |]. intros _.
        apply list_elem_of_further. apply elem_of_app. right.
        apply elem_of_app. left. apply list_elem_of_here.
      * rewrite bool_decide_eq_false_2 by (intros [? ?]; discriminate).
        split; [| intros [? ?]; discriminate].
        intros Hin. exfalso.
        apply elem_of_cons in Hin as [Hin | Hin]; [discriminate |].
        apply elem_of_app in Hin as [Hin | Hin].
        { destruct (ParticipantsManager.get _ _); trace_solver. }
        simpl in Hin.
        apply elem_of_cons in Hin as [Hin | Hin]; [discriminate |].
        apply elem_of_app in Hin as [Hin | Hin]; [| trace_solver].
        apply Hc in Hin. rewrite lookup_delete_eq in Hin.
        destruct Hin; discriminate.
    + specialize (Hc k). rewrite lookup_delete_ne in Hc by congruence.
      rewrite <- Hc. split.
      * intros Hin.
        apply elem_of_cons in Hin as [Hin | Hin]; [discriminate |].
        apply elem_of_app in Hin as [Hin | Hin].
        { destruct (ParticipantsManager.get _ _); trace_solver. }
        apply elem_of_app in Hin as [Hin | Hin].
        { destruct (bool_decide _); trace_solver. }
        apply elem_of_cons in Hin as [Hin | Hin]; [discriminate |].
        apply elem_of_app in Hin as [Hin | Hin]; [exact Hin | trace_solver].
      * intros Hin. apply list_elem_of_further. apply elem_of_app. right.
        apply elem_of_app. right. apply list_elem_of_further.
        apply elem_of_app. now left.
  - intros k. specialize (Hn k).
    assert (Hiff : is_Some (delete gamertag (peers s) !! k)
                   ↔ is_Some (peers s !! k) ∧ k ≠ gamertag).
    { destruct (decide (k = gamertag)) as [-> | Hne].
      - rewrite lookup_delete_eq. split; [intros [? ?]; discriminate | tauto].
      - rewrite lookup_delete_ne by congruence. tauto. }
    rewrite <- Hiff, <- Hn. split.
    + intros Hin.
      apply elem_of_cons in Hin as [Hin | Hin]; [discriminate |].
      apply elem_of_app in Hin as [Hin | Hin].
      { destruct (ParticipantsManager.get _ _); trace_solver. }
      apply elem_of_app in Hin as [Hin | Hin].
      { destruct (bool_decide _); trace_solver. }
      apply elem_of_cons in Hin as [Hin | Hin]; [discriminate |].
      apply elem_of_app in Hin as [Hin | Hin]; [exact Hin | trace_solver].
    + intros Hin. apply list_elem_of_further. apply elem_of_app. right.
      apply elem_of_app. right. apply list_elem_of_further.
      apply elem_of_app. now left.
Qed.

(** A [join] of another gamertag adds the participant. When that gamertag
    has a link, nothing else happens. When it has none, a link is created and
    stays registered whatever follows; an offer goes out exactly when the
    browser creates it and applies it as local description and the socket is
    open, and the display is refreshed exactly when no error was caught. *)
Theorem join_opens_link (s : App) (gamertag : string) :
  gamertag ≠ currentGamertag s →
  let pm' := ParticipantsManager.add (participantsManager s) gamertag false in
  let pc0 := initialPeerConnection s in
  (∀ pc, peers s !! gamertag = Some pc →
     ∃ t, handleSignaling (Join gamertag) s
          = (Return tt, setParticipantsManager s pm', t) ∧
          ∀ e, e ∈ t → e = UpdateUI ∨ ∃ m, e = ConsoleLog m) ∧
  (peers s !! gamertag = None →
     ∃ st t,
       handleSignaling (Join gamertag) s
       = (Return tt,
          setPeers (setParticipantsManager s pm')
            (<[gamertag := setSignalingState pc0 st]> (peers s)), t) ∧
       NewRTCPeerConnection gamertag ∈ t ∧
       (∀ msg, WsSend msg ∈ t ↔
          ∃ offer w, createOffer pc0 = Some offer ∧
                     setLocalDescription pc0 offer = Some st ∧
                     ws s = Some w ∧ readyState w = 1 ∧
                     msg = Offer offer (currentGamertag s) gamertag) ∧
       (UpdateUI ∈ t ↔ ∀ e, ConsoleError (ErrSignaling e) ∉ t)).
Proof.
  intros Hne pm' pc0. split.
  - intros pc Hpc.
    unfold handleSignaling, tryCatch.
    unfold mbind at 1, M_bind at 1, get at 1.
    rewrite bool_decide_eq_true_2 by exact Hne.
    unfold mbind at 1, M_bind at 1, emit at 1.
    unfold mbind at 1, M_bind at 1. rewrite participantsManagerAdd_eq.
    unfold getPeerConnection. run_M.
    change (peers (setParticipantsManager s
              (ParticipantsManager.add (participantsManager s) gamertag false)))
      with (peers s).
    rewrite Hpc. simpl. eexists. split; [reflexivity |].
    intros e He. destruct (negb _ && _); trace_solver.
  - intros Hpc.
    unfold handleSignaling, tryCatch.
    unfold mbind at 1, M_bind at 1, get at 1.
    rewrite bool_decide_eq_true_2 by exact Hne.
    unfold mbind at 1, M_bind at 1, emit at 1.
    unfold mbind at 1, M_bind at 1. rewrite participantsManagerAdd_eq.
    unfold mbind at 1, M_bind at 1.
    unfold mbind at 1, M_bind at 1.
    unfold getPeerConnection at 1.
    unfold mbind at 1, M_bind at 1, get at 1.
    change (peers (setParticipantsManager s
              (ParticipantsManager.add (participantsManager s) gamertag false)))
      with (peers s).
    rewrite Hpc. unfold mret at 1, M_ret at 1. cbv beta iota.
    unfold mbind at 1, M_bind at 1.
    rewrite createPeerConnection_fresh by exact Hpc.
    fold pm'.
    change (initialPeerConnection (setParticipantsManager s pm')) with pc0.
    change (peers (setParticipantsManager s pm')) with (peers s).
    change (localTracks (setParticipantsManager s pm')) with (localTracks s).
    unfold pcCreateOffer, pcSetLocalDescription, thePc, storePc, wsSend.
    run_M. norm_app. rewrite lookup_insert_eq.
    destruct (createOffer pc0) as [offer |] eqn:Hoffer; simpl.
    2: { exists Stable. eexists. split; [reflexivity |].
         destruct (negb _ && _); (split; [| split]);
           try (intros msg); trace_solver. }
    norm_app. rewrite lookup_insert_eq.
    destruct (setLocalDescription pc0 offer) as [st |] eqn:Hlocal; simpl.
    2: { exists Stable. eexists. split; [reflexivity |].
         destruct (negb _ && _); (split; [| split]);
           try (intros msg); trace_solver. }
    norm_app. rewrite insert_insert_eq.
    exists st.
    destruct (ws s) as [w |] eqn:Hws; simpl.
    2: { eexists. split; [reflexivity |].
         destruct (negb _ && _); (split; [| split]);
           try (intros msg); trace_solver. }
    destruct (readyState w) as [| [| n]] eqn:Hready; simpl;
      (eexists; split; [reflexivity |]);
      destruct (negb _ && _); (split; [| split]);
        try (intros msg); trace_solver.
Qed.

(** An offer for the local gamertag from a sender whose link is in [stable]
    or [have-local-offer] (a sender without link gets a new one, in
    [stable]): when the browser accepts the offer, creates the answer and
    applies it, the link ends in the state the browser gives, the sender is a
    participant, and the one message sent is that answer, sent exactly when
    the socket is open. When the browser rejects the offer, the error is
    logged, no answer is created or sent, the display is not refreshed, and
    the participant and the link stay. *)
Theorem offer_is_answered (s : App) (offer : SessionDescription) (from : string) :
  let cur := currentGamertag s in
  let pm' := ParticipantsManager.add (participantsManager s) from false in
  let pc := default (initialPeerConnection s) (peers s !! from) in
  signalingState pc = Stable ∨ signalingState pc = HaveLocalOffer →
  (∀ st1 answer st2,
     setRemoteDescription pc offer = Some st1 →
     createAnswer (setSignalingState pc st1) = Some answer →
     setLocalDescription (setSignalingState pc st1) answer = Some st2 →
     ∃ t,
       handleSignaling (Offer offer from cur) s
       = (Return tt,
          setPeers (setParticipantsManager s pm')
            (<[from := setSignalingState pc st2]> (peers s)), t) ∧
       (∀ msg, WsSend msg ∈ t ↔
          msg = Answer answer cur from ∧ ∃ w, ws s = Some w ∧ readyState w = 1) ∧
       (NewRTCPeerConnection from ∈ t ↔ peers s !! from = None)) ∧
  (setRemoteDescription pc offer = None →
     ∃ t,
       handleSignaling (Offer offer from cur) s
       = (Return tt,
          setPeers (setParticipantsManager s pm') (<[from := pc]> (peers s)), t) ∧
       ConsoleError (ErrSignaling TransportError) ∈ t ∧
       (∀ msg, WsSend msg ∉ t) ∧
       (PcCreateAnswer from ∉ t) ∧
       (UpdateUI ∉ t)).
Proof.
  intros cur pm' pc Hstate.
  assert (Hguard : bool_decide (signalingState pc = Stable)
                   || bool_decide (signalingState pc = HaveLocalOffer) = true).
  { apply orb_true_iff.
    destruct Hstate as [Hs | Hs]; [left | right]; now apply bool_decide_eq_true_2. }
  split.
  - intros st1 answer st2 Hremote Hanswer Hlocal.
    unfold handleSignaling, tryCatch.
    unfold mbind at 1, M_bind at 1, get at 1.
    rewrite bool_decide_eq_true_2 by reflexivity.
    unfold mbind at 1, M_bind at 1, emit at 1.
    unfold mbind at 1, M_bind at 1. rewrite participantsManagerAdd_eq.
    unfold mbind at 1, M_bind at 1.
    unfold mbind at 1, M_bind at 1. rewrite createPeerConnection_run.
    fold pm'.
    change (peers (setParticipantsManager s pm')) with (peers s).
    change (initialPeerConnection (setParticipantsManager s pm'))
      with (initialPeerConnection s).
    change (localTracks (setParticipantsManager s pm')) with (localTracks s).
    fold pc. rewrite Hguard.
    unfold pcSetRemoteDescription, pcCreateAnswer, pcSetLocalDescription, thePc, storePc,
      wsSend.
    run_M. norm_app. rewrite lookup_insert_eq, Hremote. simpl.
    norm_app. rewrite lookup_insert_eq, Hanswer. simpl.
    norm_app. rewrite lookup_insert_eq, Hlocal. simpl.
    norm_app. rewrite !insert_insert_eq.
    destruct (ws s) as [w |] eqn:Hws; simpl.
    2: { eexists. split; [reflexivity |].
         destruct (negb _ && _), (peers s !! from) eqn:Hpc; simpl;
           (split; [intros msg |]); trace_solver. }
    destruct (readyState w) as [| [| n]] eqn:Hready; simpl;
      (eexists; split; [reflexivity |]);
      destruct (negb _ && _), (peers s !! from) eqn:Hpc; simpl;
        (split; [intros msg |]); trace_solver.
  - intros Hremote.
    unfold handleSignaling, tryCatch.
    unfold mbind at 1, M_bind at 1, get at 1.
    rewrite bool_decide_eq_true_2 by reflexivity.
    unfold mbind at 1, M_bind at 1, emit at 1.
    unfold mbind at 1, M_bind at 1. rewrite participantsManagerAdd_eq.
    unfold mbind at 1, M_bind at 1.
    unfold mbind at 1, M_bind at 1. rewrite createPeerConnection_run.
    fold pm'.
    change (peers (setParticipantsManager s pm')) with (peers s).
    change (initialPeerConnection (setParticipantsManager s pm'))
      with (initialPeerConnection s).
    change (localTracks (setParticipantsManager s pm')) with (localTracks s).
    fold pc. rewrite Hguard.
    unfold pcSetRemoteDescription, pcCreateAnswer, pcSetLocalDescription, thePc, storePc,
      wsSend.
    run_M. norm_app. rewrite lookup_insert_eq, Hremote. simpl.
    eexists. split; [reflexivity |].
    destruct (negb _ && _), (peers s !! from) eqn:Hpc; simpl;
      (split; [| split; [intros msg | split]]); trace_solver.
Qed.

(** An answer for the local gamertag on a link in [have-local-offer] is
    applied: the link takes the state the browser gives; when the browser
    rejects it the error is logged and nothing changes. A candidate for the
    local gamertag from a sender with a link is handed to that link, the
    session is unchanged, and a rejection is logged. *)
Theorem answer_and_candidate_applied (s : App) (from : string) (pc : RTCPeerConnection) :
  peers s !! from = Some pc →
  let cur := currentGamertag s in
  (∀ answer, signalingState pc = HaveLocalOffer →
     handleSignaling (Answer answer from cur) s
     = match setRemoteDescription pc answer with
       | Some st =>
           (Return tt, setPeers s (<[from := setSignalingState pc st]> (peers s)),
            [ConsoleLog (LogReceivedAnswer from);
             PcSetRemoteDescription from answer;
             ConsoleLog (LogAnswerApplied from)])
       | None =>
           (Return tt, s,
            [ConsoleLog (LogReceivedAnswer from);
             PcSetRemoteDescription from answer;
             ConsoleError (ErrSignaling TransportError)])
       end) ∧
  (∀ candidate,
     handleSignaling (IceCandidateMsg (Some candidate) from cur) s
     = (Return tt, s,
        PcAddIceCandidate from candidate
        :: (if addIceCandidate pc candidate then []
            else [ConsoleError (ErrSignaling TransportError)]))).
Proof.
  intros Hpc cur. split.
  - intros answer Hstate.
    unfold handleSignaling, getPeerConnection, pcSetRemoteDescription, thePc, storePc.
    run_M. rewrite bool_decide_eq_true_2 by reflexivity. simpl.
    rewrite Hpc. simpl. rewrite (bool_decide_eq_true_2 _ Hstate). simpl.
    rewrite Hpc. destruct (setRemoteDescription pc answer); reflexivity.
  - intros candidate.
    unfold handleSignaling, getPeerConnection, pcAddIceCandidate, thePc.
    run_M. rewrite bool_decide_eq_true_2 by reflexivity. simpl.
    rewrite Hpc. simpl. rewrite Hpc.
    destruct (addIceCandidate pc candidate); reflexivity.
Qed.

End SignalingMore.

Lemma join_opens_link_witness :
  ∃ st t,
    @handleSignaling w3cBrowser (Join "Steve") Examples.app
    = (Return tt,
       setPeers
         (setParticipantsManager Examples.app
            (ParticipantsManager.add (participantsManager Examples.app) "Steve" false))
         (<["Steve" := setSignalingState (initialPeerConnection Examples.app) st]>
            (peers Examples.app)), t) ∧
    NewRTCPeerConnection "Steve" ∈ t.
Proof.
  destruct (proj2 (@join_opens_link w3cBrowser Examples.app "Steve" ltac:(discriminate))
              eq_refl)
    as (st & t & Hrun & Hnew & _).
  exists st, t. split; [exact Hrun | exact Hnew].
Defined.

Lemma offer_is_answered_witness :
  ∃ t,
    @handleSignaling w3cBrowser
      (Offer Examples.anOffer "Steve" (currentGamertag Examples.app)) Examples.app
    = (Return tt,
       setPeers
         (setParticipantsManager Examples.app
            (ParticipantsManager.add (participantsManager Examples.app) "Steve" false))
         (<["Steve" := setSignalingState (initialPeerConnection Examples.app) Stable]>
            (peers Examples.app)), t) ∧
    WsSend (Answer {| sdpType := SdpAnswer; sdp := "v=0 answer" |} "Alex" "Steve") ∈ t.
Proof.
  destruct (proj1 (@offer_is_answered w3cBrowser Examples.app Examples.anOffer "Steve"
                     (or_introl eq_refl))
              HaveRemoteOffer {| sdpType := SdpAnswer; sdp := "v=0 answer" |} Stable
              eq_refl eq_refl eq_refl)
    as (t & Hrun & Hsend & _).
  exists t. split; [exact Hrun |].
  apply Hsend. split; [reflexivity |]. eexists. split; reflexivity.
Defined.

Lemma answer_and_candidate_applied_witness :
  @handleSignaling w3cBrowser
    (Answer Examples.anAnswer "Steve" "Alex")
    (Examples.appWith (Examples.link true 0 HaveLocalOffer))
  = (Return tt,
     setPeers (Examples.appWith (Examples.link true 0 HaveLocalOffer))
       (<["Steve" := Examples.link true 0 Stable]>
          (peers (Examples.appWith (Examples.link true 0 HaveLocalOffer)))),
     [ConsoleLog (LogReceivedAnswer "Steve");
      PcSetRemoteDescription "Steve" Examples.anAnswer;
      ConsoleLog (LogAnswerApplied "Steve")]).
Proof.
  apply (proj1 (@answer_and_candidate_applied w3cBrowser
                  (Examples.appWith (Examples.link true 0 HaveLocalOffer)) "Steve"
                  (Examples.link true 0 HaveLocalOffer) (lookup_singleton_eq _ _))
           Examples.anAnswer eq_refl).
Defined.


(** ** An effect change and the links *)

Section EffectsMore.

Context `{Platform}.

Lemma hasAudioSender_find (pc : RTCPeerConnection) :
  hasAudioSender pc = true
  ↔ ∃ i sender, list_find (λ s, Is_true (isAudioSender s)) (senders pc) = Some (i, sender).
Proof.
  unfold hasAudioSender. rewrite bool_decide_eq_true. split.
  - intros [[i sender] Hfind]. eauto.
  - intros (i & sender & Hfind). eauto.
Qed.

(** [replaceTrack] is called on a link exactly when it has an audio
    sender. *)
Lemma replaceAudioTrack_event (gamertag effect : string) (newTrack : Track)
    (pc : RTCPeerConnection) :
  SenderReplaceTrack gamertag newTrack ∈ (replaceAudioTrack gamertag effect newTrack pc).2
  ↔ hasAudioSender pc = true.
Proof.
  rewrite hasAudioSender_find. unfold replaceAudioTrack.
  destruct (list_find _ (senders pc)) as [[i audioSender] |].
  - destruct (replaceTrack _ _ _); simpl;
      (split; [intros _; eauto | intros _; apply list_elem_of_here]).
  - simpl. split; [intros Hin; inversion Hin | intros (i & sender & Hfind); discriminate].
Qed.

Lemma replaceAudioTrack_event_owner (g k effect : string) (newTrack track' : Track)
    (pc : RTCPeerConnection) :
  SenderReplaceTrack k track' ∈ (replaceAudioTrack g effect newTrack pc).2 →
  k = g ∧ track' = newTrack.
Proof.
  unfold replaceAudioTrack.
  destruct (list_find _ _) as [[i sender] |]; [| intros Hin; inversion Hin].
  destruct (replaceTrack _ _ _); simpl; intros Hin;
    apply elem_of_cons in Hin as [[= -> ->] | Hin]; try (split; reflexivity);
    apply list_elem_of_singleton in Hin; discriminate.
Qed.

Lemma replaceAudioTrack_no_sender (gamertag effect : string) (newTrack : Track)
    (pc : RTCPeerConnection) :
  hasAudioSender pc = false →
  replaceAudioTrack gamertag effect newTrack pc = (pc, []).
Proof.
  intros Hhas. unfold replaceAudioTrack.
  destruct (list_find _ (senders pc)) as [[i audioSender] |] eqn:Hfind; [| reflexivity].
  assert (Htrue : hasAudioSender pc = true) by (apply hasAudioSender_find; eauto).
  congruence.
Qed.

(** What an effect change does to one link: it keeps everything but the
    senders, and the number of senders; it calls [replaceTrack] exactly when
    the link has a sender with an audio track; the only sender that can
    change is the first with an audio track, which carries the new track
    when the browser accepts the replacement; and with an audio track as the
    new one, a link has an audio sender afterwards exactly when it had one. *)
Theorem replaceAudioTrack_touches_one_sender (gamertag effect : string) (newTrack : Track)
    (pc : RTCPeerConnection) :
  let pc' := (replaceAudioTrack gamertag effect newTrack pc).1 in
  let t := (replaceAudioTrack gamertag effect newTrack pc).2 in
  pc' = setSenders pc (senders pc') ∧
  length (senders pc') = length (senders pc) ∧
  (SenderReplaceTrack gamertag newTrack ∈ t ↔ hasAudioSender pc = true) ∧
  (hasAudioSender pc = false → pc' = pc ∧ t = []) ∧
  (∀ i sender, senders pc !! i = Some sender →
     senders pc' !! i = Some sender
     ∨ (senders pc' !! i = Some {| track := Some newTrack |} ∧
        isAudioSender sender = true ∧
        replaceTrack gamertag sender newTrack = true ∧
        ∀ j earlier, (j < i)%nat → senders pc !! j = Some earlier →
                     isAudioSender earlier = false)) ∧
  (kind newTrack = Audio → hasAudioSender pc' = hasAudioSender pc).
Proof.
  intros pc' t.
  split; [| split; [| split; [apply replaceAudioTrack_event | split]]].
  - subst pc'. unfold replaceAudioTrack.
    destruct (list_find _ (senders pc)) as [[i audioSender] |]; [| now destruct pc].
    destruct (replaceTrack _ _ _); [reflexivity | now destruct pc].
  - subst pc'. unfold replaceAudioTrack.
    destruct (list_find _ (senders pc)) as [[i audioSender] |]; [| reflexivity].
    destruct (replaceTrack _ _ _); [apply length_insert | reflexivity].
  - intros Hhas. subst pc' t.
    rewrite (replaceAudioTrack_no_sender gamertag effect newTrack pc Hhas).
    split; reflexivity.
  - subst pc' t. unfold replaceAudioTrack.
    destruct (list_find _ (senders pc)) as [[i audioSender] |] eqn:Hfind.
    2: { split; [intros; now left | reflexivity]. }
    assert (Hhas : hasAudioSender pc = true) by (apply hasAudioSender_find; eauto).
    pose proof Hfind as Hfound.
    apply list_find_Some in Hfound as (Hi & Haudio & Hfirst).
    destruct (replaceTrack gamertag audioSender newTrack) eqn:Hreplace; simpl.
    2: { split; [intros; now left | reflexivity]. }
    split.
    + intros k sender Hk. destruct (decide (k = i)) as [-> | Hne].
      * right. rewrite Hi in Hk. injection Hk as <-.
        split; [apply list_lookup_insert_eq; now apply lookup_lt_Some in Hi |].
        split; [now apply Is_true_true |]. split; [exact Hreplace |].
        intros j earlier Hlt Hj. specialize (Hfirst j earlier Hj Hlt).
        destruct (isAudioSender earlier); [exfalso; now apply Hfirst | reflexivity].
      * left. rewrite list_lookup_insert_ne by congruence. exact Hk.
    + intros Hkind. rewrite Hhas. apply hasAudioSender_find. simpl.
      exists i, {| track := Some newTrack |}.
      apply list_find_Some. split; [| split].
      * apply list_lookup_insert_eq. now apply lookup_lt_Some in Hi.
      * unfold isAudioSender. simpl. now rewrite Hkind.
      * intros j earlier Hj Hlt.
        rewrite list_lookup_insert_ne in Hj by lia. now apply (Hfirst j).
Qed.

(** [replaceTracks], written out. *)
Lemma replaceTracks_trace (effect : string) (newTrack : Track) (s : App) :
  replaceTracks effect newTrack s
  = (Return tt,
     setPeers s (fst <$> map_imap (λ gamertag pc,
                            Some (replaceAudioTrack gamertag effect newTrack pc)) (peers s)),
     concat ((λ r : string * (RTCPeerConnection * list Event), r.2.2)
             <$> map_to_list (map_imap (λ gamertag pc,
                            Some (replaceAudioTrack gamertag effect newTrack pc)) (peers s)))
     ++ [ConsoleLog (LogEffectApplied
           (length (filter (λ r, Is_true (hasAudioSender r.2))
                           (map_to_list (peers s)))))]).
Proof.
  unfold replaceTracks.
  unfold mbind at 1, M_bind at 1, get at 1.
  unfold mbind at 1, M_bind at 1, put at 1.
  unfold mbind at 1, M_bind at 1.
  rewrite forEach_traces. unfold emit. reflexivity.
Qed.

Lemma replaceTracks_event (effect : string) (newTrack : Track) (s : App) (e : Event) :
  e ∈ concat ((λ r : string * (RTCPeerConnection * list Event), r.2.2)
              <$> map_to_list (map_imap (λ gamertag pc,
                     Some (replaceAudioTrack gamertag effect newTrack pc)) (peers s)))
  ↔ ∃ gamertag pc, peers s !! gamertag = Some pc ∧
                   e ∈ (replaceAudioTrack gamertag effect newTrack pc).2.
Proof.
  rewrite elem_of_concat. split.
  - intros (evs & He & Hevs).
    apply list_elem_of_fmap in Hevs as ([g [pc' evs']] & -> & Hin).
    apply elem_of_map_to_list in Hin. rewrite map_lookup_imap in Hin.
    destruct (peers s !! g) as [pc |] eqn:Hpc; [| discriminate].
    simpl in Hin. injection Hin as Hin. exists g, pc.
    split; [exact Hpc |]. rewrite Hin. exact He.
  - intros (g & pc & Hpc & He).
    exists (replaceAudioTrack g effect newTrack pc).2. split; [exact He |].
    apply list_elem_of_fmap.
    exists (g, replaceAudioTrack g effect newTrack pc). split; [reflexivity |].
    apply elem_of_map_to_list. rewrite map_lookup_imap, Hpc. reflexivity.
Qed.

(** An effect change that passes both guards, with the links at hand. *)
Lemma applyEffect_accepted_links (s : App) (effect : string) (now : Z) :
  let this := audioEffects s in
  let newTrack := {| kind := Audio; ofStream := nextHandle s |} in
  is_Some (AudioEffectsManager.inputNode this) →
  (AudioEffectsManager.currentEffect this = effect →
   AudioEffectsManager.processedStream this = None) →
  (is_Some (AudioEffectsManager.processedStream this) →
   (1000 ≤ now - AudioEffectsManager.lastEffectChange this)%Z) →
  ∃ s' t,
    applyEffect effect now ThePeerConnections s = (Return tt, s', t) ∧
    localTracks s' = [newTrack] ∧
    nextHandle s' = S (nextHandle s) ∧
    participantsManager s' = participantsManager s ∧
    (∀ gamertag,
       peers s' !! gamertag
       = (λ pc, (replaceAudioTrack gamertag effect newTrack pc).1) <$> peers s !! gamertag) ∧
    (∀ gamertag track',
       SenderReplaceTrack gamertag track' ∈ t
       ↔ track' = newTrack ∧ ∃ pc, peers s !! gamertag = Some pc ∧ hasAudioSender pc = true).
Proof.
  intros this newTrack [node Hnode] Hsame Hrate.
  unfold applyEffect.
  unfold mbind at 1, M_bind at 1, get at 1. fold this. rewrite Hnode.
  assert (Hguard1 :
    bool_decide (AudioEffectsManager.currentEffect this = effect)
    && bool_decide (is_Some (AudioEffectsManager.processedStream this)) = false).
  { apply andb_false_iff.
    destruct (decide (AudioEffectsManager.currentEffect this = effect)) as [Heq | Hne].
    - right. apply bool_decide_eq_false_2. rewrite (Hsame Heq).
      intros [? ?]; discriminate.
    - left. now apply bool_decide_eq_false_2. }
  assert (Hguard2 :
    bool_decide (is_Some (AudioEffectsManager.processedStream this))
    && (now - AudioEffectsManager.lastEffectChange this <? 1000)%Z = false).
  { apply andb_false_iff.
    destruct (decide (is_Some (AudioEffectsManager.processedStream this))) as [Hs | Hs].
    - right. apply Z.ltb_ge. now apply Hrate.
    - left. now apply bool_decide_eq_false_2. }
  rewrite Hguard1, Hguard2.
  unfold mbind, M_bind, put, emit, fresh, modify, get, skip, mret, M_ret.
  cbv beta iota. unfold getTracks. cbn [head].
  destruct (Nat.ltb 0 _) eqn:Hsize.
  - rewrite replaceTracks_trace. cbv beta iota.
    eexists _, _. split; [reflexivity |].
    split; [reflexivity |]. split; [reflexivity |]. split; [reflexivity |].
    split.
    + intros gamertag.
      etransitivity; [apply (lookup_fmap fst _ gamertag) |].
      rewrite map_lookup_imap.
      match goal with
      | |- context [peers ?s0 !! gamertag ≫= _] => change (peers s0) with (peers s)
      end.
      destruct (peers s !! gamertag); reflexivity.
    + intros gamertag track'. simpl. split.
      * intros Hin. do 3 (apply elem_of_cons in Hin as [Hin | Hin]; [discriminate |]).
        apply elem_of_app in Hin as [Hin | Hin];
          [| apply list_elem_of_singleton in Hin; discriminate].
        apply replaceTracks_event in Hin as (g & pc & Hpc & Hin).
        destruct (replaceAudioTrack_event_owner _ _ _ _ _ _ Hin) as [-> ->].
        split; [reflexivity |]. exists pc. split; [exact Hpc |].
        now apply (replaceAudioTrack_event g effect newTrack pc).
      * intros (-> & pc & Hpc & Hhas). do 3 apply list_elem_of_further.
        apply elem_of_app. left. apply replaceTracks_event.
        exists gamertag, pc. split; [exact Hpc |].
        now apply (replaceAudioTrack_event gamertag effect newTrack pc).
  - apply Nat.ltb_ge in Hsize.
    assert (Hempty : peers s = ∅).
    { apply map_size_empty_iff.
      change (size (peers s) ≤ 0)%nat in Hsize. lia. }
    cbv beta iota. eexists _, _. split; [reflexivity |].
    split; [reflexivity |]. split; [reflexivity |]. split; [reflexivity |].
    split.
    + intros gamertag.
      change (peers s !! gamertag
              = (λ pc, (replaceAudioTrack gamertag effect newTrack pc).1)
                  <$> peers s !! gamertag).
      now rewrite Hempty, lookup_empty.
    + intros gamertag track'. simpl. rewrite Hempty. split.
      * intros Hin. trace_solver.
      * intros (_ & pc & Hpc & _). rewrite lookup_empty in Hpc. discriminate.
Qed.

(** An effect change that passes both guards reaches every link: the new
    stream's audio track is the one local track from then on, [replaceTrack]
    is called, with that track, on exactly the links that have an audio
    sender, every link is what the replacement on its first audio sender
    makes of it, a link without audio sender is left as it was (it gets no
    sender), and no link is added or dropped. *)
Theorem applyEffect_reaches_every_link (s : App) (effect : string) (now : Z) :
  let this := audioEffects s in
  let newTrack := {| kind := Audio; ofStream := nextHandle s |} in
  is_Some (AudioEffectsManager.inputNode this) →
  (AudioEffectsManager.currentEffect this = effect →
   AudioEffectsManager.processedStream this = None) →
  (is_Some (AudioEffectsManager.processedStream this) →
   (1000 ≤ now - AudioEffectsManager.lastEffectChange this)%Z) →
  ∃ s' t,
    applyEffect effect now ThePeerConnections s = (Return tt, s', t) ∧
    localTracks s' = [newTrack] ∧
    dom (peers s') = dom (peers s) ∧
    (∀ gamertag pc, peers s !! gamertag = Some pc →
       peers s' !! gamertag = Some (replaceAudioTrack gamertag effect newTrack pc).1 ∧
       (hasAudioSender pc = false → peers s' !! gamertag = Some pc)) ∧
    (∀ gamertag track',
       SenderReplaceTrack gamertag track' ∈ t
       ↔ track' = newTrack ∧ ∃ pc, peers s !! gamertag = Some pc ∧ hasAudioSender pc = true).
Proof.
  intros this newTrack Hnode Hsame Hrate.
  destruct (applyEffect_accepted_links s effect now Hnode Hsame Hrate)
    as (s' & t & Hrun & Htracks & _ & _ & Hpeers & Hevents).
  exists s', t. split; [exact Hrun | split; [exact Htracks |]].
  split; [| split; [| exact Hevents]].
  - apply set_eq. intros gamertag. rewrite !elem_of_dom, Hpeers.
    apply fmap_is_Some.
  - intros gamertag pc Hpc. rewrite Hpeers, Hpc. split; [reflexivity |].
    intros Hhas. simpl.
    rewrite replaceAudioTrack_no_sender by exact Hhas. reflexivity.
Qed.

(** A link created after an accepted effect change sends the new stream:
    its one sender carries the audio track of the stream that the change
    created. *)
Theorem new_link_carries_current_effect (s : App) (effect remote : string) (now : Z)
    (peerConnections : PeerConnectionsArg) :
  let this := audioEffects s in
  let newTrack := {| kind := Audio; ofStream := nextHandle s |} in
  let s' := final (applyEffect effect now peerConnections s) in
  is_Some (AudioEffectsManager.inputNode this) →
  (AudioEffectsManager.currentEffect this = effect →
   AudioEffectsManager.processedStream this = None) →
  (is_Some (AudioEffectsManager.processedStream this) →
   (1000 ≤ now - AudioEffectsManager.lastEffectChange this)%Z) →
  peers s !! remote = None →
  ∃ pc s'' t,
    createPeerConnection remote s' = (Return pc, s'', t) ∧
    peers s'' !! remote = Some pc ∧
    senders pc = [ {| track := Some newTrack |} ] ∧
    hasAudioSender pc = true ∧
    PcAddTrack remote newTrack ∈ t.
Proof.
  intros this newTrack s' Hnode Hsame Hrate Hnone.
  destruct (applyEffect_accepted s effect now peerConnections Hnode Hsame Hrate)
    as (s1 & t1 & Hrun & Hae & _).
  assert (Hs' : s' = s1) by (subst s'; now rewrite Hrun).
  assert (Hnone' : peers s' !! remote = None).
  { destruct peerConnections.
    - subst s'. clear Hrun Hae Hs'. destruct Hnode as [node Hnode].
      unfold applyEffect, final. run_M. fold this. rewrite Hnode.
      destruct (_ && _); [exact Hnone |].
      destruct (_ && _); [exact Hnone |]. simpl. exact Hnone.
    - destruct (applyEffect_accepted_links s effect now Hnode Hsame Hrate)
        as (s2 & t2 & Hrun2 & _ & _ & _ & Hpeers & _).
      subst s'. rewrite Hrun2. unfold final. simpl.
      rewrite Hpeers, Hnone. reflexivity. }
  rewrite (createPeerConnection_fresh s' remote Hnone').
  assert (Htracks : localTracks s' = [newTrack]).
  { unfold localTracks. rewrite Hs', Hae. reflexivity. }
  eexists _, _, _. split; [reflexivity |]. split; [| split; [| split]].
  - apply lookup_insert_eq.
  - unfold initialPeerConnection. rewrite Htracks. reflexivity.
  - unfold initialPeerConnection. rewrite Htracks. reflexivity.
  - rewrite Htracks. simpl. apply list_elem_of_further, list_elem_of_here.
Qed.

End EffectsMore.

Lemma applyEffect_reaches_every_link_witness :
  ∃ s' t,
    @applyEffect w3cBrowser "cave" 7000 ThePeerConnections Examples.appWithAudio
      = (Return tt, s', t) ∧
    senders <$> peers s' !! "Steve"
      = Some [ {| track := Some {| kind := Audio; ofStream := 2 |} |} ] ∧
    SenderReplaceTrack "Steve" {| kind := Audio; ofStream := 2 |} ∈ t.
Proof.
  destruct (@applyEffect_reaches_every_link w3cBrowser Examples.appWithAudio "cave" 7000)
    as (s' & t & Hrun & _ & _ & Hlinks & Hevents).
  - simpl. eauto.
  - simpl. discriminate.
  - simpl. lia.
  - exists s', t. split; [exact Hrun | split].
    + destruct (Hlinks "Steve" Examples.linkWithAudio (lookup_singleton_eq _ _))
        as [Hlink _].
      rewrite Hlink. reflexivity.
    + apply Hevents. split; [reflexivity |].
      exists Examples.linkWithAudio. split; [apply lookup_singleton_eq | reflexivity].
Defined.

Lemma new_link_carries_current_effect_witness :
  let s' := final (@applyEffect w3cBrowser "cave" 7000 ThePeerConnections
                     Examples.appWithAudio) in
  ∃ pc s'' t,
    createPeerConnection "Herobrine" s' = (Return pc, s'', t) ∧
    senders pc = [ {| track := Some {| kind := Audio; ofStream := 2 |} |} ].
Proof.
  intros s'.
  destruct (@new_link_carries_current_effect w3cBrowser Examples.appWithAudio
              "cave" "Herobrine" 7000 ThePeerConnections)
    as (pc & s'' & t & Hrun & _ & Hsenders & _).
  - simpl. eauto.
  - simpl. discriminate.
  - simpl. lia.
  - reflexivity.
  - exists pc, s'', t. split; [exact Hrun | exact Hsenders].
Defined.

(** ** The invariants, on a session *)

Lemma retry_count_invariant_witness :
  let s := Examples.appWith (Examples.link false 2 Stable) in
  retryCountsInRange s ∧
  retryCountsInRange (final (@dispatch w3cBrowser (ConnectionStateChange "Steve" Failed) s)).
Proof.
  intros s.
  assert (Hs : retryCountsInRange s).
  { apply map_Forall_singleton. unfold retryCountInRange. simpl. lia. }
  split; [exact Hs |].
  apply (@retry_count_invariant w3cBrowser (ConnectionStateChange "Steve" Failed) s Hs).
Defined.

Lemma pending_invariant_witness :
  let s := final (ontrack "Steve" Examples.app) in
  pendingOnlyForUnknown s ∧
  pendingOnlyForUnknown
    (final (@dispatch w3cBrowser (SignalingMessage (ParticipantsList ["Alex"; "Steve"])) s)).
Proof.
  intros s.
  assert (Hs : pendingOnlyForUnknown s).
  { intros gamertag [participant Hin]. vm_compute in Hin. discriminate. }
  split; [exact Hs |].
  apply (@pending_invariant w3cBrowser
           (SignalingMessage (ParticipantsList ["Alex"; "Steve"])) s Hs).
Defined.

(** * The session: push-to-talk, the Minecraft update and the end of a call *)

(** ** Push-to-talk *)

Lemma setSenderEnabled_flags (b : bool) (acc : (Track → bool) * nat)
    (sender : RTCRtpSender) (t : Track) :
  (setSenderEnabled b acc sender).1 t
  = if carriesAudio t sender then b else acc.1 t.
Proof.
  unfold setSenderEnabled, carriesAudio.
  destruct (track sender) as [t' |] eqn:Htrack.
  - destruct (kind t') eqn:Hkind; simpl.
    + unfold enableTrack. destruct (decide (t = t')) as [-> | Hne].
      * rewrite bool_decide_eq_true_2 by (split; [reflexivity | exact Hkind]).
        reflexivity.
      * rewrite bool_decide_eq_false_2 by (intros [[= ->] _]; contradiction).
        reflexivity.
    + rewrite bool_decide_eq_false_2; [reflexivity |].
      intros [[= ->] Hk]. congruence.
  - rewrite bool_decide_eq_false_2 by (intros [? _]; discriminate). reflexivity.
Qed.

Lemma foldl_setSenderEnabled_flags (b : bool) (l : list RTCRtpSender) (t : Track) :
  ∀ acc, (foldl (setSenderEnabled b) acc l).1 t
         = if existsb (carriesAudio t) l then b else acc.1 t.
Proof.
  induction l as [| sender l IH]; intros acc; simpl; [reflexivity |].
  rewrite IH, setSenderEnabled_flags.
  destruct (carriesAudio t sender), (existsb (carriesAudio t) l); reflexivity.
Qed.

Lemma setAllSenders_fold (b : bool) (l : list (string * RTCPeerConnection)) (t : Track) :
  ∀ acc,
    (foldl (λ acc entry, foldl (setSenderEnabled b) acc (senders entry.2)) acc l).1 t
    = if existsb (λ entry, existsb (carriesAudio t) (senders entry.2)) l
      then b else acc.1 t.
Proof.
  induction l as [| entry l IH]; intros acc; simpl; [reflexivity |].
  rewrite IH, foldl_setSenderEnabled_flags.
  destruct (existsb (carriesAudio t) (senders entry.2)), (existsb _ l); reflexivity.
Qed.

Lemma setAllSenders_flags (b : bool) (pcs : gmap string RTCPeerConnection)
    (flags : Track → bool) (t : Track) :
  ((∃ gamertag pc sender, pcs !! gamertag = Some pc ∧ sender ∈ senders pc ∧
                          track sender = Some t ∧ kind t = Audio) →
   (setAllSenders b pcs flags).1 t = b) ∧
  (¬ (∃ gamertag pc sender, pcs !! gamertag = Some pc ∧ sender ∈ senders pc ∧
                            track sender = Some t ∧ kind t = Audio) →
   (setAllSenders b pcs flags).1 t = flags t).
Proof.
  unfold setAllSenders. rewrite setAllSenders_fold.
  destruct (existsb _ (map_to_list pcs)) eqn:Hex.
  - split; [reflexivity |]. intros Hno. exfalso. apply Hno.
    apply existsb_exists in Hex as ([g pc] & Hin & Hpc).
    apply existsb_exists in Hpc as (sender & Hsender & Hcarries).
    apply bool_decide_eq_true_1 in Hcarries as [Htrack Hkind].
    exists g, pc, sender. split; [| split; [| split]]; try assumption.
    + apply elem_of_map_to_list. now apply list_elem_of_In.
    + now apply list_elem_of_In.
  - split; [| reflexivity]. intros (g & pc & sender & Hpc & Hsender & Htrack & Hkind).
    exfalso. apply Bool.not_true_iff_false in Hex. apply Hex.
    apply existsb_exists. exists (g, pc). split.
    + apply list_elem_of_In. now apply elem_of_map_to_list.
    + apply existsb_exists. exists sender. split; [now apply list_elem_of_In |].
      now apply bool_decide_eq_true_2.
Qed.

(** What a call of the manager leaves alone. *)
Lemma pttCall_frame (c : PttCall) (s : Session) :
  let s' := (pttCall c s).1 in
  app s' = app s ∧ micManager s' = micManager s ∧ minecraft s' = minecraft s ∧
  inputGain s' = inputGain s ∧ heartbeatInterval s' = heartbeatInterval s.
Proof.
  destruct c as [[] | key display | code | code]; simpl;
    unfold pttSetEnabled, pttSetKey, handleKeyDown, handleKeyUp,
      muteAllSenders, unmuteAllSenders; simpl;
    repeat match goal with
    | |- context [if ?b then _ else _] => destruct b
    end; simpl; auto.
Qed.

(** The flags and the manager after a call that mutes or unmutes. *)
Lemma pttCall_sets (c : PttCall) (s : Session) :
  let this := pushToTalk s in
  let s' := (pttCall c s).1 in
  (∃ b, trackEnabled s' = (setAllSenders b (peers (app s)) (trackEnabled s)).1 ∧
        PushToTalkManager.isTalking (pushToTalk s') = b ∧
        (PushToTalkManager.enabled (pushToTalk s') = true →
         PushToTalkManager.isKeyPressed (pushToTalk s') = b))
  ∨ (trackEnabled s' = trackEnabled s ∧
     PushToTalkManager.enabled (pushToTalk s') = PushToTalkManager.enabled this ∧
     PushToTalkManager.isTalking (pushToTalk s') = PushToTalkManager.isTalking this ∧
     PushToTalkManager.isKeyPressed (pushToTalk s') = PushToTalkManager.isKeyPressed this ∧
     match c with SetEnabled _ => False | _ => True end).
Proof.
  destruct c as [[] | key display | code | code]; simpl.
  - left. exists false. unfold pttSetEnabled, muteAllSenders. simpl. auto.
  - left. exists true. unfold pttSetEnabled, unmuteAllSenders. simpl.
    split; [reflexivity | split; [reflexivity | discriminate]].
  - right. unfold pttSetKey. simpl. auto.
  - unfold handleKeyDown.
    destruct (PushToTalkManager.enabled (pushToTalk s)) eqn:Hen; simpl; [| right; auto].
    destruct (_ && _); [| right; auto].
    left. exists true. unfold unmuteAllSenders. simpl. auto.
  - unfold handleKeyUp.
    destruct (PushToTalkManager.enabled (pushToTalk s)) eqn:Hen; simpl; [| right; auto].
    destruct (_ && _); [| right; auto].
    left. exists false. unfold muteAllSenders. simpl. auto.
Qed.

(** Push-to-talk and the senders agree. [setEnabled], with either value,
    leaves the session so that the audio track of every sender of every
    link is enabled exactly when [isTalking] holds and, where push-to-talk
    is on, [isTalking] is [isKeyPressed]; [setEnabled], [setKey],
    [handleKeyDown] and [handleKeyUp] keep it so. A track that no sender
    carries keeps its flag. Whatever a call sends on the socket is the
    [ptt-status] of the local player with the new [isTalking] and its
    negation as [isMuted], and it is sent with the socket open only. *)
Theorem ptt_senders_follow_talking :
  (∀ s enabled, pttConsistent (pttCall (SetEnabled enabled) s).1) ∧
  (∀ s c, pttConsistent s → pttConsistent (pttCall c s).1) ∧
  (∀ s c t, ¬ sendsAudioTrack s t →
            trackEnabled (pttCall c s).1 t = trackEnabled s t) ∧
  (∀ s c msg,
     OfConnectionLayer (WsSend msg) ∈ (pttCall c s).2 →
     wsIsOpen (ws (app s)) = true ∧
     msg = PttStatus (currentGamertag (app s))
             (PushToTalkManager.isTalking (pushToTalk (pttCall c s).1))
             (negb (PushToTalkManager.isTalking (pushToTalk (pttCall c s).1)))).
Proof.
  assert (Hstep : ∀ s c,
            (match c with SetEnabled _ => True | _ => pttConsistent s end) →
            pttConsistent (pttCall c s).1).
  { intros s c Hs.
    destruct (pttCall_frame c s) as (Happ & _).
    destruct (pttCall_sets c s) as [(b & Hflags & Htalk & Hkey) | (Hflags & Hen & Htalk & Hkey & Hc)].
    - split.
      + intros Hen'. rewrite Htalk. symmetry. now apply Hkey.
      + intros t (g & pc & sender & Hpc & Hsender & Htrack & Hkind).
        rewrite Happ in Hpc. rewrite Hflags, Htalk.
        apply (setAllSenders_flags b (peers (app s)) (trackEnabled s) t). eauto 10.
    - destruct c; try contradiction; destruct Hs as [Hs1 Hs2]; (split;
        [ intros Hen'; rewrite Htalk, Hkey; apply Hs1; now rewrite <- Hen
        | intros t (g & pc & sender & Hpc & Hsender & Htrack & Hkind);
          rewrite Happ in Hpc; rewrite Hflags, Htalk; apply Hs2;
          unfold sendsAudioTrack; eauto 10 ]). }
  split; [intros s enabled; now apply (Hstep s (SetEnabled enabled)) |].
  split; [intros s c Hs; apply Hstep; destruct c; auto |].
  split.
  - intros s c t Hno.
    destruct (pttCall_sets c s) as [(b & Hflags & _) | (Hflags & _)].
    + rewrite Hflags. now apply setAllSenders_flags.
    + now rewrite Hflags.
  - intros s c msg Hin.
    destruct c as [[] | key display | code | code]; simpl in *.
    + unfold pttSetEnabled, muteAllSenders, notifyTalkingChange, onTalkingChange in *.
      simpl in *. destruct (wsIsOpen (ws (app s))); trace_solver.
    + unfold pttSetEnabled, unmuteAllSenders, notifyTalkingChange, onTalkingChange in *.
      simpl in *. destruct (wsIsOpen (ws (app s))); trace_solver.
    + unfold pttSetKey in Hin. simpl in Hin. trace_solver.
    + unfold handleKeyDown, unmuteAllSenders, notifyTalkingChange, onTalkingChange in *.
      destruct (negb _); [simpl in Hin; trace_solver |].
      destruct (_ && _); [| simpl in Hin; trace_solver].
      simpl in *. destruct (wsIsOpen (ws (app s))); trace_solver.
    + unfold handleKeyUp, muteAllSenders, notifyTalkingChange, onTalkingChange in *.
      destruct (negb _); [simpl in Hin; trace_solver |].
      destruct (_ && _); [| simpl in Hin; trace_solver].
      simpl in *. destruct (wsIsOpen (ws (app s))); trace_solver.
Qed.

(** ** The Minecraft update *)

Lemma micSetEnabled_frame (b : bool) (s : Session) :
  app (micSetEnabled b s) = app s ∧ micManager (micSetEnabled b s) = micManager s ∧
  pushToTalk (micSetEnabled b s) = pushToTalk s ∧
  minecraft (micSetEnabled b s) = minecraft s ∧
  inputGain (micSetEnabled b s) = inputGain s ∧
  heartbeatInterval (micSetEnabled b s) = heartbeatInterval s.
Proof. unfold micSetEnabled. destruct (MicrophoneManager.mediaStream _); simpl; auto 10. Qed.

Lemma micSetEnabled_flags (b : bool) (s : Session) (t : Track) :
  trackEnabled (micSetEnabled b s) t
  = match MicrophoneManager.mediaStream (micManager s) with
    | Some mediaStream =>
        if decide (t = {| kind := Audio; ofStream := mediaStream |}) then b
        else trackEnabled s t
    | None => trackEnabled s t
    end.
Proof.
  unfold micSetEnabled. destruct (MicrophoneManager.mediaStream _); reflexivity.
Qed.

Section Update.
Context `{Platform}.

Lemma applyEffect_roster (effect : string) (now : Z) (peerConnections : PeerConnectionsArg)
    (a : App) :
  participantsManager (final (applyEffect effect now peerConnections a))
  = participantsManager a.
Proof.
  unfold applyEffect.
  unfold mbind at 1, M_bind at 1, get at 1.
  destruct (AudioEffectsManager.inputNode _); [| reflexivity].
  destruct (_ && _); [reflexivity |].
  destruct (_ && _); [reflexivity |].
  unfold mbind, M_bind, put, emit, fresh, modify, get, skip, mret, M_ret.
  cbv beta iota. destruct peerConnections; [reflexivity |].
  destruct (Nat.ltb 0 _); [| reflexivity].
  unfold getTracks. cbn [head].
  match goal with
  | |- context [replaceTracks ?e ?t ?s'] =>
      destruct (replaceTracks_run e t s') as (pcs & tr & Hrun); rewrite Hrun
  end.
  reflexivity.
Qed.

Lemma applyEnvironmentalEffects_frame (now nowEffect : Z)
    (myPlayer : MinecraftIntegration.Player) (s : Session) :
  let s' := (applyEnvironmentalEffects now nowEffect myPlayer s).1 in
  participantsManager (app s') = participantsManager (app s) ∧
  micManager s' = micManager s ∧ pushToTalk s' = pushToTalk s ∧
  trackEnabled s' = trackEnabled s ∧ inputGain s' = inputGain s ∧
  heartbeatInterval s' = heartbeatInterval s ∧
  Minecraft.distanceCalculator (minecraft s') = Minecraft.distanceCalculator (minecraft s) ∧
  Minecraft.minecraftData (minecraft s') = Minecraft.minecraftData (minecraft s) ∧
  Minecraft.currentGamertag (minecraft s') = Minecraft.currentGamertag (minecraft s) ∧
  Minecraft.isPlayerInGame (minecraft s') = Minecraft.isPlayerInGame (minecraft s) ∧
  Minecraft.remoteMuted (minecraft s') = Minecraft.remoteMuted (minecraft s) ∧
  Minecraft.remoteDeafened (minecraft s') = Minecraft.remoteDeafened (minecraft s) ∧
  Minecraft.lastMicVolume (minecraft s') = Minecraft.lastMicVolume (minecraft s).
Proof.
  unfold applyEnvironmentalEffects.
  destruct (_ <? _)%Z; [simpl; auto 15 |].
  destruct (bool_decide _); [| simpl; auto 15].
  simpl. rewrite applyEffect_roster. auto 15.
Qed.

Lemma updateVolume_frame (volume : R) (s : Session) :
  let s' := (updateVolume volume s).1 in
  app s' = app s ∧ micManager s' = micManager s ∧ pushToTalk s' = pushToTalk s ∧
  minecraft s' = minecraft s ∧ trackEnabled s' = trackEnabled s ∧
  heartbeatInterval s' = heartbeatInterval s.
Proof.
  unfold updateVolume. destruct (AudioEffectsManager.inputNode _); simpl; auto 10.
Qed.

(** The session after an update that finds the local player. *)
Lemma processUpdate_in_game (now nowEffect : Z) (s : Session) (data : MinecraftData)
    (myPlayer : MinecraftIntegration.Player) :
  Minecraft.minecraftData (minecraft s) = Some data →
  Minecraft.currentGamertag (minecraft s) ≠ "" →
  MinecraftIntegration.findPlayer (playersOf data) (Minecraft.currentGamertag (minecraft s))
    = Some myPlayer →
  let d := MinecraftIntegration.data myPlayer in
  let s' := (processUpdate now nowEffect s).1 in
  let dc' := calculatorAfter data (Minecraft.distanceCalculator (minecraft s)) in
  micManager s' = micManager s ∧
  pushToTalk s' = pushToTalk s ∧
  heartbeatInterval s' = heartbeatInterval s ∧
  Minecraft.distanceCalculator (minecraft s') = dc' ∧
  Minecraft.isPlayerInGame (minecraft s') = true ∧
  Minecraft.remoteMuted (minecraft s') = MinecraftIntegration.isMuted d ∧
  Minecraft.remoteDeafened (minecraft s') = MinecraftIntegration.isDeafened d ∧
  (∀ t, trackEnabled s' t
        = if PushToTalkManager.enabled (pushToTalk s) then trackEnabled s t
          else trackEnabled
                 (micSetEnabled
                    (negb (MicrophoneManager.isMuted (micManager s)
                           || MinecraftIntegration.isMuted d)) s) t) ∧
  participantsManager (app s')
  = MinecraftIntegration.participantsManager
      (MinecraftIntegration.updateParticipantVolumes
         {| MinecraftIntegration.participantsManager :=
              match MinecraftIntegration.customVolumes d with
              | Some customVolumes =>
                  participantsManager (app (applyCustomVolumes customVolumes s))
              | None => participantsManager (app s)
              end;
            MinecraftIntegration.distanceCalculator := dc';
            MinecraftIntegration.currentGamertag := Minecraft.currentGamertag (minecraft s);
            MinecraftIntegration.remoteMuted := MinecraftIntegration.isMuted d;
            MinecraftIntegration.remoteDeafened := MinecraftIntegration.isDeafened d |}
         myPlayer (playersOf data)) ∧
  ∃ s7,
    audioEffects (app s7) = audioEffects (app s) ∧
    webrtc (app s7) = webrtc (app s) ∧
    nextHandle (app s7) = nextHandle (app s) ∧
    Minecraft.lastEffectChange (minecraft s7) = Minecraft.lastEffectChange (minecraft s) ∧
    webrtc (app s')
    = webrtc (app (fst (applyEnvironmentalEffects now nowEffect myPlayer s7))).
Proof.
  intros Hdata Hname Hfind d s' dc'. subst s'.
  unfold processUpdate. rewrite Hdata.
  rewrite (proj2 (String.eqb_neq _ _) Hname).
  assert (Hdc : ∃ s1 t1,
    match newMaxDistanceOf data with
    | Some newMaxDistance =>
        if Req_dec_T
             (DistanceCalculator.maxDistance (Minecraft.distanceCalculator (minecraft s)))
             newMaxDistance
        then (s, [])
        else
          (setMinecraft s
             (setDistanceCalculator (minecraft s)
                (DistanceCalculator.new newMaxDistance)),
           [SessionConsoleLog
              (LogMaxDistanceUpdated
                 (DistanceCalculator.maxDistance
                    (Minecraft.distanceCalculator (minecraft s))) newMaxDistance)])
    | None => (s, [])
    end = (s1, t1) ∧
    s1 = setMinecraft s (setDistanceCalculator (minecraft s) dc')).
  { subst dc'. unfold calculatorAfter.
    assert (Hsame : setMinecraft s
                      (setDistanceCalculator (minecraft s)
                         (Minecraft.distanceCalculator (minecraft s))) = s).
    { destruct s as [a m p [dc md g ig rm rd lv le] gain flags hb]. reflexivity. }
    destruct (newMaxDistanceOf data) as [newMax |].
    - destruct (Req_dec_T _ _) as [Heq | Hne]; eexists _, _; (split; [reflexivity |]);
        [| reflexivity].
      rewrite <- Heq.
      replace (DistanceCalculator.new
                 (DistanceCalculator.maxDistance
                    (Minecraft.distanceCalculator (minecraft s))))
        with (Minecraft.distanceCalculator (minecraft s))
        by (now destruct (Minecraft.distanceCalculator (minecraft s))).
      now rewrite Hsame.
    - eexists _, _. split; [reflexivity |]. now rewrite Hsame. }
  destruct Hdc as (s1 & t1 & -> & ->).
  change (Minecraft.currentGamertag
            (minecraft (setMinecraft s (setDistanceCalculator (minecraft s) dc'))))
    with (Minecraft.currentGamertag (minecraft s)).
  rewrite Hfind. fold d.
  set (s2 := setMinecraft _ (setMinecraftFlags _ true _ _)).
  set (r5 := match MinecraftIntegration.micVolume d with
             | Some micVolume => _
             | None => _
             end).
  assert (H5 : app r5.1 = app s ∧ micManager r5.1 = micManager s ∧
               pushToTalk r5.1 = pushToTalk s ∧ trackEnabled r5.1 = trackEnabled s ∧
               heartbeatInterval r5.1 = heartbeatInterval s ∧
               Minecraft.distanceCalculator (minecraft r5.1) = dc' ∧
               Minecraft.currentGamertag (minecraft r5.1)
                 = Minecraft.currentGamertag (minecraft s) ∧
               Minecraft.isPlayerInGame (minecraft r5.1) = true ∧
               Minecraft.remoteMuted (minecraft r5.1) = MinecraftIntegration.isMuted d ∧
               Minecraft.remoteDeafened (minecraft r5.1)
                 = MinecraftIntegration.isDeafened d ∧
               Minecraft.lastEffectChange (minecraft r5.1)
                 = Minecraft.lastEffectChange (minecraft s)).
  { subst r5. destruct (MinecraftIntegration.micVolume d) as [micVolume |];
      [| simpl; auto 15].
    destruct (sameVolume _ _); [simpl; auto 15 |].
    match goal with
    | |- context [updateVolume ?v ?s0] =>
        pose proof (updateVolume_frame v s0) as (Ha & Hm & Hp & Hmc & Hf & Hh);
        destruct (updateVolume v s0) as [s5 t5] eqn:Hrun
    end.
    simpl in *. rewrite Ha, Hm, Hp, Hmc, Hf, Hh. simpl. auto 15. }
  destruct r5 as [s5 t5]. simpl in H5.
  destruct H5 as (Ha5 & Hm5 & Hp5 & Hf5 & Hh5 & Hdc5 & Hg5 & Hin5 & Hrm5 & Hrd5 & Hle5).
  set (s6 := match MinecraftIntegration.customVolumes d with
             | Some customVolumes => applyCustomVolumes customVolumes s5
             | None => s5
             end).
  assert (H6 : micManager s6 = micManager s ∧ pushToTalk s6 = pushToTalk s ∧
               trackEnabled s6 = trackEnabled s ∧ minecraft s6 = minecraft s5 ∧
               heartbeatInterval s6 = heartbeatInterval s ∧
               participantsManager (app s6)
               = match MinecraftIntegration.customVolumes d with
                 | Some customVolumes =>
                     participantsManager (app (applyCustomVolumes customVolumes s))
                 | None => participantsManager (app s)
                 end ∧
               audioEffects (app s6) = audioEffects (app s) ∧
               webrtc (app s6) = webrtc (app s) ∧
               nextHandle (app s6) = nextHandle (app s)).
  { subst s6. destruct (MinecraftIntegration.customVolumes d) as [customVolumes |];
      simpl; rewrite ?Ha5; auto 10. }
  destruct H6 as (Hm6 & Hp6 & Hf6 & Hmc6 & Hh6 & Hpm6 & Hae6 & Hweb6 & Hn6).
  rewrite Hp6, Hm6, Hmc6, Hrm5.
  set (s7 := if negb (PushToTalkManager.enabled (pushToTalk s)) then _ else s6).
  assert (H7 : app s7 = app s6 ∧ micManager s7 = micManager s ∧
               pushToTalk s7 = pushToTalk s ∧ minecraft s7 = minecraft s5 ∧
               heartbeatInterval s7 = heartbeatInterval s ∧
               ∀ t, trackEnabled s7 t
                    = if PushToTalkManager.enabled (pushToTalk s) then trackEnabled s t
                      else trackEnabled
                             (micSetEnabled
                                (negb (MicrophoneManager.isMuted (micManager s)
                                       || MinecraftIntegration.isMuted d)) s) t).
  { subst s7. destruct (PushToTalkManager.enabled (pushToTalk s)); simpl.
    { repeat (split; [auto |]). intros t. now rewrite Hf6. }
    match goal with
    | |- context [micSetEnabled ?b s6] =>
        destruct (micSetEnabled_frame b s6) as (Ha & Hm & Hp & Hmc & _ & Hh)
    end.
    rewrite Ha, Hm, Hp, Hmc, Hh.
    repeat (split; [auto |]).
    intros t. rewrite !micSetEnabled_flags, Hm6, Hf6. reflexivity. }
  destruct H7 as (Ha7 & Hm7 & Hp7 & Hmc7 & Hh7 & Hf7).
  pose proof (applyEnvironmentalEffects_frame now nowEffect myPlayer s7) as H8.
  destruct (applyEnvironmentalEffects now nowEffect myPlayer s7) as [s8 t8] eqn:Hrun8.
  simpl in H8.
  destruct H8 as (Hpm8 & Hm8 & Hp8 & Hf8 & _ & Hh8 & Hdc8 & _ & Hg8 & Hin8 & Hrm8 & Hrd8 & _).
  simpl. rewrite Hm8, Hp8, Hh8, Hm7, Hp7, Hh7, Hf8.
  rewrite Hdc8, Hin8, Hrm8, Hrd8, Hmc7, Hdc5, Hin5, Hrm5, Hrd5.
  repeat (split; [reflexivity |]).
  split; [exact Hf7 |].
  split.
  - unfold integration. rewrite Hpm8, Ha7, Hpm6, Hdc8, Hg8, Hrm8, Hrd8, Hmc7.
    rewrite Hdc5, Hg5, Hrm5, Hrd5. reflexivity.
  - exists s7. rewrite Ha7, Hmc7, Hrun8. auto.
Qed.
End Update.

Section Update2.
Context `{Platform}.

(** The session after an update that does not find the local player. *)
Lemma processUpdate_not_in_game (now nowEffect : Z) (s : Session) (data : MinecraftData) :
  Minecraft.minecraftData (minecraft s) = Some data →
  Minecraft.currentGamertag (minecraft s) ≠ "" →
  MinecraftIntegration.findPlayer (playersOf data) (Minecraft.currentGamertag (minecraft s))
    = None →
  let s' := (processUpdate now nowEffect s).1 in
  micManager s' = micManager s ∧
  pushToTalk s' = pushToTalk s ∧
  peers (app s') = peers (app s) ∧
  audioEffects (app s') = audioEffects (app s) ∧
  Minecraft.isPlayerInGame (minecraft s') = false ∧
  Minecraft.remoteMuted (minecraft s') = Minecraft.remoteMuted (minecraft s) ∧
  Minecraft.remoteDeafened (minecraft s') = Minecraft.remoteDeafened (minecraft s) ∧
  (∀ t, trackEnabled s' t = trackEnabled (micSetEnabled false s) t) ∧
  participantsManager (app s')
  = ParticipantsManager.forEach (participantsManager (app s))
      (λ participant _,
         if negb (Participant.isSelf participant)
         then Participant.updateVolume participant 0%R else participant).
Proof.
  intros Hdata Hname Hfind s'. subst s'.
  unfold processUpdate. rewrite Hdata.
  rewrite (proj2 (String.eqb_neq _ _) Hname).
  destruct (newMaxDistanceOf data) as [newMax |];
    [destruct (Req_dec_T _ _) |];
    (change (Minecraft.currentGamertag (minecraft _))
       with (Minecraft.currentGamertag (minecraft s));
     rewrite Hfind; unfold handlePlayerNotInGame;
     match goal with
     | |- context [micSetEnabled false ?s0] =>
         pose proof (micSetEnabled_frame false s0) as (Ha & Hm & Hp & Hmc & _ & _);
         pose proof (micSetEnabled_flags false s0) as Hf
     end;
     simpl in *; rewrite Ha, Hm, Hp, Hmc; simpl;
     repeat (split; [reflexivity |]); split; [| reflexivity];
     intros t; rewrite Hf, micSetEnabled_flags; reflexivity).
Qed.

(** What the update does to the microphone. When the snapshot does not hold
    the local player, the microphone's track is disabled, push-to-talk or not,
    and the mute and deafen flags stay. When it holds the player, the flags
    become the player's; without push-to-talk the track is enabled exactly
    when neither the user nor the game mutes, and with push-to-talk the update
    leaves the track as it is. No other track's flag is written, and the
    microphone and push-to-talk managers are as before. *)
Theorem processUpdate_microphone (now nowEffect : Z) (s : Session) (data : MinecraftData)
    (stream : Handle) :
  Minecraft.minecraftData (minecraft s) = Some data →
  Minecraft.currentGamertag (minecraft s) ≠ "" →
  MicrophoneManager.mediaStream (micManager s) = Some stream →
  let s' := (processUpdate now nowEffect s).1 in
  let micTrack := {| kind := Audio; ofStream := stream |} in
  let me := MinecraftIntegration.findPlayer (playersOf data)
              (Minecraft.currentGamertag (minecraft s)) in
  (me = None →
     Minecraft.isPlayerInGame (minecraft s') = false ∧
     Minecraft.remoteMuted (minecraft s') = Minecraft.remoteMuted (minecraft s) ∧
     Minecraft.remoteDeafened (minecraft s') = Minecraft.remoteDeafened (minecraft s) ∧
     trackEnabled s' micTrack = false) ∧
  (∀ myPlayer, me = Some myPlayer →
     let d := MinecraftIntegration.data myPlayer in
     Minecraft.isPlayerInGame (minecraft s') = true ∧
     Minecraft.remoteMuted (minecraft s') = MinecraftIntegration.isMuted d ∧
     Minecraft.remoteDeafened (minecraft s') = MinecraftIntegration.isDeafened d ∧
     trackEnabled s' micTrack
     = if PushToTalkManager.enabled (pushToTalk s) then trackEnabled s micTrack
       else negb (MicrophoneManager.isMuted (micManager s)
                  || MinecraftIntegration.isMuted d)) ∧
  (∀ t, t ≠ micTrack → trackEnabled s' t = trackEnabled s t) ∧
  micManager s' = micManager s ∧
  pushToTalk s' = pushToTalk s.
Proof.
  intros Hdata Hname Hstream s' micTrack me.
  destruct me as [myPlayer |] eqn:Hme; subst me.
  - pose proof (processUpdate_in_game now nowEffect s data myPlayer Hdata Hname Hme)
      as (Hm & Hp & _ & _ & Hin & Hrm & Hrd & Hf & _ & _).
    fold s' in Hm, Hp, Hin, Hrm, Hrd, Hf.
    split; [discriminate |]. split; [| split; [| split; assumption]].
    + intros myPlayer' [= <-]. simpl.
      split; [exact Hin | split; [exact Hrm | split; [exact Hrd |]]].
      rewrite Hf. destruct (PushToTalkManager.enabled (pushToTalk s)); [reflexivity |].
      rewrite micSetEnabled_flags, Hstream. fold micTrack.
      now rewrite decide_True by reflexivity.
    + intros t Hne. rewrite Hf.
      destruct (PushToTalkManager.enabled (pushToTalk s)); [reflexivity |].
      rewrite micSetEnabled_flags, Hstream. fold micTrack.
      now rewrite decide_False by exact Hne.
  - pose proof (processUpdate_not_in_game now nowEffect s data Hdata Hname Hme)
      as (Hm & Hp & _ & _ & Hin & Hrm & Hrd & Hf & _).
    fold s' in Hm, Hp, Hin, Hrm, Hrd, Hf.
    split; [| split; [discriminate | split; [| split; assumption]]].
    + intros _. split; [exact Hin | split; [exact Hrm | split; [exact Hrd |]]].
      rewrite Hf, micSetEnabled_flags, Hstream. fold micTrack.
      now rewrite decide_True by reflexivity.
    + intros t Hne. rewrite Hf, micSetEnabled_flags, Hstream. fold micTrack.
      now rewrite decide_False by exact Hne.
Qed.


Open Scope R_scope.


Close Scope R_scope.
End Update2.

(** ** After the call *)

Lemma trace_bind {A B} (m : M A) (k : A → M B) (s : App) :
  trace ((m ≫= k) s)
  = match outcome (m s) with
    | Return a => trace (m s) ++ trace (k a (final (m s)))
    | Throw e => trace (m s)
    end.
Proof.
  unfold mbind, M_bind, outcome, final, trace.
  destruct (m s) as [[[a | e] s'] t]; simpl; [| reflexivity].
  destruct (k a s') as [[o s''] t']. reflexivity.
Qed.

Lemma quiet_bind {A B} (m : M A) (k : A → M B) :
  quiet m → (∀ a, quiet (k a)) → quiet (m ≫= k).
Proof.
  intros Hm Hk s Hs. destruct (Hm s Hs) as [Hfinal Htrace].
  rewrite final_bind, trace_bind.
  destruct (outcome (m s)) as [a | e]; [| split; assumption].
  destruct (Hk a _ Hfinal) as [Hfinal' Htrace'].
  split; [exact Hfinal' |].
  intros msg Hin. apply elem_of_app in Hin as [Hin | Hin];
    [exact (Htrace msg Hin) | exact (Htrace' msg Hin)].
Qed.

Lemma quiet_get_bind {B} (k : App → M B) :
  (∀ s0, offline s0 → quiet (k s0)) → quiet (get ≫= k).
Proof.
  intros Hk s Hs. rewrite final_bind, trace_bind. simpl.
  destruct (Hk s Hs s Hs) as [Hfinal Htrace]. split; assumption.
Qed.

Lemma quiet_tryCatch (body : M unit) (handler : Exn → M unit) :
  quiet body → (∀ e, quiet (handler e)) → quiet (tryCatch body handler).
Proof.
  intros Hb Hh s Hs. destruct (Hb s Hs) as [Hfinal Htrace].
  unfold tryCatch, final, trace in *.
  destruct (body s) as [[[a | e] s'] t] eqn:Hrun; simpl in *; [split; assumption |].
  destruct (Hh e s' Hfinal) as [Hfinal' Htrace']. unfold final, trace in *.
  destruct (handler e s') as [[o s''] t']. simpl in *.
  split; [exact Hfinal' |].
  intros msg Hin. apply elem_of_app in Hin as [Hin | Hin];
    [exact (Htrace msg Hin) | exact (Htrace' msg Hin)].
Qed.

Lemma quiet_forEach {A} (xs : list A) (body : A → M unit) :
  (∀ x, quiet (body x)) → quiet (forEach xs body).
Proof.
  intros Hb. induction xs as [| x xs IH].
  - intros s Hs. split; [exact Hs | intros msg Hin; inversion Hin].
  - simpl. apply quiet_bind; [apply Hb | intros _; exact IH].
Qed.

(** A method that keeps both sockets and whose trace is written out. *)
Lemma quiet_run {A} (m : M A) :
  (∀ a, ws (final (m a)) = ws a ∧
        WebRTCManager.ws (webrtc (final (m a))) = WebRTCManager.ws (webrtc a) ∧
        ∀ msg, WsSend msg ∉ trace (m a)) →
  quiet m.
Proof.
  intros Hm a [Hws Hweb]. destruct (Hm a) as (Hws' & Hweb' & Htrace).
  split; [| exact Htrace]. split; [now rewrite Hws' | now rewrite Hweb'].
Qed.

Lemma quiet_emit (e : Event) : (∀ msg, e ≠ WsSend msg) → quiet (emit e).
Proof.
  intros He. apply quiet_run. intros a. split; [reflexivity | split; [reflexivity |]].
  intros msg Hin. apply list_elem_of_singleton in Hin. symmetry in Hin.
  exact (He msg Hin).
Qed.

Lemma quiet_pure {A} (m : M A) :
  (∀ a, final (m a) = a ∧ trace (m a) = []) → quiet m.
Proof.
  intros Hm. apply quiet_run. intros a. destruct (Hm a) as [-> ->].
  split; [reflexivity | split; [reflexivity |]]. intros msg Hin. inversion Hin.
Qed.

Lemma quiet_storePc (remote : string) (pc : RTCPeerConnection) : quiet (storePc remote pc).
Proof.
  apply quiet_run. intros a. split; [reflexivity | split; [reflexivity |]].
  intros msg Hin. inversion Hin.
Qed.

Lemma quiet_createPeerConnection (remote : string) : quiet (createPeerConnection remote).
Proof.
  apply quiet_run. intros a. rewrite createPeerConnection_run.
  split; [reflexivity | split; [reflexivity |]]. unfold trace. simpl.
  intros msg Hin. destruct (bool_decide _); trace_solver.
Qed.

Lemma quiet_closePeerConnection (gamertag : string) : quiet (closePeerConnection gamertag).
Proof.
  apply quiet_run. intros a. rewrite closePeerConnection_run.
  split; [reflexivity | split; [reflexivity |]]. unfold trace. simpl.
  intros msg Hin. destruct (bool_decide _); trace_solver.
Qed.

Lemma quiet_participantsManagerAdd (gamertag : string) (isSelf : bool) :
  quiet (participantsManagerAdd gamertag isSelf).
Proof.
  apply quiet_run. intros a. rewrite participantsManagerAdd_eq.
  split; [reflexivity | split; [reflexivity |]]. unfold trace. simpl.
  intros msg Hin. destruct (negb _ && _); trace_solver.
Qed.

Lemma quiet_participantsManagerRemove (gamertag : string) :
  quiet (participantsManagerRemove gamertag).
Proof.
  apply quiet_run. intros a. rewrite participantsManagerRemove_eq.
  split; [reflexivity | split; [reflexivity |]]. unfold trace. simpl.
  intros msg Hin. destruct (ParticipantsManager.get _ _); trace_solver.
Qed.

Lemma quiet_ontrack (remote : string) : quiet (ontrack remote).
Proof.
  apply quiet_run. intros a. unfold ontrack, fresh. run_M.
  destruct (ParticipantsManager.get _ _); unfold final, trace; simpl;
    (split; [reflexivity | split; [reflexivity |]]); intros msg Hin; trace_solver.
Qed.

Lemma quiet_wsSend_none (msg : Message) : quiet (wsSend None msg).
Proof.
  apply quiet_pure. intros a. split; reflexivity.
Qed.

Section Quiet.
Context `{Platform}.

Lemma quiet_pcCreateOffer (remote : string) : quiet (pcCreateOffer remote).
Proof.
  apply quiet_run. intros a. unfold pcCreateOffer, thePc. run_M.
  destruct (peers a !! remote); simpl; [destruct (createOffer _) |];
    unfold final, trace; simpl;
    (split; [reflexivity | split; [reflexivity |]]); intros msg Hin; trace_solver.
Qed.

Lemma quiet_pcCreateAnswer (remote : string) : quiet (pcCreateAnswer remote).
Proof.
  apply quiet_run. intros a. unfold pcCreateAnswer, thePc. run_M.
  destruct (peers a !! remote); simpl; [destruct (createAnswer _) |];
    unfold final, trace; simpl;
    (split; [reflexivity | split; [reflexivity |]]); intros msg Hin; trace_solver.
Qed.

Lemma quiet_pcAddIceCandidate (remote : string) (c : Candidate) :
  quiet (pcAddIceCandidate remote c).
Proof.
  apply quiet_run. intros a. unfold pcAddIceCandidate, thePc. run_M.
  destruct (peers a !! remote); simpl; [destruct (addIceCandidate _ _) |];
    unfold final, trace; simpl;
    (split; [reflexivity | split; [reflexivity |]]); intros msg Hin; trace_solver.
Qed.

Lemma quiet_pcSetLocalDescription (remote : string) (d : SessionDescription) :
  quiet (pcSetLocalDescription remote d).
Proof.
  apply quiet_run. intros a. unfold pcSetLocalDescription, thePc, storePc. run_M.
  destruct (peers a !! remote) as [pc |]; simpl; [destruct (setLocalDescription pc d) |];
    unfold final, trace; simpl;
    (split; [reflexivity | split; [reflexivity |]]); intros msg Hin; trace_solver.
Qed.

Lemma quiet_pcSetRemoteDescription (remote : string) (d : SessionDescription) :
  quiet (pcSetRemoteDescription remote d).
Proof.
  apply quiet_run. intros a. unfold pcSetRemoteDescription, thePc, storePc. run_M.
  destruct (peers a !! remote) as [pc |]; simpl; [destruct (setRemoteDescription pc d) |];
    unfold final, trace; simpl;
    (split; [reflexivity | split; [reflexivity |]]); intros msg Hin; trace_solver.
Qed.

Lemma quiet_sendOfferIfOpen (offer : SessionDescription) (remote : string) :
  quiet (sendOfferIfOpen offer remote).
Proof.
  intros a [Hws Hweb]. unfold sendOfferIfOpen. run_M. rewrite Hweb.
  unfold final, trace. simpl. split; [split; assumption |].
  intros msg Hin. inversion Hin.
Qed.

Lemma quiet_onicecandidate (remote : string) (candidate : option Candidate) :
  quiet (onicecandidate remote candidate).
Proof.
  intros a [Hws Hweb]. unfold onicecandidate. run_M.
  destruct candidate; [rewrite Hweb |]; unfold final, trace; simpl;
    (split; [split; assumption |]); intros msg Hin; inversion Hin.
Qed.

Lemma quiet_replaceTracks (effect : string) (newTrack : Track) :
  quiet (replaceTracks effect newTrack).
Proof.
  apply quiet_run. intros a. rewrite replaceTracks_trace.
  split; [reflexivity | split; [reflexivity |]]. unfold trace. simpl.
  intros msg Hin. apply elem_of_app in Hin as [Hin | Hin]; [| trace_solver].
  apply replaceTracks_event in Hin as (g & pc & _ & Hin).
  unfold replaceAudioTrack in Hin.
  destruct (list_find _ _) as [[i sender] |]; [| inversion Hin].
  destruct (replaceTrack _ _ _); simpl in Hin; trace_solver.
Qed.

Lemma quiet_applyEffect (effect : string) (now : Z) (peerConnections : PeerConnectionsArg) :
  quiet (applyEffect effect now peerConnections).
Proof.
  unfold applyEffect. apply quiet_get_bind. intros s0 Hs0.
  destruct (AudioEffectsManager.inputNode _);
    [| apply quiet_emit; intros msg; discriminate].
  destruct (_ && _); [apply quiet_pure; intros a; split; reflexivity |].
  destruct (_ && _); [apply quiet_pure; intros a; split; reflexivity |].
  apply quiet_bind.
  { intros a [Hws Hweb]. unfold put, final, trace. simpl.
    split; [exact Hs0 | intros msg Hin; inversion Hin]. }
  intros _. apply quiet_bind; [apply quiet_emit; intros msg; discriminate | intros _].
  apply quiet_bind.
  { apply quiet_run. intros a. unfold fresh, final, trace. simpl.
    split; [reflexivity | split; [reflexivity |]]. intros msg Hin. inversion Hin. }
  intros dest. apply quiet_bind; [apply quiet_emit; intros msg; discriminate | intros _].
  apply quiet_bind; [apply quiet_emit; intros msg; discriminate | intros _].
  apply quiet_bind.
  { apply quiet_run. intros a. unfold modify, final, trace. simpl.
    split; [reflexivity | split; [reflexivity |]]. intros msg Hin. inversion Hin. }
  intros _. apply quiet_get_bind. intros s1 Hs1.
  destruct peerConnections; [apply quiet_pure; intros a; split; reflexivity |].
  destruct (Nat.ltb _ _); [| apply quiet_pure; intros a; split; reflexivity].
  destruct (head _); [apply quiet_replaceTracks |].
  apply quiet_emit. intros msg. discriminate.
Qed.

(** One step of a proof that a method is quiet. *)
Ltac quiet_step :=
  lazymatch goal with
  | |- quiet (get ≫= _) => apply quiet_get_bind; intros ? ?
  | |- quiet (_ ≫= _) => apply quiet_bind; [| intros ?]
  | |- quiet (tryCatch _ _) => apply quiet_tryCatch; [| intros ?]
  | |- quiet (forEach _ _) => apply quiet_forEach; intros ?
  | |- quiet (emit _) => apply quiet_emit; intros ?; discriminate
  | |- quiet skip => apply quiet_pure; intros ?; split; reflexivity
  | |- quiet (mret _) => apply quiet_pure; intros ?; split; reflexivity
  | |- quiet (throw _) => apply quiet_pure; intros ?; split; reflexivity
  | |- quiet (getPeerConnection _) => apply quiet_pure; intros ?; split; reflexivity
  | |- quiet (createPeerConnection _) => apply quiet_createPeerConnection
  | |- quiet (closePeerConnection _) => apply quiet_closePeerConnection
  | |- quiet (storePc _ _) => apply quiet_storePc
  | |- quiet (pcCreateOffer _) => apply quiet_pcCreateOffer
  | |- quiet (pcCreateAnswer _) => apply quiet_pcCreateAnswer
  | |- quiet (pcSetLocalDescription _ _) => apply quiet_pcSetLocalDescription
  | |- quiet (pcSetRemoteDescription _ _) => apply quiet_pcSetRemoteDescription
  | |- quiet (pcAddIceCandidate _ _) => apply quiet_pcAddIceCandidate
  | |- quiet (sendOfferIfOpen _ _) => apply quiet_sendOfferIfOpen
  | |- quiet (participantsManagerAdd _ _) => apply quiet_participantsManagerAdd
  | |- quiet (participantsManagerRemove _) => apply quiet_participantsManagerRemove
  | |- quiet (ontrack _) => apply quiet_ontrack
  | |- quiet (if ?b then _ else _) => destruct b eqn:?
  | |- quiet (match ?x with _ => _ end) => destruct x eqn:?
  end.

Lemma quiet_attemptReconnect (remote : string) : quiet (attemptReconnect remote).
Proof. unfold attemptReconnect. repeat quiet_step. Qed.

Lemma quiet_closeAllConnections : quiet closeAllConnections.
Proof. unfold closeAllConnections. repeat quiet_step. Qed.

Lemma quiet_reconnectAllPeers : quiet reconnectAllPeers.
Proof.
  unfold reconnectAllPeers. repeat first [apply quiet_closeAllConnections | quiet_step].
Qed.

Lemma quiet_handleSignaling (data : Message) : quiet (handleSignaling data).
Proof.
  unfold handleSignaling. apply quiet_tryCatch; [| intros e; quiet_step].
  apply quiet_get_bind. intros s0 [Hws0 Hweb0]. rewrite Hws0.
  repeat first [apply quiet_reconnectAllPeers | apply quiet_wsSend_none | quiet_step].
Qed.

Lemma quiet_dispatch (e : Entry) : quiet (dispatch e).
Proof.
  destruct e; simpl.
  - apply quiet_handleSignaling.
  - unfold onnegotiationneeded. repeat quiet_step.
  - unfold onconnectionstatechange.
    repeat first [apply quiet_attemptReconnect | quiet_step].
  - unfold oniceconnectionstatechange. repeat quiet_step.
  - apply quiet_onicecandidate.
  - apply quiet_ontrack.
  - apply quiet_applyEffect.
  - apply quiet_reconnectAllPeers.
  - apply quiet_closeAllConnections.
Qed.
End Quiet.

Lemma elem_of_OfConnectionLayer (e : Event) (t : list Event) :
  OfConnectionLayer e ∈ OfConnectionLayer <$> t ↔ e ∈ t.
Proof.
  rewrite list_elem_of_fmap. split.
  - intros (e' & Heq & Hin). injection Heq as ->. exact Hin.
  - intros Hin. eauto.
Qed.

Lemma exitCall_run (s : Session) :
  let a := app s in
  exitCall s
  = ({| app := {| currentGamertag := currentGamertag a;
                  ws := None;
                  participantsManager := ParticipantsManager.clear (participantsManager a);
                  audioEffects := audioEffects a;
                  webrtc := {| WebRTCManager.peerConnections := ∅;
                               WebRTCManager.ws :=
                                 match ws a with
                                 | Some _ => closeSocket <$> WebRTCManager.ws (webrtc a)
                                 | None => WebRTCManager.ws (webrtc a)
                                 end;
                               WebRTCManager.currentGamertag :=
                                 WebRTCManager.currentGamertag (webrtc a) |};
                  nextHandle := nextHandle a |};
        micManager := {| MicrophoneManager.mediaStream := None;
                         MicrophoneManager.mediaStreamSource := None;
                         MicrophoneManager.isMuted := MicrophoneManager.isMuted (micManager s) |};
        pushToTalk := pushToTalk s;
        minecraft := minecraft s;
        inputGain := inputGain s;
        trackEnabled := trackEnabled s;
        heartbeatInterval := None |},
     (if wsIsOpen (ws a)
      then [OfConnectionLayer (WsSend (Leave (currentGamertag a)))] else [])
     ++ (OfConnectionLayer
           <$> concat ((λ g, [PcClose g; ConsoleLog (LogConnectionClosed g)])
                       <$> (map_to_list (peers a)).*1))
     ++ (match ws a with Some _ => [WsClose] | None => [] end)
     ++ (micStop s).2
     ++ (OfConnectionLayer
           <$> ((ParticipantCleanup ∘ Participant.cleanup)
                  <$> (map_to_list
                         (ParticipantsManager.participants (participantsManager a))).*2))
     ++ (match heartbeatInterval s with
         | Some interval => [ClearInterval interval]
         | None => []
         end)
     ++ [ShowCallControls false; UpdateRoomInfo ""; OfConnectionLayer UpdateUI]).
Proof.
  unfold exitCall. rewrite closeAllConnections_run. unfold final, trace. simpl.
  destruct s as [a mic ptt mc gain flags hb]. simpl.
  destruct a as [g w pm ae web n]. simpl.
  unfold micStop. simpl.
  destruct w as [w |]; destruct hb as [hb |]; simpl; reflexivity.
Qed.

Lemma wsIsOpen_closeSocket (w : option WebSocket) : wsIsOpen (closeSocket <$> w) = false.
Proof.
  destruct w as [[n] |]; [| reflexivity]. simpl.
  destruct n as [| [| [| [| n]]]]; reflexivity.
Qed.

Lemma quiet_dispatchAll `{Platform} (entries : list Entry) (a : App) (msg : Message) :
  offline a → WsSend msg ∉ trace (dispatchAll entries a).
Proof.
  intros Ha. unfold dispatchAll.
  exact (proj2 (quiet_forEach entries dispatch quiet_dispatch a Ha) msg).
Qed.

Lemma micStop_events (s : Session) (e : Event) : OfConnectionLayer e ∉ (micStop s).2.
Proof.
  unfold micStop. cbn [snd]. rewrite !elem_of_app. intros [Hin | [Hin | Hin]].
  - destruct (MicrophoneManager.mediaStream _); [| inversion Hin].
    apply list_elem_of_fmap in Hin as (x & Hx & _). discriminate Hx.
  - destruct (MicrophoneManager.mediaStreamSource _); trace_solver.
  - trace_solver.
Qed.

Lemma exitCall_events (s : Session) (e : Event) :
  OfConnectionLayer e ∈ (exitCall s).2 →
  (wsIsOpen (ws (app s)) = true ∧ e = WsSend (Leave (currentGamertag (app s))))
  ∨ e ∈ concat ((λ g, [PcClose g; ConsoleLog (LogConnectionClosed g)])
                <$> (map_to_list (peers (app s))).*1)
  ∨ (∃ c, e = ParticipantCleanup c) ∨ e = UpdateUI.
Proof.
  pose proof (exitCall_run s) as Hrun. cbv zeta in Hrun. rewrite Hrun. cbn [snd].
  rewrite !elem_of_app. intros [Hin | [Hin | [Hin | [Hin | [Hin | [Hin | Hin]]]]]].
  - destruct (wsIsOpen (ws (app s))); [| inversion Hin].
    apply list_elem_of_singleton in Hin. injection Hin as ->. left. split; reflexivity.
  - apply elem_of_OfConnectionLayer in Hin. right. left. exact Hin.
  - destruct (ws (app s)); trace_solver.
  - exfalso. exact (micStop_events s e Hin).
  - apply elem_of_OfConnectionLayer in Hin.
    apply list_elem_of_fmap in Hin as (p & -> & _). right. right. left. eauto.
  - destruct (heartbeatInterval s); trace_solver.
  - right. right. right. trace_solver.
Qed.

Lemma exitCall_state (s : Session) :
  let s' := (exitCall s).1 in
  peers (app s') = ∅ ∧
  participantsManager (app s') = ParticipantsManager.clear (participantsManager (app s)) ∧
  ws (app s') = None ∧
  WebRTCManager.ws (webrtc (app s'))
  = match ws (app s) with
    | Some _ => closeSocket <$> WebRTCManager.ws (webrtc (app s))
    | None => WebRTCManager.ws (webrtc (app s))
    end ∧
  MicrophoneManager.mediaStream (micManager s') = None ∧
  heartbeatInterval s' = None.
Proof.
  pose proof (exitCall_run s) as Hrun. cbv zeta in Hrun. rewrite Hrun.
  repeat split.
Qed.

(** [exitCall] ends the call for good. In a session whose connection layer
    holds no open socket that the application has let go of, afterwards
    there is no link, no participant and no pending node, the application
    has no socket and the one of the connection layer is not open, the
    microphone has no stream and there is no heartbeat. The call sends one
    message at most, the [leave] of the local player, and sends it exactly
    when the socket was open; it closes exactly the links that there were.
    Afterwards no sequence of messages, link events, effect requests,
    reconnections and closings sends anything, and a second [exitCall]
    sends nothing either. *)
Theorem exitCall_ends_the_call `{Platform} (s : Session)
    (Hsocket : wsIsOpen (WebRTCManager.ws (webrtc (app s))) = true → is_Some (ws (app s))) :
  let s' := (exitCall s).1 in
  let t := (exitCall s).2 in
  peers (app s') = ∅ ∧
  ParticipantsManager.participants (participantsManager (app s')) = ∅ ∧
  ParticipantsManager.pendingNodes (participantsManager (app s')) = ∅ ∧
  offline (app s') ∧
  MicrophoneManager.mediaStream (micManager s') = None ∧
  heartbeatInterval s' = None ∧
  (∀ msg, OfConnectionLayer (WsSend msg) ∈ t
          ↔ wsIsOpen (ws (app s)) = true ∧ msg = Leave (currentGamertag (app s))) ∧
  (∀ gamertag, OfConnectionLayer (PcClose gamertag) ∈ t
               ↔ is_Some (peers (app s) !! gamertag)) ∧
  (∀ entries msg, WsSend msg ∉ trace (dispatchAll entries (app s'))) ∧
  (∀ msg, OfConnectionLayer (WsSend msg) ∉ (exitCall s').2).
Proof.
  intros s' t.
  destruct (exitCall_state s) as (Hpeers & Hpm & Hws & Hweb & Hmic & Hhb).
  fold s' in Hpeers, Hpm, Hws, Hweb, Hmic, Hhb.
  assert (Hoff : offline (app s')).
  { split; [exact Hws |]. rewrite Hweb.
    destruct (ws (app s)) as [w |] eqn:Hw; [apply wsIsOpen_closeSocket |].
    destruct (wsIsOpen (WebRTCManager.ws (webrtc (app s)))) eqn:Hopen; [| reflexivity].
    destruct (Hsocket eq_refl) as [w' Hw']. discriminate Hw'. }
  split; [exact Hpeers |].
  split; [rewrite Hpm; reflexivity |].
  split; [rewrite Hpm; reflexivity |].
  split; [exact Hoff |].
  split; [exact Hmic |].
  split; [exact Hhb |].
  split; [| split; [| split]].
  - intros msg. split.
    + intros Hin. apply exitCall_events in Hin as [[Hopen Hmsg] | [Hin | [[c Hc] | Hui]]];
        [injection Hmsg as ->; split; [exact Hopen | reflexivity]
        | | discriminate Hc | discriminate Hui].
      apply close_events_only in Hin as [g [Hg | Hg]]; discriminate Hg.
    + intros [Hopen ->]. subst t. pose proof (exitCall_run s) as Hrun. cbv zeta in Hrun.
      rewrite Hrun. cbn [snd]. rewrite Hopen. apply elem_of_app. left. apply list_elem_of_here.
  - intros gamertag. split.
    + intros Hin. apply exitCall_events in Hin as [[_ Hmsg] | [Hin | [[c Hc] | Hui]]];
        [discriminate Hmsg | | discriminate Hc | discriminate Hui].
      apply close_events_close. exact Hin.
    + intros Hpc. subst t. pose proof (exitCall_run s) as Hrun. cbv zeta in Hrun.
      rewrite Hrun. cbn [snd]. apply elem_of_app. right. apply elem_of_app. left.
      apply elem_of_OfConnectionLayer. apply close_events_close. exact Hpc.
  - intros entries msg. apply quiet_dispatchAll. exact Hoff.
  - intros msg Hin.
    apply exitCall_events in Hin as [[Hopen _] | [Hin | [[c Hc] | Hui]]];
      [| | discriminate Hc | discriminate Hui].
    + rewrite Hws in Hopen. discriminate Hopen.
    + rewrite Hpeers, map_to_list_empty in Hin. inversion Hin.
Qed.

Section EffectAndPtt.
Context `{Platform}.

(** An environment change does not ask push-to-talk. With push-to-talk on,
    an update whose snapshot has the local player in another environment
    than the current effect, and that passes the throttles of
    [applyEnvironmentalEffects] and [applyEffect], puts the audio track of
    the new stream on the audio sender of every link that accepts it, sets
    the [enabled] flag of no track and leaves the push-to-talk manager as it
    was. So where the new track is enabled, as a track is when it is
    created, and the user is not talking, a sender carries an enabled audio
    track: the agreement that [muteAllSenders] had made is gone. *)
Theorem effect_change_skips_push_to_talk (now nowEffect : Z) (s : Session)
    (data : MinecraftData) (myPlayer : MinecraftIntegration.Player)
    (gamertag : string) (pc : RTCPeerConnection) (i : nat) (sender : RTCRtpSender) :
  let target := targetEffect (MinecraftIntegration.data myPlayer) in
  let newTrack := {| kind := Audio; ofStream := nextHandle (app s) |} in
  let s' := (processUpdate now nowEffect s).1 in
  Minecraft.minecraftData (minecraft s) = Some data →
  Minecraft.currentGamertag (minecraft s) ≠ "" →
  MinecraftIntegration.findPlayer (playersOf data) (Minecraft.currentGamertag (minecraft s))
    = Some myPlayer →
  PushToTalkManager.enabled (pushToTalk s) = true →
  (1000 ≤ now - Minecraft.lastEffectChange (minecraft s))%Z →
  target ≠ AudioEffectsManager.currentEffect (audioEffects (app s)) →
  is_Some (AudioEffectsManager.inputNode (audioEffects (app s))) →
  (is_Some (AudioEffectsManager.processedStream (audioEffects (app s))) →
   (1000 ≤ nowEffect - AudioEffectsManager.lastEffectChange (audioEffects (app s)))%Z) →
  peers (app s) !! gamertag = Some pc →
  list_find (λ s, Is_true (isAudioSender s)) (senders pc) = Some (i, sender) →
  replaceTrack gamertag sender newTrack = true →
  (∃ pc', peers (app s') !! gamertag = Some pc' ∧
          senders pc' !! i = Some {| track := Some newTrack |}) ∧
  sendsAudioTrack s' newTrack ∧
  (∀ t, trackEnabled s' t = trackEnabled s t) ∧
  pushToTalk s' = pushToTalk s ∧
  (trackEnabled s newTrack = true →
   PushToTalkManager.isTalking (pushToTalk s) = false →
   ¬ pttConsistent s').
Proof.
  intros target newTrack s' Hdata Hname Hme Hptt Hrate Htarget Hnode Hrate' Hpc Hfind Haccept.
  pose proof (processUpdate_in_game now nowEffect s data myPlayer Hdata Hname Hme)
    as (_ & Hp & _ & _ & _ & _ & _ & Hf & _ & s7 & Hae7 & Hweb7 & Hn7 & Hle7 & Hweb).
  fold s' in Hp, Hf, Hweb. rewrite Hptt in Hf.
  assert (Hlink : ∃ pc', peers (app s') !! gamertag = Some pc' ∧
                         senders pc' !! i = Some {| track := Some newTrack |}).
  { unfold peers at 1. rewrite Hweb.
    unfold applyEnvironmentalEffects. rewrite Hle7.
    rewrite (proj2 (Z.ltb_ge _ _) Hrate). cbv zeta.
    change (app (setMinecraft s7 (setLastEffectChange (minecraft s7) now))) with (app s7).
    rewrite Hae7. fold target.
    rewrite bool_decide_eq_true_2 by exact Htarget.
    destruct (applyEffect_accepted_links (app s7) target nowEffect)
      as (s'' & t & Hrun & _ & _ & _ & Hpeers & _).
    { rewrite Hae7. exact Hnode. }
    { rewrite Hae7. intros Heq. symmetry in Heq. contradiction. }
    { rewrite Hae7. exact Hrate'. }
    rewrite Hrun. unfold final. simpl.
    specialize (Hpeers gamertag). unfold peers in Hpeers at 2. rewrite Hweb7 in Hpeers.
    fold (peers (app s)) in Hpeers. rewrite Hpc, Hn7 in Hpeers. simpl in Hpeers.
    fold (peers s''). rewrite Hpeers. eexists. split; [reflexivity |].
    unfold replaceAudioTrack. rewrite Hfind. fold newTrack. rewrite Haccept. simpl.
    apply list_lookup_insert_eq.
    apply list_find_Some in Hfind as (Hi & _). apply lookup_lt_Some in Hi. exact Hi. }
  assert (Hsends : sendsAudioTrack s' newTrack).
  { destruct Hlink as (pc' & Hpc' & Hsender).
    exists gamertag, pc', {| track := Some newTrack |}.
    split; [exact Hpc' |]. split; [eapply list_elem_of_lookup_2; exact Hsender |].
    split; reflexivity. }
  split; [exact Hlink |]. split; [exact Hsends |]. split; [exact Hf |].
  split; [exact Hp |].
  intros Hfresh Hquiet [_ Hall]. specialize (Hall newTrack Hsends).
  rewrite Hf, Hp, Hfresh, Hquiet in Hall. discriminate Hall.
Qed.

End EffectAndPtt.

Lemma processUpdate_microphone_witness :
  let s' := (@processUpdate w3cBrowser 7000 7000 SessionExamples.openMicSession).1 in
  Minecraft.isPlayerInGame (minecraft s') = true ∧
  trackEnabled s' {| kind := Audio; ofStream := 2 |} = true.
Proof.
  intros s'. subst s'.
  destruct (@processUpdate_microphone w3cBrowser 7000 7000 SessionExamples.openMicSession
              SessionExamples.snapshot 2 eq_refl ltac:(discriminate) eq_refl)
    as (_ & Hpresent & _).
  destruct (Hpresent SessionExamples.diver eq_refl) as (Hin & _ & _ & Hflag).
  split; [exact Hin | rewrite Hflag; reflexivity].
Defined.


Lemma exitCall_ends_the_call_witness :
  let s' := (exitCall SessionExamples.session).1 in
  offline (app s') ∧
  OfConnectionLayer (WsSend (Leave "Alex")) ∈ (exitCall SessionExamples.session).2.
Proof.
  intros s'. subst s'.
  destruct (@exitCall_ends_the_call w3cBrowser SessionExamples.session
              (λ _, ex_intro _ _ eq_refl))
    as (_ & _ & _ & Hoff & _ & _ & Hsend & _).
  split; [exact Hoff | apply Hsend; split; reflexivity].
Defined.

Lemma effect_change_skips_push_to_talk_witness :
  let s' := (@processUpdate w3cBrowser 7000 7000 SessionExamples.session).1 in
  let newTrack := {| kind := Audio; ofStream := 5 |} in
  sendsAudioTrack s' newTrack ∧
  trackEnabled s' newTrack = true ∧
  PushToTalkManager.enabled (pushToTalk s') = true ∧
  PushToTalkManager.isTalking (pushToTalk s') = false.
Proof.
  intros s' newTrack. subst s' newTrack.
  destruct (@effect_change_skips_push_to_talk w3cBrowser 7000 7000 SessionExamples.session
              SessionExamples.snapshot SessionExamples.diver "Steve" Examples.linkWithAudio
              0 {| track := Some SessionExamples.sentTrack |})
    as (_ & Hsends & Hflags & Hptt & _).
  - reflexivity.
  - discriminate.
  - reflexivity.
  - reflexivity.
  - simpl. lia.
  - discriminate.
  - simpl. eauto.
  - simpl. lia.
  - apply lookup_singleton_eq.
  - reflexivity.
  - reflexivity.
  - split; [exact Hsends |]. split; [rewrite Hflags; reflexivity |].
    split; rewrite Hptt; reflexivity.
Defined.
